(** * breakthroughIdeas: storage layer, session log, rate limiting and
      read models

    A shallow embedding of the JavaScript sources
    - [storage.js]            (class [FileStorage]),
    - [config.js]             ([APP_CONFIG], [rateLimitTracker]),
    - the user-session module (class [UserSession]),
    - the comment, rating and project-submission flows,
    - [utils.js]              ([sanitizeInput], [validateProjectData]),
    - [utils/date-formater.js] ([groupCommentsByDateAndUser],
      [formatRelativeTime]),
    - the project functions ([initializeStorageFiles], [loadProjects], the
      comment groups of a project card) and [main.js] ([loadSessionLog],
      [testStorageSystem]),
    and the properties of the specification that are checked against them,
    followed by further properties of the same code.

    Conventions of the embedding.
    - A JavaScript string is a [string]; one character stands for one
      UTF-16 code unit (the model's alphabet is the code units below 256).
    - A value that travels through [JSON.stringify]/[JSON.parse] is a
      [json] tree.  Numbers that the program stores are integers
      (identifiers, epoch milliseconds, star ratings) and are kept in [Z].
    - The browser's [localStorage] is a finite map from keys to strings.
    - Clock readings ([Date.now()], [new Date().toISOString()]) and the
      contents of form fields are inputs of the functions that read them.
    - A JavaScript exception is the [Throw] outcome of the [js] monad; the
      state reached before the exception is kept, as in the source.
    - An [async] function is run to completion, one call at a time.
    - The DOM is an output sink only and is not part of the state. *)

From Stdlib Require Import ZArith Lia Ascii.
From Stdlib Require Floats Uint63.
From stdpp Require Import gmap strings list fin_maps pretty sorting.

#[local] Set Warnings "-register-all,-clear-no-such-hyp".
#[local] Arguments String.append !_ _ / : simpl nomatch.
Open Scope Z_scope.

(* ===================================================================== *)
(** * JSON values                                                          *)
(* ===================================================================== *)

Inductive json : Type :=
| JNull
| JBool (b : bool)
| JNum (n : Z)
| JStr (s : string)
| JArr (items : list json)
| JObj (fields : list (string * json)).

(** Induction over [json] that reaches inside arrays and objects. *)
Section json_induction.
Variable P : json → Prop.
Hypothesis Hnull : P JNull.
Hypothesis Hbool : ∀ b, P (JBool b).
Hypothesis Hnum : ∀ n, P (JNum n).
Hypothesis Hstr : ∀ s, P (JStr s).
Hypothesis Harr : ∀ l, Forall P l → P (JArr l).
Hypothesis Hobj : ∀ fs, Forall (λ kv, P kv.2) fs → P (JObj fs).

Fixpoint json_rect_deep (v : json) : P v :=
  match v with
  | JNull => Hnull
  | JBool b => Hbool b
  | JNum n => Hnum n
  | JStr s => Hstr s
  | JArr l =>
      Harr l ((fix go (l : list json) : Forall P l :=
                 match l with
                 | [] => Forall_nil_2 P
                 | x :: r => Forall_cons_2 P x r (json_rect_deep x) (go r)
                 end) l)
  | JObj fs =>
      Hobj fs ((fix go (fs : list (string * json))
                  : Forall (λ kv, P kv.2) fs :=
                  match fs with
                  | [] => Forall_nil_2 _
                  | kv :: r =>
                      Forall_cons_2 (λ kv, P kv.2) kv r
                        (json_rect_deep kv.2) (go r)
                  end) fs)
  end.
End json_induction.

(** JavaScript truthiness of a JSON value: [null], [false], [0] and the
    empty string are falsy, every array and object is truthy. *)
Definition truthy (v : json) : bool :=
  match v with
  | JNull => false
  | JBool b => b
  | JNum n => negb (n =? 0)
  | JStr s => negb (String.eqb s "")
  | JArr _ | JObj _ => true
  end.

(** [v || d] on JSON values. *)
Definition js_or (v d : json) : json := if truthy v then v else d.

(** Property read [o.k]: [None] stands for [undefined].  Only objects carry
    the properties the program reads ([nickname], [stamp], ...). *)
Fixpoint assoc (k : string) (fs : list (string * json)) : option json :=
  match fs with
  | [] => None
  | (k', v) :: r => if String.eqb k k' then Some v else assoc k r
  end.

Definition prop (k : string) (v : json) : option json :=
  match v with
  | JObj fs => assoc k fs
  | _ => None
  end.

(* ===================================================================== *)
(** * The JSON codec                                                       *)
(* ===================================================================== *)

(** [JSON.stringify] and [JSON.parse] are taken through their interface.
    [JSON_parse] returns [None] where the source's [JSON.parse] throws a
    [SyntaxError]. *)
Class JSONCodec := {
  JSON_stringify : json → string;
  JSON_parse : string → option json;
  JSON_parse_stringify : ∀ v, JSON_parse (JSON_stringify v) = Some v;
  JSON_stringify_nonempty : ∀ v, JSON_stringify v ≠ "";
  JSON_parse_empty_array : JSON_parse "[]" = Some (JArr []);
}.

(* ===================================================================== *)
(** * A compact codec                                                      *)
(* ===================================================================== *)

(** The theorems below hold for every codec.  To run the model on concrete
    stores, an instance is needed; this one writes a value in prefix form
    (one tag character per node, self-delimiting numbers and strings) and
    reads it back.  The empty array is written [[]]. *)
Module CompactCodec.

Fixpoint enc_pos (p : positive) : string :=
  match p with
  | xH => "h"
  | xO q => String "o"%char (enc_pos q)
  | xI q => String "i"%char (enc_pos q)
  end.

Definition enc_Z (z : Z) : string :=
  match z with
  | Z0 => "z"
  | Zpos p => String "+"%char (enc_pos p)
  | Zneg p => String "-"%char (enc_pos p)
  end.

Fixpoint enc_str (s : string) : string :=
  match s with
  | EmptyString => "."
  | String c r => String ","%char (String c (enc_str r))
  end.

Fixpoint enc (v : json) : string :=
  match v with
  | JNull => "n"
  | JBool true => "t"
  | JBool false => "f"
  | JNum z => String "#"%char (enc_Z z)
  | JStr s => String "s"%char (enc_str s)
  | JArr l =>
      String "["%char
        ((fix go (l : list json) : string :=
            match l with
            | [] => "]"
            | x :: r => enc x +:+ go r
            end) l)
  | JObj fs =>
      String "{"%char
        ((fix go (fs : list (string * json)) : string :=
            match fs with
            | [] => "}"
            | kv :: r => enc_str kv.1 +:+ enc kv.2 +:+ go r
            end) fs)
  end.

Fixpoint enc_items (l : list json) : string :=
  match l with
  | [] => "]"
  | x :: r => enc x +:+ enc_items r
  end.

Fixpoint enc_fields (fs : list (string * json)) : string :=
  match fs with
  | [] => "}"
  | kv :: r => enc_str kv.1 +:+ enc kv.2 +:+ enc_fields r
  end.

Fixpoint dec_pos (s : string) : option (positive * string) :=
  match s with
  | EmptyString => None
  | String c r =>
      if Ascii.eqb c "h"%char then Some (xH, r)
      else if Ascii.eqb c "o"%char then
        match dec_pos r with Some (p, r') => Some (xO p, r') | None => None end
      else if Ascii.eqb c "i"%char then
        match dec_pos r with Some (p, r') => Some (xI p, r') | None => None end
      else None
  end.

Definition dec_Z (s : string) : option (Z * string) :=
  match s with
  | EmptyString => None
  | String c r =>
      if Ascii.eqb c "z"%char then Some (0, r)
      else if Ascii.eqb c "+"%char then
        match dec_pos r with Some (p, r') => Some (Zpos p, r') | None => None end
      else if Ascii.eqb c "-"%char then
        match dec_pos r with Some (p, r') => Some (Zneg p, r') | None => None end
      else None
  end.

Fixpoint dec_str (s : string) : option (string * string) :=
  match s with
  | EmptyString => None
  | String c r =>
      if Ascii.eqb c "."%char then Some (EmptyString, r)
      else if Ascii.eqb c ","%char then
        match r with
        | EmptyString => None
        | String d r' =>
            match dec_str r' with
            | Some (t, r'') => Some (String d t, r'')
            | None => None
            end
        end
      else None
  end.

Fixpoint dec (fuel : nat) (s : string) : option (json * string) :=
  match fuel with
  | O => None
  | S f =>
      match s with
      | EmptyString => None
      | String c r =>
          if Ascii.eqb c "n"%char then Some (JNull, r)
          else if Ascii.eqb c "t"%char then Some (JBool true, r)
          else if Ascii.eqb c "f"%char then Some (JBool false, r)
          else if Ascii.eqb c "#"%char then
            match dec_Z r with Some (z, r') => Some (JNum z, r') | None => None end
          else if Ascii.eqb c "s"%char then
            match dec_str r with Some (t, r') => Some (JStr t, r') | None => None end
          else if Ascii.eqb c "["%char then
            match dec_items f r with Some (l, r') => Some (JArr l, r') | None => None end
          else if Ascii.eqb c "{"%char then
            match dec_fields f r with Some (fs, r') => Some (JObj fs, r') | None => None end
          else None
      end
  end
with dec_items (fuel : nat) (s : string) : option (list json * string) :=
  match fuel with
  | O => None
  | S f =>
      match s with
      | EmptyString => None
      | String c r =>
          if Ascii.eqb c "]"%char then Some ([], r)
          else
            match dec f s with
            | Some (x, r1) =>
                match dec_items f r1 with
                | Some (l, r2) => Some (x :: l, r2)
                | None => None
                end
            | None => None
            end
      end
  end
with dec_fields (fuel : nat) (s : string) : option (list (string * json) * string) :=
  match fuel with
  | O => None
  | S f =>
      match s with
      | EmptyString => None
      | String c r =>
          if Ascii.eqb c "}"%char then Some ([], r)
          else
            match dec_str s with
            | Some (k, r0) =>
                match dec f r0 with
                | Some (x, r1) =>
                    match dec_fields f r1 with
                    | Some (fs, r2) => Some ((k, x) :: fs, r2)
                    | None => None
                    end
                | None => None
                end
            | None => None
            end
      end
  end.

Definition parse (s : string) : option json :=
  match dec (S (String.length s)) s with
  | Some (v, EmptyString) => Some v
  | _ => None
  end.

(** [v] is read back from its encoding, whatever follows it. *)
Definition reads_back (v : json) : Prop :=
  ∀ fuel rest, (String.length (enc v) ≤ fuel)%nat →
               dec fuel (enc v +:+ rest) = Some (v, rest).

End CompactCodec.

(* ===================================================================== *)
(** * Strings                                                              *)
(* ===================================================================== *)

(** White space removed by [String.prototype.trim], restricted to the
    model's alphabet: TAB, LF, VT, FF, CR, SPACE and NBSP. *)
Definition is_js_space (c : ascii) : bool :=
  let n := nat_of_ascii c in
  ((9 <=? n) && (n <=? 13) || (n =? 32) || (n =? 160))%nat.

Fixpoint trimStart (s : string) : string :=
  match s with
  | EmptyString => EmptyString
  | String c r => if is_js_space c then trimStart r else s
  end.

Definition trimEnd (s : string) : string :=
  String.rev (trimStart (String.rev s)).

Definition trim (s : string) : string := trimEnd (trimStart s).

(** The characters of a string. *)
Fixpoint chars (s : string) : list ascii :=
  match s with
  | EmptyString => []
  | String c r => c :: chars r
  end.

(** [sanitizeInput] of [utils.js]: every character of the class
    less-than, greater-than, double quote, apostrophe, ampersand is replaced
    by [entityMap[match]]; the other characters are kept. *)
Definition entityMap (c : ascii) : option string :=
  if Ascii.eqb c "<"%char then Some "&lt;"
  else if Ascii.eqb c ">"%char then Some "&gt;"
  else if Ascii.eqb c (ascii_of_nat 34) then Some "&quot;"
  else if Ascii.eqb c "'"%char then Some "&#39;"
  else if Ascii.eqb c "&"%char then Some "&amp;"
  else None.

Fixpoint sanitizeInput (input : string) : string :=
  match input with
  | EmptyString => EmptyString
  | String c r =>
      match entityMap c with
      | Some e => e +:+ sanitizeInput r
      | None => String c (sanitizeInput r)
      end
  end.

(* ===================================================================== *)
(** * config.js                                                            *)
(* ===================================================================== *)

Module APP_CONFIG.
Module VALIDATION.
Definition MAX_COMMENT_LENGTH : Z := 500.
End VALIDATION.
Module RATE_LIMITING.
Definition COMMENT_COOLDOWN : Z := 3000.
Definition RATING_COOLDOWN : Z := 1000.
Definition PROJECT_COOLDOWN : Z := 5000.
End RATE_LIMITING.
End APP_CONFIG.

(** [window.rateLimitTracker]: epoch milliseconds of the last action of
    each class, kept in memory only. *)
Record RateLimitTracker := {
  lastCommentTime : Z;
  lastRatingTime : Z;
  lastProjectTime : Z;
}.

Definition initial_tracker : RateLimitTracker :=
  {| lastCommentTime := 0; lastRatingTime := 0; lastProjectTime := 0 |}.

(* ===================================================================== *)
(** * storage.js: class FileStorage                                        *)
(* ===================================================================== *)

(** The browser store.  A write to an available store succeeds: no size
    quota is modelled, so the [catch] branches of [setItem] and
    [removeItem] are not reached. *)
Abbreviation LocalStorage := (gmap string string).

Record FileStorage := {
  prefix : string;
  enabled : bool;
}.

(** [checkStorageEnabled]: a write/delete probe.  [available] tells whether
    the browser lets the page use [localStorage]; when it does not, the
    probe's write throws and the result is [false]. *)
Definition checkStorageEnabled (available : bool) (ls : LocalStorage)
  : bool * LocalStorage :=
  if available
  then (true, delete "__storage_test__" (<["__storage_test__" := "__storage_test__"]> ls))
  else (false, ls).

Definition new_FileStorage (available : bool) (ls : LocalStorage)
  : FileStorage * LocalStorage :=
  let '(ok, ls') := checkStorageEnabled available ls in
  ({| prefix := "breakthroughIdeas_"; enabled := ok |}, ls').

(** The table of [getDefaults]. *)
Definition defaults : list (string * json) :=
  [ ("projects.system", JArr []);
    ("projects.user", JArr []);
    ("projects.allProjects", JArr []);
    ("users.allUsers", JArr []);
    ("users.userProjects", JArr []);
    ("logs._activity_logs", JArr []);
    ("logs.rate_limits", JObj []);
    ("session.location", JObj [("pending", JStr "User interaction required")]);
    ("session.userDetails", JObj []) ].

(** [defaults[key] !== undefined ? defaults[key] : null].  Keys that name a
    member of [Object.prototype] are outside the model: every key the
    program uses has the form [namespace.name]. *)
Definition getDefaults (key : string) : json :=
  match assoc key defaults with
  | Some v => v
  | None => JNull
  end.

Section storage.
Context `{JSONCodec}.

(** [getItem]: an absent entry and an empty string are both falsy, and a
    text that does not parse is caught. *)
Definition getItem (fs : FileStorage) (ls : LocalStorage) (key : string) : json :=
  if negb (enabled fs) then getDefaults key
  else
    match ls !! (prefix fs +:+ key) with
    | Some item =>
        if String.eqb item "" then getDefaults key
        else
          match JSON_parse item with
          | Some v => v
          | None => getDefaults key
          end
    | None => getDefaults key
    end.

Definition setItem (fs : FileStorage) (ls : LocalStorage) (key : string) (value : json)
  : bool * LocalStorage :=
  if negb (enabled fs) then (false, ls)
  else (true, <[prefix fs +:+ key := JSON_stringify value]> ls).

Definition removeItem (fs : FileStorage) (ls : LocalStorage) (key : string)
  : LocalStorage :=
  if negb (enabled fs) then ls else delete (prefix fs +:+ key) ls.

End storage.

(* ===================================================================== *)
(** * Program state and the [js] monad                                     *)
(* ===================================================================== *)

(** The fields of a [UserSession] object. [nickname = None] is [null]. *)
Module UserSession.
Record t := {
  storage : FileStorage;
  stamp : string;
  nickname : option string;
  userDetails : list (string * json);
  sessionData : json;
}.
End UserSession.

(** What the flows read and write: the browser store, the global
    [userSession] and the global [rateLimitTracker]. *)
Record World := {
  localStorage : LocalStorage;
  userSession : UserSession.t;
  rateLimitTracker : RateLimitTracker;
}.

Inductive result (A : Type) : Type :=
| Ok (a : A)
| Throw (err : string).
Arguments Ok {A} a.
Arguments Throw {A} err.

Definition js (A : Type) : Type := World → result A * World.

Definition ret {A} (a : A) : js A := λ w, (Ok a, w).

Definition bind {A B} (m : js A) (k : A → js B) : js B :=
  λ w, match m w with
       | (Ok a, w') => k a w'
       | (Throw e, w') => (Throw e, w')
       end.

Definition throw {A} (err : string) : js A := λ w, (Throw err, w).

Declare Scope js_scope.
Delimit Scope js_scope with js.
Notation "x <- m ;; k" := (bind m (λ x, k))
  (at level 100, m at next level, right associativity) : js_scope.
Notation "m ;; k" := (bind m (λ _, k))
  (at level 100, right associativity) : js_scope.
Open Scope js_scope.

Definition this : js UserSession.t := λ w, (Ok (userSession w), w).

Definition set_this_nickname (n : option string) : js unit :=
  λ w, (Ok (),
        {| localStorage := localStorage w;
           userSession :=
             {| UserSession.storage := UserSession.storage (userSession w);
                UserSession.stamp := UserSession.stamp (userSession w);
                UserSession.nickname := n;
                UserSession.userDetails := UserSession.userDetails (userSession w);
                UserSession.sessionData := UserSession.sessionData (userSession w) |};
           rateLimitTracker := rateLimitTracker w |}).

Definition set_this_userDetails (d : list (string * json)) : js unit :=
  λ w, (Ok (),
        {| localStorage := localStorage w;
           userSession :=
             {| UserSession.storage := UserSession.storage (userSession w);
                UserSession.stamp := UserSession.stamp (userSession w);
                UserSession.nickname := UserSession.nickname (userSession w);
                UserSession.userDetails := d;
                UserSession.sessionData := UserSession.sessionData (userSession w) |};
           rateLimitTracker := rateLimitTracker w |}).

Definition get_tracker : js RateLimitTracker :=
  λ w, (Ok (rateLimitTracker w), w).

Definition set_tracker (t : RateLimitTracker) : js unit :=
  λ w, (Ok (),
        {| localStorage := localStorage w;
           userSession := userSession w;
           rateLimitTracker := t |}).

(** Raw [localStorage.getItem] / [localStorage.setItem]. *)
Definition localStorage_getItem (key : string) : js (option string) :=
  λ w, (Ok (localStorage w !! key), w).

Definition localStorage_setItem (key value : string) : js unit :=
  λ w, (Ok (),
        {| localStorage := <[key := value]> (localStorage w);
           userSession := userSession w;
           rateLimitTracker := rateLimitTracker w |}).

(** [s || d] on the result of [localStorage.getItem]: [null] and the empty
    string are falsy. *)
Definition text_or (s : option string) (d : string) : string :=
  match s with
  | Some t => if String.eqb t "" then d else t
  | None => d
  end.

(** [a.push(x)]: only arrays have the method. *)
Definition Array_push (a : json) (x : json) : js (list json) :=
  match a with
  | JArr l => ret (l ++ [x])
  | _ => throw "TypeError: push is not a function"
  end.

(** [u.k] throws on [null]; any other JSON value answers, with
    [undefined] ([None]) when it has no such property. *)
Definition get_prop (u : json) (k : string) : js (option json) :=
  match u with
  | JNull => throw "TypeError: cannot read properties of null"
  | _ => ret (prop k u)
  end.

(** [x === s] for a string [s]. *)
Definition strict_eq_str (x : option json) (s : string) : bool :=
  match x with
  | Some (JStr t) => String.eqb t s
  | _ => false
  end.

Fixpoint find_list (p : json → js bool) (l : list json) : js (option json) :=
  match l with
  | [] => ret None
  | u :: r => b <- p u ;; if b : bool then ret (Some u) else find_list p r
  end.

(** [a.find(p)] *)
Definition Array_find (p : json → js bool) (a : json) : js (option json) :=
  match a with
  | JArr l => find_list p l
  | _ => throw "TypeError: find is not a function"
  end.

Fixpoint findIndex_list (p : json → js bool) (l : list json) (i : nat)
  : js (option nat) :=
  match l with
  | [] => ret None
  | u :: r => b <- p u ;; if b : bool then ret (Some i) else findIndex_list p r (S i)
  end.

(** [a.findIndex(p)]; [None] is the result [-1]. *)
Definition Array_findIndex (p : json → js bool) (a : json) : js (option nat) :=
  match a with
  | JArr l => findIndex_list p l 0%nat
  | _ => throw "TypeError: findIndex is not a function"
  end.

Definition opt_str (s : option string) : json :=
  match s with
  | Some t => JStr t
  | None => JNull
  end.

(** Object spread [{...a, ...b}]: the keys of [a] keep their place and take
    the value of [b] where [b] has the key; the other keys of [b] follow. *)
Definition spread (a b : list (string * json)) : list (string * json) :=
  map (λ kv, (kv.1, default kv.2 (assoc kv.1 b))) a
  ++ filter (λ kv, assoc kv.1 a = None) b.

(* ===================================================================== *)
(** * The user-session module: class UserSession                          *)
(* ===================================================================== *)

Section session.
Context `{JSONCodec}.

Definition storage_getItem (key : string) : js json :=
  λ w, (Ok (getItem (UserSession.storage (userSession w)) (localStorage w) key), w).

Definition storage_setItem (key : string) (value : json) : js bool :=
  λ w, let '(ok, ls) := setItem (UserSession.storage (userSession w)) (localStorage w) key value in
       (Ok ok,
        {| localStorage := ls;
           userSession := userSession w;
           rateLimitTracker := rateLimitTracker w |}).

Definition JSON_parse_js (text : string) : js json :=
  match JSON_parse text with
  | Some v => ret v
  | None => throw "SyntaxError"
  end.

(** [logActivity(action, data)]; [iso] is [new Date().toISOString()]. *)
Definition logActivity (action : string) (data : json) (iso : string) : js unit :=
  stored <- storage_getItem "logs._activity_logs" ;;
  let logs := js_or stored (JArr []) in
  self <- this ;;
  let logEntry :=
    JObj [ ("timestamp", JStr iso);
           ("userStamp", JStr (UserSession.stamp self));
           ("nickname", opt_str (UserSession.nickname self));
           ("action", JStr action);
           ("data", data);
           ("sessionData", UserSession.sessionData self) ] in
  logs <- Array_push logs logEntry ;;
  (* Keep only last 1000 entries *)
  let logs :=
    if (1000 <? length logs)%nat
    then drop (length logs - 1000) logs   (* logs.splice(0, logs.length - 1000) *)
    else logs in
  storage_setItem "logs._activity_logs" (JArr logs) ;;
  ret ().

(** [ensureUniqueNickname(nickname)] reads the raw key [allUsers]. *)
Definition ensureUniqueNickname (nickname : string) : js string :=
  raw <- localStorage_getItem "allUsers" ;;
  existingUsers <- JSON_parse_js (text_or raw "[]") ;;
  let baseNick := trim nickname in
  self <- this ;;
  found <- Array_find
             (λ u, n <- get_prop u "nickname" ;;
                   if strict_eq_str n baseNick
                   then (s <- get_prop u "stamp" ;;
                         ret (negb (strict_eq_str s (UserSession.stamp self))))
                   else ret false)
             existingUsers ;;
  match found with
  | None => ret baseNick
  | Some _ => ret (baseNick +:+ "#" +:+ UserSession.stamp self)
  end.

(** [setNickname(nickname)] *)
Definition setNickname (nickname : string) : js string :=
  uniqueNick <- ensureUniqueNickname nickname ;;
  set_this_nickname (Some uniqueNick) ;;
  localStorage_setItem "userNickname" uniqueNick ;;
  ret uniqueNick.

(** [saveUserDetails(details)]; [lastActive] and [logISO] are the two
    readings of [new Date().toISOString()]. *)
Definition saveUserDetails (details : list (string * json))
    (lastActive logISO : string) : js unit :=
  self <- this ;;
  let merged := spread (UserSession.userDetails self) details in
  set_this_userDetails merged ;;
  storage_setItem "users.details" (JObj merged) ;;
  (* Save to global users list *)
  stored <- storage_getItem "users.allUsers" ;;
  let allUsers := js_or stored (JArr []) in
  userIndex <- Array_findIndex
                 (λ u, s <- get_prop u "stamp" ;; ret (strict_eq_str s (UserSession.stamp self)))
                 allUsers ;;
  let userData :=
    JObj [ ("stamp", JStr (UserSession.stamp self));
           ("nickname", opt_str (UserSession.nickname self));
           ("details", JObj merged);
           ("lastActive", JStr lastActive) ] in
  allUsers <- match userIndex, allUsers with
              | Some i, JArr l => ret (<[i := userData]> l)
              | _, _ => Array_push allUsers userData
              end ;;
  storage_setItem "users.allUsers" (JArr allUsers) ;;
  logActivity "user_details_saved" (JObj [("details", JObj details)]) logISO.

End session.

(* ===================================================================== *)
(** * Project functions: loadProjects                                      *)
(* ===================================================================== *)

(** [a.sort(cmp)]: the sort is stable, and for a consistent comparison
    function every stable sort returns the same array; insertion is the
    one written here.  [cmp x y <= 0] keeps [x] before [y]. *)
Fixpoint sort_insert {A} (cmp : A → A → Z) (x : A) (l : list A) : list A :=
  match l with
  | [] => [x]
  | y :: r => if cmp x y <=? 0 then x :: l else y :: sort_insert cmp x r
  end.

Fixpoint Array_sort {A} (cmp : A → A → Z) (l : list A) : list A :=
  match l with
  | [] => []
  | x :: r => sort_insert cmp x (Array_sort cmp r)
  end.

(** The own enumerable properties of a parsed value, as an object spread
    sees them: the fields of an object, the indexed elements of an array,
    the indexed characters of a string, nothing for the other values. *)
Definition own_props (v : json) : list (string * json) :=
  match v with
  | JObj fs => fs
  | JArr l => imap (λ i x, (pretty i, x)) l
  | JStr s => imap (λ i c, (pretty i, JStr (String c EmptyString))) (chars s)
  | _ => []
  end.

(** [...v] inside an array literal: arrays and strings can be iterated,
    the other JSON values cannot. *)
Definition iterate (v : json) : js (list json) :=
  match v with
  | JArr l => ret l
  | JStr s => ret (map (λ c, JStr (String c EmptyString)) (chars s))
  | _ => throw "TypeError: not iterable"
  end.

(** The object [{ ...project, originalIndex: index }]: the properties that
    the spread copies from [project], and the index, which takes the place
    of a property [originalIndex] of [project] if there is one. *)
Record IndexedProject := {
  project_props : list (string * json);
  originalIndex : Z;
}.

Section project_list.
Context `{JSONCodec}.

(** [expandedProjects.has(x)] is a parameter: the set is filled by the
    page.  [None] is [undefined]. *)
Variable expandedProjects_has : option json → bool.

(** The comparison function of the [sort] in [loadProjects]. *)
Definition compareProjects (a b : IndexedProject) : Z :=
  let aExpanded := expandedProjects_has (assoc "id" a.(project_props)) in
  let bExpanded := expandedProjects_has (assoc "id" b.(project_props)) in
  if aExpanded && negb bExpanded then -1
  else if negb aExpanded && bExpanded then 1
  else a.(originalIndex) - b.(originalIndex).

(** [loadProjects()], up to the creation of the cards: the projects in
    the order in which their cards are appended to the grid.  It throws
    when a stored collection cannot be spread into the array.  The
    creation of a card, which reads the comments and ratings of its project
    and writes to the page, is not modelled. *)
Definition loadProjects : js (list IndexedProject) :=
  (* Load all projects from storage *)
  stored <- storage_getItem "projects.allProjects" ;;
  let systemProjects := js_or stored (JArr []) in
  stored <- storage_getItem "projects.userProjects" ;;
  let userProjects := js_or stored (JArr []) in
  (* Combine system and user projects *)
  systemProjects <- iterate systemProjects ;;
  userProjects <- iterate userProjects ;;
  let allProjects :=
    imap (λ index project,
            {| project_props := own_props project;
               originalIndex := Z.of_nat index |})
         (systemProjects ++ userProjects) in
  ret (Array_sort compareProjects allProjects).

End project_list.

(* ===================================================================== *)
(** * The mutation flows                                                   *)
(* ===================================================================== *)

(** What a call reads from its surroundings: the readings of [Date.now()]
    and of [new Date().toISOString()], numbered from 0 by the place in the
    source text of the flow where the reading is taken, and the browser
    fingerprint. *)
Record Env := {
  Date_now : nat → Z;
  toISOString : nat → string;
  navigator_userAgent : string;
  navigator_language : string;
  screen_width : Z;
  screen_height : Z;
}.

(** The message shown when a flow stops before its [try] block. *)
Inductive Notice : Type :=
| PleaseEnterComment
| CommentTooLong
| PleaseWait (remainingTime : Z)   (* the text shows ceil(remainingTime / 1000) s *)
| ValidationErrors (errors : list string).

Inductive Outcome : Type :=
| Completed                (* the [try] block ran to its end *)
| Stopped (n : Notice)     (* early [return] *)
| Caught (err : string).   (* the [catch] block ran *)

Definition try_catch (body : js unit) : World → Outcome * World :=
  λ w, match body w with
       | (Ok _, w') => (Completed, w')
       | (Throw e, w') => (Caught e, w')
       end.

(** [Math.ceil(remainingTime / 1000)], the number in the "please wait"
    message. *)
Definition wait_seconds (remainingTime : Z) : Z := - ((- remainingTime) / 1000).

Section flows.
Context `{JSONCodec}.

(** [expandedProjects.has], read by the [loadProjects] that ends the rating
    and the project flows. *)
Variable expandedProjects_has : option json → bool.

(** [nickname && nickname !== userSession.nickname] *)
Definition nickname_changed (nickname : string) (self : UserSession.t) : bool :=
  negb (String.eqb nickname "")
  && negb (match self.(UserSession.nickname) with
           | Some n => String.eqb nickname n
           | None => false
           end).

(** [addComment(projectId, textarea)].  [textarea_value] is
    [textarea.value] and [nickname_text] the text of the nickname field.
    The whole body of the source is one [try] block; the three early
    [return]s leave it without reaching the [catch].  After the update of
    the tracker the source rewrites the comment list and the counter of
    the card; these steps work on the page and are not modelled, so that
    [Completed] stands here for a [try] block that has reached the update
    of the tracker. *)
Definition addComment (env : Env) (projectId : Z)
    (textarea_value nickname_text : string) : World → Outcome * World :=
  λ w,
  let commentText := sanitizeInput (trim textarea_value) in
  let nickname := sanitizeInput (trim nickname_text) in
  (* Validation *)
  if String.eqb commentText "" then (Stopped PleaseEnterComment, w)
  else if APP_CONFIG.VALIDATION.MAX_COMMENT_LENGTH <? Z.of_nat (String.length commentText)
  then (Stopped CommentTooLong, w)
  else
    (* Rate limiting check *)
    let now := env.(Date_now) 0%nat in
    let last := w.(rateLimitTracker).(lastCommentTime) in
    if now - last <? APP_CONFIG.RATE_LIMITING.COMMENT_COOLDOWN
    then (Stopped (PleaseWait (APP_CONFIG.RATE_LIMITING.COMMENT_COOLDOWN - (now - last))), w)
    else
      try_catch
        (self <- this ;;
         (* Update session nickname if changed *)
         (if nickname_changed nickname self
          then setNickname nickname ;; ret ()
          else ret ()) ;;
         self <- this ;;
         let comment :=
           JObj [ ("author", JStr nickname);
                  ("stamp", JStr self.(UserSession.stamp));
                  ("text", JStr commentText);
                  ("timestamp", JStr (env.(toISOString) 0%nat)) ] in
         let key := "comments." +:+ pretty projectId in
         stored <- storage_getItem key ;;
         comments <- Array_push (js_or stored (JArr [])) comment ;;
         storage_setItem key (JArr comments) ;;
         logActivity "comment_added"
           (JObj [ ("projectId", JNum projectId);
                   ("commentLength", JNum (Z.of_nat (String.length commentText)));
                   ("hasNickname", JBool (negb (String.eqb nickname "")));
                   ("nickname", JStr nickname);
                   ("userAgent", JStr env.(navigator_userAgent));
                   ("timestamp", JStr (env.(toISOString) 1%nat)) ])
           (env.(toISOString) 2%nat) ;;
         (* Update rate limit tracker *)
         t <- get_tracker ;;
         set_tracker {| lastCommentTime := env.(Date_now) 1%nat;
                        lastRatingTime := t.(lastRatingTime);
                        lastProjectTime := t.(lastProjectTime) |})
        w.

(** [rateProject(projectId, rating)].  The [try] block goes on after the
    update of the tracker: [loadProjects()] rebuilds the cards, and an
    exception of it is caught with the time already recorded. *)
Definition rateProject (env : Env) (projectId rating : Z) : World → Outcome * World :=
  λ w,
  (* Rate limiting check *)
  let now := env.(Date_now) 0%nat in
  let last := w.(rateLimitTracker).(lastRatingTime) in
  if now - last <? APP_CONFIG.RATE_LIMITING.RATING_COOLDOWN
  then (Stopped (PleaseWait (APP_CONFIG.RATE_LIMITING.RATING_COOLDOWN - (now - last))), w)
  else
    try_catch
      (let key := "ratings." +:+ pretty projectId in
       stored <- storage_getItem key ;;
       ratings <- Array_push (js_or stored (JArr [])) (JNum rating) ;;
       storage_setItem key (JArr ratings) ;;
       logActivity "project_rated"
         (JObj [ ("projectId", JNum projectId);
                 ("rating", JNum rating);
                 ("totalRatings", JNum (Z.of_nat (length ratings))) ])
         (env.(toISOString) 0%nat) ;;
       (* Update rate limit tracker *)
       t <- get_tracker ;;
       set_tracker {| lastCommentTime := t.(lastCommentTime);
                      lastRatingTime := now;
                      lastProjectTime := t.(lastProjectTime) |} ;;
       (* Update display *)
       loadProjects expandedProjects_has ;;
       (* Show success notification *)
       ret ())
      w.

(** The fields of the project form, already trimmed by the handler. *)
Record ProjectForm := {
  form_title : string;
  form_description : string;
  form_link : string;
  form_email : string;
  form_nickname : string;
}.

Section project_submission.
(** [isValidUrl]: whether [new URL(url)] succeeds. *)
Variable isValidUrl : string → bool.

(** [validateProjectData] on the object the handler builds: one tag,
    [link] present when not empty, no [demo] and no [github]. *)
Definition validateProjectData (title description : string) (tags : list string)
    (link : string) : list string :=
  (if String.eqb title "" || (String.length (trim title) <? 3)%nat
   then ["Title must be at least 3 characters"] else [])
  ++ (if String.eqb description "" || (String.length (trim description) <? 10)%nat
      then ["Description must be at least 10 characters"] else [])
  ++ (if (length tags =? 0)%nat then ["At least one tag is required"] else [])
  ++ (if (10 <? length tags)%nat then ["Maximum 10 tags allowed"] else [])
  ++ (if negb (String.eqb link "") && negb (isValidUrl link)
      then ["Project link must be a valid URL"] else []).

(** [x || null] for a form string. *)
Definition str_or_null (s : string) : json :=
  if String.eqb s "" then JNull else JStr s.

(** The [submit] handler of the project form.  As in [rateProject], the
    [try] block ends with [loadProjects()], after the update of the
    tracker.  The clearing of the form fields, between the log entry and
    the update of the tracker, works on the page and is not modelled. *)
Definition submitProject (env : Env) (form : ProjectForm) : World → Outcome * World :=
  λ w,
  let title := trim form.(form_title) in
  let description := trim form.(form_description) in
  let link := trim form.(form_link) in
  let email := trim form.(form_email) in
  let nickname := trim form.(form_nickname) in
  let tags := ["user-submitted"] in
  (* Validate project data *)
  let errors := validateProjectData title description tags link in
  if negb (length errors =? 0)%nat then (Stopped (ValidationErrors errors), w)
  else
    (* Rate limiting check *)
    let now := env.(Date_now) 0%nat in
    let last := w.(rateLimitTracker).(lastProjectTime) in
    if now - last <? APP_CONFIG.RATE_LIMITING.PROJECT_COOLDOWN
    then (Stopped (PleaseWait (APP_CONFIG.RATE_LIMITING.PROJECT_COOLDOWN - (now - last))), w)
    else
      try_catch
        (self <- this ;;
         (* Handle nickname *)
         (if nickname_changed nickname self
          then setNickname nickname ;; ret ()
          else ret ()) ;;
         (* Collect enhanced user details *)
         let enhancedUserDetails :=
           [ ("email", str_or_null email);
             ("timestamp", JStr (env.(toISOString) 0%nat));
             ("userAgent", JStr env.(navigator_userAgent));
             ("language", JStr env.(navigator_language));
             ("screen", JObj [ ("width", JNum env.(screen_width));
                               ("height", JNum env.(screen_height)) ]) ] in
         (if negb (String.eqb email "")
          then saveUserDetails enhancedUserDetails
                 (env.(toISOString) 1%nat) (env.(toISOString) 2%nat)
          else ret ()) ;;
         (* Create project object *)
         self <- this ;;
         let id := env.(Date_now) 1%nat in
         let project :=
           JObj [ ("id", JNum id);
                  ("title", JStr title);
                  ("description", JStr description);
                  ("tags", JArr (map JStr tags));
                  ("link", str_or_null link);
                  ("author", JStr (text_or self.(UserSession.nickname) "Anonymous"));
                  ("authorStamp", JStr self.(UserSession.stamp));
                  ("timestamp", JStr (env.(toISOString) 3%nat));
                  ("type", JStr "user");
                  ("userDetails", JObj enhancedUserDetails) ] in
         (* Save user project *)
         stored <- storage_getItem "projects.userProjects" ;;
         userProjects <- Array_push (js_or stored (JArr [])) project ;;
         storage_setItem "projects.userProjects" (JArr userProjects) ;;
         (* Log project sharing activity *)
         logActivity "project_shared"
           (JObj [ ("projectId", JNum id);
                   ("title", JStr title);
                   ("hasEmail", JBool (negb (String.eqb email "")));
                   ("enhancedDetails", JObj enhancedUserDetails);
                   ("timestamp", JStr (env.(toISOString) 4%nat)) ])
           (env.(toISOString) 5%nat) ;;
         (* Update rate limit tracker *)
         t <- get_tracker ;;
         set_tracker {| lastCommentTime := t.(lastCommentTime);
                        lastRatingTime := t.(lastRatingTime);
                        lastProjectTime := now |} ;;
         (* Reload projects *)
         loadProjects expandedProjects_has ;;
         ret ())
        w.

End project_submission.
End flows.

(** The outcome of a [try] block that has recorded its time and ends with
    the refresh of the cards. *)
Definition after_refresh `{JSONCodec} (has : option json → bool) (w : World)
  : Outcome :=
  match (loadProjects has w).1 with
  | Ok _ => Completed
  | Throw e => Caught e
  end.

(* ===================================================================== *)
(** * Seeding of the example projects                                      *)
(* ===================================================================== *)

(** The entries of the constant [projects].  Its fields [rating],
    [comments] and [forks] are not read by the seeding and are left out. *)
Record ExampleProject := {
  ex_id : Z;
  ex_title : string;
  ex_description : string;
  ex_host : string;
  ex_url : string;
  ex_category : string;
}.

Definition projects : list ExampleProject :=
  [ {| ex_id := 1;
       ex_title := "AI-Powered Code Generator";
       ex_description := "Revolutionary tool that generates production-ready code from natural language descriptions.";
       ex_host := "GitHub";
       ex_url := "https://github.com/shekhrd/ai-code-gen";
       ex_category := "AI/ML" |};
    {| ex_id := 2;
       ex_title := "Quantum Visualization Engine";
       ex_description := "Interactive 3D visualization of quantum mechanics concepts for education and research.";
       ex_host := "InfinityFree";
       ex_url := "https://quantum-viz.infinityfree.net";
       ex_category := "Visualization" |};
    {| ex_id := 3;
       ex_title := "Blockchain Social Network";
       ex_description := "Decentralized social platform built on blockchain technology with privacy-first approach.";
       ex_host := "IndieCloud";
       ex_url := "https://social.indiecloud.co/shekhrd";
       ex_category := "Blockchain" |};
    {| ex_id := 4;
       ex_title := "Neural Network Playground";
       ex_description := "Interactive environment for experimenting with neural network architectures in real-time.";
       ex_host := "GitHub";
       ex_url := "https://github.com/shekhrd/neural-playground";
       ex_category := "AI/ML" |} ].

(** [v.length === 0]: arrays and strings have a length, an object has one
    only as a stored field, the other values answer [undefined]. *)
Definition length_is_zero (v : json) : bool :=
  match v with
  | JArr l => (length l =? 0)%nat
  | JStr s => (String.length s =? 0)%nat
  | JObj fs => match assoc "length" fs with
               | Some (JNum n) => n =? 0
               | _ => false
               end
  | _ => false
  end.

Section seeding.
Context `{JSONCodec}.

(** The storage format of the example projects; the [i]-th project takes
    the [i]-th reading of the clock. *)
Definition exampleProjects (env : Env) : list json :=
  imap (λ i project,
          JObj [ ("id", JNum project.(ex_id));
                 ("title", JStr project.(ex_title));
                 ("description", JStr project.(ex_description));
                 ("host", JStr project.(ex_host));
                 ("url", JStr project.(ex_url));
                 ("category", JStr project.(ex_category));
                 ("timestamp", JStr (env.(toISOString) i));
                 ("author", JStr "System");
                 ("stamp", JStr "SYSTEM") ])
       projects.

Definition populate_log_entry (env : Env) : json :=
  JObj [ ("action", JStr "system_populate_examples");
         ("timestamp", JStr (env.(toISOString) (length projects)));
         ("details", JStr ("Populated " +:+ pretty (length (exampleProjects env))
                           +:+ " example projects to storage")) ].

(** [populateExampleProjects()] *)
Definition populateExampleProjects (env : Env) : World → Outcome * World :=
  try_catch
    ((* Check if example projects are already in storage *)
     stored <- storage_getItem "projects.allProjects" ;;
     let existingProjects := js_or stored (JArr []) in
     if length_is_zero existingProjects
     then
       (* Save to storage *)
       storage_setItem "projects.allProjects" (JArr (exampleProjects env)) ;;
       (* Log the activity *)
       storage_setItem "logs._activity_logs" (JArr [populate_log_entry env]) ;;
       ret ()
     else ret ()).

End seeding.

(* ===================================================================== *)
(** * rating-functions.js: getAverageRating                                *)
(* ===================================================================== *)

(** JavaScript numbers are IEEE-754 binary64.  The ratings are integers;
    sums of integers are exact below 2^53 and are computed in [Z].  The
    quotient is the one place where rounding happens, so it is written out:
    a finite double is a sign, a mantissa and an exponent. *)
Module Number.

Record t := {
  neg : bool;
  mant : Z;
  expo : Z;     (* the number is (-1)^neg * mant * 2^expo *)
}.

(** The integer nearest to [N / D], ties to the even one. *)
Definition round_div (N D : Z) : Z :=
  let q := N / D in
  let r := N mod D in
  if 2 * r <? D then q
  else if D <? 2 * r then q + 1
  else if Z.even q then q else q + 1.

Definition scale_num (a e : Z) : Z := if e <? 0 then a * 2 ^ (- e) else a.
Definition scale_den (b e : Z) : Z := if e <? 0 then b else b * 2 ^ e.

(** [a / b] for integers [a > 0] and [b > 0]: the exponent is the one that
    brings the quotient into [2^52, 2^53), the mantissa is the quotient
    rounded to nearest, ties to even (normal range). *)
Definition div_pos (a b : Z) : Z * Z :=
  let e0 := Z.log2 a - Z.log2 b - 53 in
  let e := if 2 ^ 53 <=? scale_num a e0 / scale_den b e0 then e0 + 1 else e0 in
  (round_div (scale_num a e) (scale_den b e), e).

(** [a / b] for an integer [a] and an integer [b > 0]. *)
Definition div (a b : Z) : t :=
  if a =? 0 then {| neg := false; mant := 0; expo := 0 |}
  else let '(m, e) := div_pos (Z.abs a) b in
       {| neg := a <? 0; mant := m; expo := e |}.

(** [x.toFixed(1)] for |x| below 10^21: with [n] the integer for which
    [n / 10 - |x|] is closest to zero (the larger one on a tie), the sign,
    the digits of [n] and a point before the last digit. *)
Definition toFixed1_digits (x : t) : Z :=
  if x.(expo) <? 0
  then (20 * x.(mant) + 2 ^ (- x.(expo))) / 2 ^ (1 - x.(expo))
  else 10 * x.(mant) * 2 ^ x.(expo).

Definition toFixed1 (x : t) : string :=
  let n := toFixed1_digits x in
  (if x.(neg) then "-" else "") +:+ pretty (n / 10) +:+ "." +:+ pretty (n mod 10).

End Number.

(** [ratings.reduce((a, b) => a + b, 0)] *)
Definition sum_ratings (ratings : list Z) : Z := fold_left Z.add ratings 0.

(** [getAverageRating(ratings)]; [None] is a missing ([null] or
    [undefined]) argument. *)
Definition getAverageRating (ratings : option (list Z)) : string :=
  match ratings with
  | None => "N/A"
  | Some l =>
      if (length l =? 0)%nat then "N/A"
      else
        let avgRating := Number.div (sum_ratings l) (Z.of_nat (length l)) in
        Number.toFixed1 avgRating
  end.

(* ===================================================================== *)
(** * The user stamp                                                       *)
(* ===================================================================== *)

(** Conversion to a signed 32-bit integer, as done by the bit operators. *)
Definition toInt32 (z : Z) : Z := (z + 2 ^ 31) mod 2 ^ 32 - 2 ^ 31.

Definition charCodeAt (c : ascii) : Z := Z.of_nat (nat_of_ascii c).

(** The loop of [simpleHash]:
    [hash = ((hash << 5) - hash) + char; hash = hash & hash]. *)
Fixpoint simpleHash_loop (str : string) (hash : Z) : Z :=
  match str with
  | EmptyString => hash
  | String c r =>
      let char := charCodeAt c in
      let hash := (toInt32 (hash * 2 ^ 5) - hash) + char in
      simpleHash_loop r (toInt32 hash)
  end.

Definition simpleHash (str : string) : Z := Z.abs (simpleHash_loop str 0).

Definition digit36 (d : Z) : ascii :=
  if d <? 10 then ascii_of_nat (Z.to_nat (48 + d))    (* 0-9 *)
  else ascii_of_nat (Z.to_nat (87 + d)).               (* a-z *)

Fixpoint toString36_go (fuel : nat) (n : Z) (acc : string) : string :=
  match fuel with
  | O => acc
  | S f =>
      let acc' := String (digit36 (n mod 36)) acc in
      if n <? 36 then acc' else toString36_go f (n / 36) acc'
  end.

(** [n.toString(36)] for an integer [n >= 0]. *)
Definition toString36 (n : Z) : string :=
  toString36_go (S (Z.to_nat (Z.log2 n))) n EmptyString.

(** [toUpperCase] on the characters of a base-36 numeral. *)
Definition upper (c : ascii) : ascii :=
  let n := nat_of_ascii c in
  if ((97 <=? n) && (n <=? 122))%nat then ascii_of_nat (n - 32) else c.

Fixpoint toUpperCase (s : string) : string :=
  match s with
  | EmptyString => EmptyString
  | String c r => String (upper c) (toUpperCase r)
  end.

(** The stamp computed from the fingerprint:
    [hash.toString(36).substring(0, 6).toUpperCase()]. *)
Definition fingerprintStamp (env : Env) : string :=
  let browserData := env.(navigator_userAgent) +:+ env.(navigator_language)
                     +:+ pretty env.(screen_width) +:+ pretty env.(screen_height) in
  let hash := simpleHash browserData in
  toUpperCase (String.substring 0 6 (toString36 hash)).

(** [generateUserStamp()]: the stored stamp if there is one ([null] and the
    empty string are falsy), else the stamp of the fingerprint, which is
    then stored. *)
Definition generateUserStamp (env : Env) (ls : LocalStorage) : string * LocalStorage :=
  let fresh := (fingerprintStamp env, <["userStamp" := fingerprintStamp env]> ls) in
  match ls !! "userStamp" with
  | Some existing => if String.eqb existing "" then fresh else (existing, ls)
  | None => fresh
  end.

(* ===================================================================== *)
(** * utils/date-formater.js: groupCommentsByDateAndUser                   *)
(* ===================================================================== *)

Module Comment.
Record t := {
  author : string;
  stamp : string;
  text : string;
  timestamp : string;
}.
End Comment.

Module Group.
Record t := {
  date : string;
  author : string;
  stamp : string;
  comments : list Comment.t;
}.
End Group.

(** What the grouping takes from the viewer's browser:
    - [formatDate ts] is [formatDate(ts)] with the default format: the
      en-US short date of the time stamp in the viewer's time zone, or the
      text "Invalid Date";
    - [Date_parse text] is the time value of [new Date(text)], [None] for
      an invalid date (NaN);
    - [localeCompare a b] is [a.localeCompare(b)], a total preorder on
      strings given by the sign of its result. *)
Class Locale := {
  formatDate : string → string;
  Date_parse : string → option Z;
  localeCompare : string → string → Z;
  localeCompare_total : ∀ a b, localeCompare a b ≤ 0 ∨ localeCompare b a ≤ 0;
  localeCompare_trans : ∀ a b c,
    localeCompare a b ≤ 0 → localeCompare b c ≤ 0 → localeCompare a c ≤ 0;
}.

(** The object [groups]: its own string keys in insertion order. *)
Fixpoint groups_has (key : string) (groups : list (string * Group.t)) : bool :=
  match groups with
  | [] => false
  | (k, _) :: r => String.eqb k key || groups_has key r
  end.

(** [groups[key].comments.push(comment)] *)
Fixpoint groups_push (key : string) (comment : Comment.t)
    (groups : list (string * Group.t)) : list (string * Group.t) :=
  match groups with
  | [] => []
  | (k, g) :: r =>
      if String.eqb k key
      then (k, {| Group.date := g.(Group.date);
                  Group.author := g.(Group.author);
                  Group.stamp := g.(Group.stamp);
                  Group.comments := g.(Group.comments) ++ [comment] |}) :: r
      else (k, g) :: groups_push key comment r
  end.

Section grouping.
Context `{Locale}.

Definition groupKey (comment : Comment.t) : string :=
  formatDate comment.(Comment.timestamp) +:+ "-" +:+ comment.(Comment.author)
  +:+ "-" +:+ comment.(Comment.stamp).

(** The body of the [forEach]. *)
Definition groupStep (groups : list (string * Group.t)) (comment : Comment.t)
  : list (string * Group.t) :=
  let date := formatDate comment.(Comment.timestamp) in
  let key := groupKey comment in
  let groups :=
    if negb (groups_has key groups)
    then groups ++ [(key, {| Group.date := date;
                             Group.author := comment.(Comment.author);
                             Group.stamp := comment.(Comment.stamp);
                             Group.comments := [] |})]
    else groups in
  groups_push key comment groups.

(** The comparison function of the final [sort].  A difference of dates
    that is NaN is returned as it is ([NaN !== 0]), and [sort] reads a NaN
    result as [+0]. *)
Definition compareGroups (a b : Group.t) : Z :=
  match Date_parse b.(Group.date), Date_parse a.(Group.date) with
  | Some tb, Some ta =>
      let dateCompare := tb - ta in
      if negb (dateCompare =? 0) then dateCompare
      else localeCompare a.(Group.author) b.(Group.author)
  | _, _ => 0
  end.

Definition groupCommentsByDateAndUser (comments : list Comment.t) : list Group.t :=
  let groups := fold_left groupStep comments [] in
  Array_sort compareGroups (map snd groups).      (* Object.values(groups).sort(...) *)

End grouping.

(* ===================================================================== *)
(** * Vocabulary of the statements                                         *)
(* ===================================================================== *)

(** The store object that [new FileStorage()] builds over an available
    [localStorage]. *)
Definition fileStorage : FileStorage :=
  {| prefix := "breakthroughIdeas_"; enabled := true |}.

(** The last [n] elements of a list. *)
Definition lastn {A} (n : nat) (l : list A) : list A := drop (length l - n) l.

(** The truncation of [logActivity]. *)
Definition keep_last_1000 (logs : list json) : list json :=
  if (1000 <? length logs)%nat then drop (length logs - 1000) logs else logs.

(** The store seen through the session's [FileStorage]. *)
Definition stored `{JSONCodec} (w : World) (key : string) : json :=
  getItem (UserSession.storage (userSession w)) (localStorage w) key.

(** The world with one of its three parts replaced. *)
Definition with_localStorage (w : World) (ls : LocalStorage) : World :=
  {| localStorage := ls;
     userSession := userSession w;
     rateLimitTracker := rateLimitTracker w |}.

(** The world after [storage.setItem(key, value)]. *)
Definition after_setItem `{JSONCodec} (w : World) (key : string) (value : json) : World :=
  with_localStorage w
    (setItem (UserSession.storage (userSession w)) (localStorage w) key value).2.

(** The entry that [logActivity] appends. *)
Definition logEntry (self : UserSession.t) (action : string) (data : json)
    (iso : string) : json :=
  JObj [ ("timestamp", JStr iso);
         ("userStamp", JStr (UserSession.stamp self));
         ("nickname", opt_str (UserSession.nickname self));
         ("action", JStr action);
         ("data", data);
         ("sessionData", UserSession.sessionData self) ].

(** One call of [logActivity], with its arguments and its clock reading. *)
Record LogCall := {
  call_action : string;
  call_data : json;
  call_iso : string;
}.

(** A sequence of [logActivity] calls, each awaited before the next. *)
Fixpoint logActivity_all `{JSONCodec} (calls : list LogCall) : js unit :=
  match calls with
  | [] => ret ()
  | c :: r => logActivity c.(call_action) c.(call_data) c.(call_iso) ;; logActivity_all r
  end.

Definition with_nickname (w : World) (n : option string) : World :=
  {| localStorage := localStorage w;
     userSession :=
       {| UserSession.storage := UserSession.storage (userSession w);
          UserSession.stamp := UserSession.stamp (userSession w);
          UserSession.nickname := n;
          UserSession.userDetails := UserSession.userDetails (userSession w);
          UserSession.sessionData := UserSession.sessionData (userSession w) |};
     rateLimitTracker := rateLimitTracker w |}.

Definition with_userDetails (w : World) (d : list (string * json)) : World :=
  {| localStorage := localStorage w;
     userSession :=
       {| UserSession.storage := UserSession.storage (userSession w);
          UserSession.stamp := UserSession.stamp (userSession w);
          UserSession.nickname := UserSession.nickname (userSession w);
          UserSession.userDetails := d;
          UserSession.sessionData := UserSession.sessionData (userSession w) |};
     rateLimitTracker := rateLimitTracker w |}.

Definition with_tracker (w : World) (t : RateLimitTracker) : World :=
  {| localStorage := localStorage w;
     userSession := userSession w;
     rateLimitTracker := t |}.

(** The world after [localStorage.setItem(key, value)]. *)
Definition after_raw_setItem (w : World) (key value : string) : World :=
  with_localStorage w (<[key := value]> (localStorage w)).

(** The test of [ensureUniqueNickname]: the record holds the nickname and
    belongs to another stamp. *)
Definition held_by_other (baseNick ownStamp : string) (u : json) : bool :=
  strict_eq_str (prop "nickname" u) baseNick
  && negb (strict_eq_str (prop "stamp" u) ownStamp).

(** The nickname that [ensureUniqueNickname] answers on the list [users]. *)
Definition uniqueNickname (users : list json) (ownStamp nickname : string) : string :=
  if existsb (held_by_other (trim nickname) ownStamp) users
  then trim nickname +:+ "#" +:+ ownStamp
  else trim nickname.

(** The list that [ensureUniqueNickname] consults: the raw key [allUsers]. *)
Definition raw_allUsers `{JSONCodec} (w : World) : option json :=
  JSON_parse (text_or (localStorage w !! "allUsers") "[]").

(** A list of users without a [null] element. *)
Definition no_null (l : list json) : Prop := Forall (λ u, u ≠ JNull) l.

(** The record that [saveUserDetails] writes for the session. *)
Definition userData (self : UserSession.t) (details : list (string * json))
    (lastActive : string) : json :=
  JObj [ ("stamp", JStr (UserSession.stamp self));
         ("nickname", opt_str (UserSession.nickname self));
         ("details", JObj details);
         ("lastActive", JStr lastActive) ].

(** The test of [findIndex] in [saveUserDetails]. *)
Definition has_stamp (ownStamp : string) (u : json) : bool :=
  strict_eq_str (prop "stamp" u) ownStamp.

(** Index of the first element that satisfies [p]. *)
Fixpoint index_where {A} (p : A → bool) (l : list A) (i : nat) : option nat :=
  match l with
  | [] => None
  | x :: r => if p x then Some i else index_where p r (S i)
  end.

(** Insert-or-replace of [saveUserDetails]. *)
Definition upsert (ownStamp : string) (record : json) (users : list json) : list json :=
  match index_where (has_stamp ownStamp) users 0%nat with
  | Some i => <[i := record]> users
  | None => users ++ [record]
  end.

(** Computations that only read the state. *)
Definition readonly {A} (m : js A) : Prop := ∀ w, (m w).2 = w.

(** A session that stands on a [FileStorage] built by the constructor over
    an available store. *)
Definition standard_storage (w : World) : Prop :=
  UserSession.storage (userSession w) = fileStorage.

(** The comment that [addComment] stores. *)
Definition commentRecord (author stamp text timestamp : string) : json :=
  JObj [ ("author", JStr author);
         ("stamp", JStr stamp);
         ("text", JStr text);
         ("timestamp", JStr timestamp) ].

(** The five characters that are not to be stored as they are:
    less-than, greater-than, double quote, apostrophe and ampersand. *)
Definition unsafe_chars : list ascii :=
  ["<"%char; ">"%char; ascii_of_nat 34; "'"%char; "&"%char].

(** The five HTML entities. *)
Definition entities : list string := ["&lt;"; "&gt;"; "&quot;"; "&#39;"; "&amp;"].

(** Texts made of characters other than the five and of entities: an
    ampersand occurs only as the first character of an entity. *)
Inductive escaped : string → Prop :=
| escaped_nil : escaped ""
| escaped_char c s : c ∉ unsafe_chars → escaped s → escaped (String c s)
| escaped_entity e s : e ∈ entities → escaped s → escaped (e +:+ s).

(** The replacement as the specification words it, character by
    character: each of the five characters gives its HTML entity, every
    other character stays. *)
Definition html_entity_spec (c : ascii) : string :=
  if decide (c = "<"%char) then "&lt;"
  else if decide (c = ">"%char) then "&gt;"
  else if decide (c = ascii_of_nat 34) then "&quot;"
  else if decide (c = "'"%char) then "&#39;"
  else if decide (c = "&"%char) then "&amp;"
  else String c "".

Definition escape_html_spec (s : string) : string :=
  foldr (λ c acc, html_entity_spec c +:+ acc) "" (chars s).

(** Less-than, greater-than, double quote and apostrophe. *)
Definition is_markup (c : ascii) : bool :=
  Ascii.eqb c "<"%char || Ascii.eqb c ">"%char
  || Ascii.eqb c (ascii_of_nat 34) || Ascii.eqb c "'"%char.

(** A session of the given stamp on a [FileStorage] over an available
    store, before a nickname is chosen. *)
Definition newSession (stamp : string) : UserSession.t :=
  {| UserSession.storage := fileStorage;
     UserSession.stamp := stamp;
     UserSession.nickname := None;
     UserSession.userDetails := [];
     UserSession.sessionData := JObj [] |}.

(** The world of a page that was just loaded on the store [ls]. *)
Definition newWorld (ls : LocalStorage) (stamp : string) : World :=
  {| localStorage := ls;
     userSession := newSession stamp;
     rateLimitTracker := initial_tracker |}.

(** A stored collection that the flows can extend: the key holds a list,
    or nothing (a falsy value), so that [getItem(key) || []] is a list. *)
Definition holds_list `{JSONCodec} (w : World) (key : string) : Prop :=
  ∃ l, js_or (stored w key) (JArr []) = JArr l.

(** The raw key [allUsers], read when a nickname is set, parses to a list
    without [null]; an absent key reads as the empty list. *)
Definition raw_users_ok `{JSONCodec} (w : World) : Prop :=
  ∃ l, raw_allUsers w = Some (JArr l) ∧ no_null l.

(** What the storage steps of each flow need in order not to throw: the
    collections that the flow reads hold lists.  Each flow reads its own
    collection and the activity log; the comment and project flows may set
    the nickname, and the project flow may save the user details. *)
Definition comment_store_ok `{JSONCodec} (w : World) (projectId : Z) : Prop :=
  raw_users_ok w
  ∧ holds_list w ("comments." +:+ pretty projectId)
  ∧ holds_list w "logs._activity_logs".

Definition rating_store_ok `{JSONCodec} (w : World) (projectId : Z) : Prop :=
  holds_list w ("ratings." +:+ pretty projectId)
  ∧ holds_list w "logs._activity_logs".

Definition project_store_ok `{JSONCodec} (w : World) : Prop :=
  raw_users_ok w
  ∧ (∃ l, js_or (stored w "users.allUsers") (JArr []) = JArr l ∧ no_null l)
  ∧ holds_list w "projects.userProjects"
  ∧ holds_list w "logs._activity_logs".

(** A comment text that passes the validation of [addComment]. *)
Definition valid_comment (textarea_value : string) : Prop :=
  sanitizeInput (trim textarea_value) ≠ ""
  ∧ Z.of_nat (String.length (sanitizeInput (trim textarea_value)))
    ≤ APP_CONFIG.VALIDATION.MAX_COMMENT_LENGTH.

(** A project form that passes [validateProjectData]. *)
Definition valid_form (isValidUrl : string → bool) (form : ProjectForm) : Prop :=
  validateProjectData isValidUrl (trim form.(form_title)) (trim form.(form_description))
    ["user-submitted"] (trim form.(form_link)) = [].

(** The surroundings of a call that starts at epoch millisecond [t] in a
    common desktop browser: the [k]-th reading of the clock is [t + k]. *)
Definition env_at (t : Z) : Env :=
  {| Date_now := λ k, t + Z.of_nat k;
     toISOString := λ k, "2024-01-05T10:00:00.00" +:+ pretty k +:+ "Z";
     navigator_userAgent := "Mozilla/5.0 (X11; Linux x86_64) AppleWebKit/537.36 (KHTML, like Gecko) Chrome/120.0.0.0 Safari/537.36";
     navigator_language := "en-US";
     screen_width := 1920;
     screen_height := 1080 |}.

Definition chrome_env : Env := env_at 10000.

(** A project form that passes the validation. *)
Definition sample_form : ProjectForm :=
  {| form_title := "Tiny ray tracer";
     form_description := "A ray tracer in one hundred lines";
     form_link := "";
     form_email := "ann@example.org";
     form_nickname := "Ann" |}.

(** A tracker whose three last-action times are 500 ms before the first
    clock reading of [chrome_env]. *)
Definition just_acted : RateLimitTracker :=
  {| lastCommentTime := 9500; lastRatingTime := 9500; lastProjectTime := 9500 |}.

(** [n] calls of [logActivity], numbered by their data. *)
Definition sample_calls (n : nat) : list LogCall :=
  map (λ i, {| call_action := "card_expanded";
               call_data := JNum (Z.of_nat i);
               call_iso := pretty i |}) (seq 0 n).

(** One of the 36 characters 0-9, A-Z. *)
Definition is_upper36 (c : ascii) : bool :=
  let n := nat_of_ascii c in
  ((48 <=? n) && (n <=? 57) || (65 <=? n) && (n <=? 90))%nat.

(** The quotient computed by the machine's binary64 division, for
    comparison with [Number.div]. *)
Definition binary64_div (a b : Z) : SpecFloat.spec_float :=
  FloatOps.Prim2SF
    (PrimFloat.div (PrimFloat.of_uint63 (Uint63.of_Z a))
                   (PrimFloat.of_uint63 (Uint63.of_Z b))).

(** The binary64 number [f] and the number [x] are the same number. *)
Definition same_number (f : SpecFloat.spec_float) (x : Number.t) : bool :=
  match f with
  | SpecFloat.S754_zero s => Number.mant x =? 0
  | SpecFloat.S754_finite s m e =>
      Bool.eqb s (Number.neg x)
      && (if e <=? Number.expo x
          then Z.pos m =? Number.mant x * 2 ^ (Number.expo x - e)
          else Z.pos m * 2 ^ (e - Number.expo x) =? Number.mant x)
  | _ => false
  end.

(** The relation that the comparison function [cmp] of a [sort] induces:
    [x] may stay before [y]. *)
Definition before {A} (cmp : A → A → Z) (x y : A) : Prop := cmp x y ≤ 0.

(** Texts without the separator of the group key. *)
Definition no_hyphen (s : string) : Prop := Forall (λ c, c ≠ "-"%char) (chars s).

Section grouping_vocabulary.
Context `{Locale}.

(** The triple a comment is grouped by, and the triple a group carries. *)
Definition commentTriple (c : Comment.t) : string * string * string :=
  (formatDate c.(Comment.timestamp), c.(Comment.author), c.(Comment.stamp)).

Definition groupTriple (g : Group.t) : string * string * string :=
  (g.(Group.date), g.(Group.author), g.(Group.stamp)).

Definition tripleKey (t : string * string * string) : string :=
  t.1.1 +:+ "-" +:+ t.1.2 +:+ "-" +:+ t.2.

Definition push_comment (c : Comment.t) (g : Group.t) : Group.t :=
  {| Group.date := g.(Group.date);
     Group.author := g.(Group.author);
     Group.stamp := g.(Group.stamp);
     Group.comments := g.(Group.comments) ++ [c] |}.

(** What holds of an entry of [groups] after the comments [pre] were
    processed. *)
Definition group_ok (pre : list Comment.t) (kg : string * Group.t) : Prop :=
  kg.2.(Group.comments) = filter (λ c, groupKey c = kg.1) pre
  ∧ ∃ c0, c0 ∈ pre ∧ groupKey c0 = kg.1 ∧ groupTriple kg.2 = commentTriple c0.

Definition groups_inv (pre : list Comment.t) (gs : list (string * Group.t)) : Prop :=
  NoDup (map fst gs)
  ∧ Forall (group_ok pre) gs
  ∧ ∀ c, c ∈ pre → groupKey c ∈ map fst gs.

(** The order of the final [sort]: a later date first, and on the same
    date the author that [localeCompare] puts first. *)
Definition group_order (a b : Group.t) : Prop :=
  match Date_parse a.(Group.date), Date_parse b.(Group.date) with
  | Some ta, Some tb =>
      tb < ta ∨ (ta = tb ∧ localeCompare a.(Group.author) b.(Group.author) ≤ 0)
  | _, _ => False
  end.

Definition dated (g : Group.t) : Prop := is_Some (Date_parse g.(Group.date)).

End grouping_vocabulary.

(** A locale for the examples.  The theorem on grouping holds for every
    locale; the examples run on this one: the date of a time stamp is
    written as the eight digits of its calendar day (20240105 for a stamp
    that starts 2024-01-05), a date text is read back as that number, and
    authors are compared by code units. *)
Module SampleLocale.

Definition is_digit (c : ascii) : bool :=
  let n := nat_of_ascii c in ((48 <=? n) && (n <=? 57))%nat.

Fixpoint digits_only (s : string) : string :=
  match s with
  | EmptyString => EmptyString
  | String c r => if is_digit c then String c (digits_only r) else digits_only r
  end.

Definition formatDate (timestamp : string) : string :=
  digits_only (String.substring 0 10 timestamp).

Fixpoint digits_value (s : string) (acc : Z) : option Z :=
  match s with
  | EmptyString => Some acc
  | String c r =>
      if is_digit c
      then digits_value r (10 * acc + (Z.of_nat (nat_of_ascii c) - 48))
      else None
  end.

Definition Date_parse (text : string) : option Z :=
  match text with
  | EmptyString => None
  | _ => digits_value text 0
  end.

Definition localeCompare (a b : string) : Z :=
  if String.eqb a b then 0 else if String.leb a b then -1 else 1.

End SampleLocale.

Definition sample_comments : list Comment.t :=
  [ {| Comment.author := "Bob"; Comment.stamp := "1K2M3N";
       Comment.text := "first"; Comment.timestamp := "2024-01-05T09:00:00.000Z" |};
    {| Comment.author := "Ann"; Comment.stamp := "727CF";
       Comment.text := "second"; Comment.timestamp := "2024-01-05T10:00:00.000Z" |};
    {| Comment.author := "Bob"; Comment.stamp := "1K2M3N";
       Comment.text := "third"; Comment.timestamp := "2024-01-05T11:00:00.000Z" |};
    {| Comment.author := "Ann"; Comment.stamp := "727CF";
       Comment.text := "fourth"; Comment.timestamp := "2024-01-06T08:00:00.000Z" |} ].

(* ===================================================================== *)
(** * storage.js: the maintenance operations                               *)
(* ===================================================================== *)

(** [s.startsWith(p)] *)
Fixpoint startsWith (p s : string) : bool :=
  match p, s with
  | EmptyString, _ => true
  | String a p', String b s' => Ascii.eqb a b && startsWith p' s'
  | String _ _, EmptyString => false
  end.

(** [s.substring(n)] *)
Definition substring_from (n : nat) (s : string) : string :=
  String.substring n (String.length s - n) s.

(** [Object.keys(localStorage)].  The order of the keys of a [Storage]
    object is left to the user agent; the model lists them in the order of
    the map, and no statement below depends on it. *)
Definition Object_keys (ls : LocalStorage) : list string := (map_to_list ls).*1.

(** [clear()]: the keys are listed first, then removed one by one. *)
Definition clear (fs : FileStorage) (ls : LocalStorage) : LocalStorage :=
  if negb (enabled fs) then ls
  else
    let keys := Object_keys ls in
    foldl (λ ls key, if startsWith (prefix fs) key then delete key ls else ls)
          ls keys.

(** [getAllKeys()] *)
Definition getAllKeys (fs : FileStorage) (ls : LocalStorage) : list string :=
  if negb (enabled fs) then []
  else
    map (λ key, substring_from (String.length (prefix fs)) key)
        (filter (λ key, startsWith (prefix fs) key = true) (Object_keys ls)).

(** The size limit of the browser store.  [localStorage.setItem] throws a
    [QuotaExceededError] when the keys and values of the store, the new
    entry included, would take more than [quota] code units; nothing is
    written then.  The flows above are modelled without this limit;
    [getRemainingSpace] is the function that measures it, and
    [setItem_within] is [setItem] under it. *)
Definition storage_size (ls : LocalStorage) : nat :=
  map_fold (λ k v acc, String.length k + String.length v + acc)%nat 0%nat ls.

Definition quota_setItem (quota : nat) (ls : LocalStorage) (key value : string)
  : option LocalStorage :=
  let ls' := <[key := value]> ls in
  if (storage_size ls' <=? quota)%nat then Some ls' else None.

(** [setItem] of [storage.js] on a store with this limit: the exception
    of [localStorage.setItem] is caught and the answer is [false]. *)
Definition setItem_within `{JSONCodec} (quota : nat) (fs : FileStorage)
    (ls : LocalStorage) (key : string) (value : json) : bool * LocalStorage :=
  if negb (enabled fs) then (false, ls)
  else
    match quota_setItem quota ls (prefix fs +:+ key) (JSON_stringify value) with
    | Some ls' => (true, ls')
    | None => (false, ls)
    end.

(** The room left for the value of the test entry: the quota less the
    size of the other entries and of the test key. *)
Definition free_space (quota : nat) (testKey : string) (ls : LocalStorage) : Z :=
  Z.of_nat quota - Z.of_nat (storage_size (delete testKey ls))
  - Z.of_nat (String.length testKey).

(** ['a'.repeat(n)] *)
Definition repeat_a (n : Z) : string :=
  Nat.iter (Z.to_nat n) (String "a"%char) EmptyString.

(** The [while (low <= high)] loop of [getRemainingSpace].  [fuel] bounds
    the number of iterations; the interval halves at every iteration. *)
Fixpoint getRemainingSpace_loop (quota : nat) (testKey : string) (fuel : nat)
    (low high remaining : Z) (ls : LocalStorage) : Z * LocalStorage :=
  match fuel with
  | O => (remaining, ls)
  | S fuel' =>
      if low <=? high then
        let mid := (low + high) / 2 in
        match quota_setItem quota ls testKey (repeat_a mid) with
        | Some ls1 =>
            getRemainingSpace_loop quota testKey fuel' (mid + 1) high mid
              (delete testKey ls1)
        | None =>
            getRemainingSpace_loop quota testKey fuel' low (mid - 1) remaining ls
        end
      else (remaining, ls)
  end.

(** [getRemainingSpace()]: a binary search between 0 and 10000000. *)
Definition getRemainingSpace (quota : nat) (fs : FileStorage) (ls : LocalStorage)
  : Z * LocalStorage :=
  if negb (enabled fs) then (0, ls)
  else
    let testKey := prefix fs +:+ "__test__" in
    getRemainingSpace_loop quota testKey 24 0 10000000 0 ls.




(* ===================================================================== *)
(** * The user-session module: construction of the session                 *)
(* ===================================================================== *)

(** [!!s] for the result of [localStorage.getItem] or a nickname. *)
Definition truthy_text (s : option string) : bool :=
  match s with
  | Some t => negb (String.eqb t "")
  | None => false
  end.

(** [s || null] *)
Definition text_or_null (s : option string) : option string :=
  if truthy_text s then s else None.

Section session_construction.
Context `{JSONCodec}.

(** [checkReturningUser()].  The welcome-back prompt is shown from a timer
    two seconds later and is not part of this call; what the call itself
    does to the state is to record the visit.  The reading of the clock
    for the record is the second one in the text of the function. *)
Definition checkReturningUser (env : Env) : js unit :=
  localStorage_setItem "lastVisit" (pretty (env.(Date_now) 1%nat)).

(** [initializeSession()]; the updates of the page are not modelled.  The
    arguments of [logActivity] are evaluated after [checkReturningUser]
    has returned. *)
Definition initializeSession (env : Env) : js unit :=
  (* Check for returning user *)
  checkReturningUser env ;;
  (* Log session initialization *)
  lastVisit <- localStorage_getItem "lastVisit" ;;
  self <- this ;;
  logActivity "session_initialized"
    (JObj [ ("isReturningUser", JBool (truthy_text lastVisit));
            ("hasNickname", JBool (truthy_text (UserSession.nickname self))) ])
    (env.(toISOString) 0%nat).

(** [new UserSession()] on a browser whose [localStorage] is available,
    followed by the page's [rateLimitTracker] of [config.js].
    [sessionData] is the object that [collectSessionData()] builds from the
    browser.  The constructor throws when the raw key [userDetails] holds a
    text that does not parse; the call of [logActivity] at the end of
    [initializeSession] is not awaited, so that a failure of it is not an
    exception of the constructor. *)
Definition new_UserSession (env : Env) (sessionData : json) (ls : LocalStorage)
  : result World :=
  let '(fs, ls) := new_FileStorage true ls in
  let '(stamp, ls) := generateUserStamp env ls in
  let nickname := text_or_null (ls !! "userNickname") in
  match JSON_parse (text_or (ls !! "userDetails") "{}") with
  | None => Throw "SyntaxError"
  | Some userDetails =>
      let w := {| localStorage := ls;
                  userSession :=
                    {| UserSession.storage := fs;
                       UserSession.stamp := stamp;
                       UserSession.nickname := nickname;
                       UserSession.userDetails := own_props userDetails;
                       UserSession.sessionData := sessionData |};
                  rateLimitTracker := initial_tracker |} in
      Ok (initializeSession env w).2
  end.

End session_construction.

(** What a computation leaves alone: the entries of the browser store
    whose key does not start with the prefix of the session's store, and
    the session's store object, stamp, nickname and session data. *)
Definition keeps_raw_keys {A} (m : js A) : Prop :=
  ∀ w, let w' := (m w).2 in
    (∀ raw, startsWith (prefix (UserSession.storage (userSession w))) raw = false →
            localStorage w' !! raw = localStorage w !! raw)
    ∧ UserSession.storage (userSession w') = UserSession.storage (userSession w)
    ∧ UserSession.stamp (userSession w') = UserSession.stamp (userSession w)
    ∧ UserSession.nickname (userSession w') = UserSession.nickname (userSession w)
    ∧ UserSession.sessionData (userSession w') = UserSession.sessionData (userSession w).

(** The session object that a construction yields, if it yields one. *)
Definition constructed_session (r : result World) : option UserSession.t :=
  match r with
  | Ok w => Some (userSession w)
  | Throw _ => None
  end.
(** Texts in which none of the five characters less-than, greater-than,
    double quote, apostrophe and ampersand occurs. *)
Definition plain_text (s : string) : Prop :=
  Forall (λ c, c ∉ unsafe_chars) (chars s).

(** Texts made of white space only. *)
Definition blank (s : string) : Prop :=
  Forall (λ c, is_js_space c = true) (chars s).
(* ===================================================================== *)
(** * Project functions: initializeStorageFiles                            *)
(* ===================================================================== *)

(** The constant [storageStructure] of [initializeStorageFiles]. *)
Definition storageStructure : list (string * json) :=
  [ ("users", JObj [ ("nickname", JStr "");
                     ("userDetails", JNull);
                     ("userStamp", JNull);
                     ("lastVisit", JNull);
                     ("allUsers", JArr []) ]);
    ("projects", JObj [ ("userProjects", JArr []) ]);
    ("comments", JObj []);
    ("ratings", JObj []);
    ("logs", JObj [ ("_activity_logs", JArr []) ]);
    ("clicks", JObj []) ].

(** The key under which an entry of [storageStructure] is stored. *)
Definition fileKey (key : string) : string :=
  key +:+ "." +:+ (if String.eqb key "users" then "users"
                   else if String.eqb key "projects" then "userProjects"
                   else if String.eqb key "logs" then "_activity_logs"
                   else "").

Section project_functions.
Context `{JSONCodec}.

(** The body of the [for ... of] loop of [initializeStorageFiles]. *)
Fixpoint initialize_entries (entries : list (string * json)) : js unit :=
  match entries with
  | [] => ret ()
  | (key, data) :: rest =>
      existingData <- storage_getItem (fileKey key) ;;
      (if negb (truthy existingData)
       then storage_setItem (fileKey key) data ;; ret ()
       else ret ()) ;;
      initialize_entries rest
  end.

(** [initializeStorageFiles()] *)
Definition initializeStorageFiles : World → Outcome * World :=
  try_catch (initialize_entries storageStructure).

End project_functions.

(** The start of the page on the browser store [ls]: the global
    [userSession] is constructed, then the handler of [DOMContentLoaded] in
    main.js runs [initializeStorageFiles()], which works on that session.
    The [loadProjects()] that follows in the handler only reads the store.
    [None] when the constructor throws. *)
Definition page_start `{JSONCodec} (env : Env) (ls : LocalStorage) : option World :=
  match new_UserSession env (JObj []) ls with
  | Ok w => Some (initializeStorageFiles w).2
  | Throw _ => None
  end.

(* ===================================================================== *)
(** * main.js: the session log panel                                       *)
(* ===================================================================== *)

(** [loadSessionLog()], up to the rendering: the log entries in the order
    in which their rows are shown, [logs.slice(-50).reverse()].  A stored
    text has [slice] but its result has no [reverse]. *)
Definition loadSessionLog `{JSONCodec} : js (list json) :=
  stored <- storage_getItem "logs._activity_logs" ;;
  let logs := js_or stored (JArr []) in
  match logs with
  | JArr l => ret (reverse (drop (length l - 50) l))
  | JStr _ => throw "TypeError: reverse is not a function"
  | _ => throw "TypeError: slice is not a function"
  end.

(* ===================================================================== *)
(** * utils.js: trackClick                                                 *)
(* ===================================================================== *)

(** What [trackClick] reads from the click event. *)
Record ClickEvent := {
  target_id : string;
  target_className : string;
  target_textContent : option string;    (* [None] is [null] *)
  clientX : Z;
  clientY : Z;
}.

(** The object [clickData]; a property whose value is [undefined] is left
    out by [JSON.stringify]. *)
Definition clickData (event : ClickEvent) (elementType timestamp : string) : json :=
  JObj ([ ("elementType", JStr elementType);
          ("elementId", JStr event.(target_id));
          ("elementClass", JStr event.(target_className)) ]
        ++ match event.(target_textContent) with
           | Some text => [("elementText", JStr (String.substring 0 50 text))]
           | None => []
           end
        ++ [ ("timestamp", JStr timestamp);
             ("coordinates", JObj [ ("x", JNum event.(clientX));
                                    ("y", JNum event.(clientY)) ]) ]).

(** [trackClick(event, elementType)]; [timestamp] is
    [new Date().toISOString()]. *)
Definition trackClick `{JSONCodec} (event : ClickEvent) (elementType timestamp : string)
  : js unit :=
  (* Store click data *)
  raw <- localStorage_getItem "clickTracking" ;;
  clicks <- JSON_parse_js (text_or raw "[]") ;;
  clicks <- Array_push clicks (clickData event elementType timestamp) ;;
  (* Keep only last 100 clicks *)
  let clicks :=
    if (100 <? length clicks)%nat
    then drop (length clicks - 100) clicks   (* clicks.splice(0, clicks.length - 100) *)
    else clicks in
  localStorage_setItem "clickTracking" (JSON_stringify (JArr clicks)).

(** The click history that a store holds. *)
Definition click_history `{JSONCodec} (w : World) : option json :=
  JSON_parse (text_or (localStorage w !! "clickTracking") "[]").

(** What holds of a computation when it leaves a stored key as it reads,
    and the session's store object as it is. *)
Definition keeps_stored `{JSONCodec} (key : string) {A} (m : js A) : Prop :=
  ∀ w, stored (m w).2 key = stored w key
       ∧ UserSession.storage (userSession (m w).2) = UserSession.storage (userSession w).

(** The projects of a list whose identifier is, or is not, among the
    expanded ones. *)
Definition is_expanded (has : option json → bool) (p : IndexedProject) : bool :=
  has (assoc "id" p.(project_props)).

(** A stored project of the given identifier and title, and a page on
    which the cards of the projects 2 and 4 are expanded. *)
Definition card (id : Z) (title : string) : json :=
  JObj [("id", JNum id); ("title", JStr title)].

Definition expanded_2_4 (id : option json) : bool :=
  match id with
  | Some (JNum 2) | Some (JNum 4) => true
  | _ => false
  end.

(** The projects of the two collections, numbered in the order system
    projects first, then user projects. *)
Definition indexed (projects : list json) : list IndexedProject :=
  imap (λ index project,
          {| project_props := own_props project;
             originalIndex := Z.of_nat index |}) projects.
(* ===================================================================== *)
(** * Project functions: the comment groups of a project card              *)
(* ===================================================================== *)

(** [groupCommentsByDateAndUser] as the project card uses it.  The key of
    a group is made of the date and the author; the stamp is not part of
    it.  [toLocaleDateString ts] is
    [new Date(ts).toLocaleDateString('en-US')] in the viewer's time zone. *)
Module ProjectCard.
Section grouping.
Variable toLocaleDateString : string → string.

Definition groupKey (comment : Comment.t) : string :=
  toLocaleDateString comment.(Comment.timestamp) +:+ "_" +:+ comment.(Comment.author).

(** The body of the [forEach]. *)
Definition groupStep (grouped : list (string * Group.t)) (comment : Comment.t)
  : list (string * Group.t) :=
  let date := toLocaleDateString comment.(Comment.timestamp) in
  let key := groupKey comment in
  let grouped :=
    if negb (groups_has key grouped)
    then grouped ++ [(key, {| Group.author := comment.(Comment.author);
                              Group.stamp := comment.(Comment.stamp);
                              Group.date := date;
                              Group.comments := [] |})]
    else grouped in
  groups_push key comment grouped.

Definition groupCommentsByDateAndUser (comments : list Comment.t) : list Group.t :=
  map snd (fold_left groupStep comments []).      (* Object.values(grouped) *)

End grouping.
End ProjectCard.

(** Texts without the separator of the card's group key. *)
Definition no_underscore (s : string) : Prop := Forall (λ c, c ≠ "_"%char) (chars s).

(** What holds of an entry of [grouped] after the comments [pre] were
    processed: it holds the comments of its key, in their order, under the
    date, the author and the stamp of the first of them. *)
Definition card_group_ok (date : string → string) (pre : list Comment.t)
    (kg : string * Group.t) : Prop :=
  ∃ c0 rest,
    filter (λ c, ProjectCard.groupKey date c = kg.1) pre = c0 :: rest
    ∧ kg.2 = {| Group.date := date c0.(Comment.timestamp);
                Group.author := c0.(Comment.author);
                Group.stamp := c0.(Comment.stamp);
                Group.comments := c0 :: rest |}.

Definition card_groups_inv (date : string → string) (pre : list Comment.t)
    (gs : list (string * Group.t)) : Prop :=
  NoDup (map fst gs)
  ∧ Forall (card_group_ok date pre) gs
  ∧ ∀ c, c ∈ pre → ProjectCard.groupKey date c ∈ map fst gs.

(** The pair a card group stands for. *)
Definition groupPair (g : Group.t) : string * string :=
  (g.(Group.date), g.(Group.author)).

(** Two comments of one day by two visitors who both call themselves
    Ann. *)
Definition two_Anns : list Comment.t :=
  [ {| Comment.author := "Ann"; Comment.stamp := "AAAAAA";
       Comment.text := "mine"; Comment.timestamp := "2024-01-05T09:00:00.000Z" |};
    {| Comment.author := "Ann"; Comment.stamp := "BBBBBB";
       Comment.text := "not mine"; Comment.timestamp := "2024-01-05T10:00:00.000Z" |} ].
(* ===================================================================== *)
(** * utils/date-formater.js: formatRelativeTime                           *)
(* ===================================================================== *)

(** [Math.floor(x)] for a finite binary64 number. *)
Definition Math_floor (x : Number.t) : Z :=
  let m := if Number.neg x then - Number.mant x else Number.mant x in
  if Number.expo x <? 0 then m / 2 ^ (- Number.expo x) else m * 2 ^ Number.expo x.

(** [n !== 1 ? 's' : ''] *)
Definition plural (n : Z) : string := if negb (n =? 1) then "s" else "".

(** [formatRelativeTime(date)]; [diffMs] is [now - dateObj], the
    difference of the two time values of a valid date, in milliseconds.
    The quotients are the binary64 quotients, floored. *)
Definition formatRelativeTime (diffMs : Z) : string :=
  let diffMins := Math_floor (Number.div diffMs 60000) in
  let diffHours := Math_floor (Number.div diffMs 3600000) in
  let diffDays := Math_floor (Number.div diffMs 86400000) in
  let diffWeeks := Math_floor (Number.div diffDays 7) in
  let diffMonths := Math_floor (Number.div diffDays 30) in
  let diffYears := Math_floor (Number.div diffDays 365) in
  if diffMins <? 1 then "Just now"
  else if diffMins <? 60
  then pretty diffMins +:+ " minute" +:+ plural diffMins +:+ " ago"
  else if diffHours <? 24
  then pretty diffHours +:+ " hour" +:+ plural diffHours +:+ " ago"
  else if diffDays <? 7
  then pretty diffDays +:+ " day" +:+ plural diffDays +:+ " ago"
  else if diffWeeks <? 4
  then pretty diffWeeks +:+ " week" +:+ plural diffWeeks +:+ " ago"
  else if diffMonths <? 12
  then pretty diffMonths +:+ " month" +:+ plural diffMonths +:+ " ago"
  else pretty diffYears +:+ " year" +:+ plural diffYears +:+ " ago".

(** One day in milliseconds. *)
Definition day_ms : Z := 86400000.

(* ===================================================================== *)
(** * Vocabulary of the hash and of the rate-limit tracker                 *)
(* ===================================================================== *)

(** The polynomial of the hash over the integers, without wrap-around:
    [acc * 31^n + c1 * 31^(n-1) + ... + cn] for the code units [c1 ... cn]. *)
Fixpoint poly31 (str : string) (acc : Z) : Z :=
  match str with
  | EmptyString => acc
  | String c r => poly31 r (31 * acc + charCodeAt c)
  end.

(** Computations that leave the rate-limit tracker as it is, whether they
    return or throw. *)
Definition keeps_tracker {A} (m : js A) : Prop :=
  ∀ w, rateLimitTracker (m w).2 = rateLimitTracker w.

(** Computations whose only change of the tracker is the update [f]: a
    run that returns has made it, a run that throws has made it or has left
    the tracker as it was. *)
Definition updates_tracker (f : RateLimitTracker → RateLimitTracker)
    {A} (m : js A) : Prop :=
  ∀ w, let t := rateLimitTracker w in
       match m w with
       | (Ok _, w') => rateLimitTracker w' = f t
       | (Throw _, w') => rateLimitTracker w' = t ∨ rateLimitTracker w' = f t
       end.

(** The update of the tracker that each class of action makes. *)
Definition comment_recorded (time : Z) (t : RateLimitTracker) : RateLimitTracker :=
  {| lastCommentTime := time;
     lastRatingTime := t.(lastRatingTime);
     lastProjectTime := t.(lastProjectTime) |}.

Definition rating_recorded (time : Z) (t : RateLimitTracker) : RateLimitTracker :=
  {| lastCommentTime := t.(lastCommentTime);
     lastRatingTime := time;
     lastProjectTime := t.(lastProjectTime) |}.

Definition project_recorded (time : Z) (t : RateLimitTracker) : RateLimitTracker :=
  {| lastCommentTime := t.(lastCommentTime);
     lastRatingTime := t.(lastRatingTime);
     lastProjectTime := time |}.

(* ===================================================================== *)
(** * Facts about strings                                                  *)
(* ===================================================================== *)

Lemma string_app_assoc (a b c : string) : (a +:+ b) +:+ c = a +:+ (b +:+ c).
Proof. induction a as [|x a IH]; simpl; [done | by f_equal]. Qed.

Lemma string_app_nil_r (a : string) : a +:+ "" = a.
Proof. induction a as [|x a IH]; simpl; [done | by f_equal]. Qed.

Lemma string_length_app (a b : string) :
  String.length (a +:+ b) = (String.length a + String.length b)%nat.
Proof. induction a as [|x a IH]; simpl; [done | by f_equal]. Qed.

Lemma string_eqb_eq (a b : string) : String.eqb a b = true ↔ a = b.
Proof. apply String.eqb_eq. Qed.

Lemma string_eqb_neq (a b : string) : String.eqb a b = false ↔ a ≠ b.
Proof. apply String.eqb_neq. Qed.

(* ===================================================================== *)
(** * The compact codec reads back what it writes                          *)
(* ===================================================================== *)

Module CompactCodecFacts.
Import CompactCodec.

Lemma enc_arr l : enc (JArr l) = String "["%char (enc_items l).
Proof. reflexivity. Qed.

Lemma enc_obj fs : enc (JObj fs) = String "{"%char (enc_fields fs).
Proof. reflexivity. Qed.

Lemma dec_enc_pos p rest : dec_pos (enc_pos p +:+ rest) = Some (p, rest).
Proof. induction p as [p IH|p IH|]; simpl; [by rewrite IH | by rewrite IH | done]. Qed.

Lemma dec_enc_Z z rest : dec_Z (enc_Z z +:+ rest) = Some (z, rest).
Proof. destruct z; simpl; [done | by rewrite dec_enc_pos | by rewrite dec_enc_pos]. Qed.

Lemma dec_enc_str s rest : dec_str (enc_str s +:+ rest) = Some (s, rest).
Proof. induction s as [|c s IH]; simpl; [done | by rewrite IH]. Qed.

(** The first character of an encoded value is its tag: it closes neither
    an array nor an object. *)
Lemma enc_head v :
  ∃ c t, enc v = String c t ∧ Ascii.eqb c "]"%char = false.
Proof.
  destruct v as [|[]| | | |]; simpl; eexists _, _; (split; [reflexivity | done]).
Qed.

Lemma enc_str_head s :
  ∃ c t, enc_str s = String c t ∧ Ascii.eqb c "}"%char = false.
Proof. destruct s; simpl; eexists _, _; (split; [reflexivity | done]). Qed.

Lemma enc_length_pos v : (1 ≤ String.length (enc v))%nat.
Proof. destruct (enc_head v) as (c & t & -> & _). simpl. lia. Qed.

Lemma enc_str_length_pos s : (1 ≤ String.length (enc_str s))%nat.
Proof. destruct s; simpl; lia. Qed.

Lemma enc_items_length_pos l : (1 ≤ String.length (enc_items l))%nat.
Proof.
  destruct l as [|x r]; simpl; [lia |].
  rewrite string_length_app. pose proof (enc_length_pos x). lia.
Qed.

Lemma dec_items_step f c t :
  Ascii.eqb c "]"%char = false →
  dec_items (S f) (String c t) =
    match dec f (String c t) with
    | Some (x, r1) =>
        match dec_items f r1 with
        | Some (l, r2) => Some (x :: l, r2)
        | None => None
        end
    | None => None
    end.
Proof. intros Hc. cbn [dec_items]. by rewrite Hc. Qed.

Lemma dec_fields_step f c t :
  Ascii.eqb c "}"%char = false →
  dec_fields (S f) (String c t) =
    match dec_str (String c t) with
    | Some (k, r0) =>
        match dec f r0 with
        | Some (x, r1) =>
            match dec_fields f r1 with
            | Some (fs, r2) => Some ((k, x) :: fs, r2)
            | None => None
            end
        | None => None
        end
    | None => None
    end.
Proof. intros Hc. cbn [dec_fields]. by rewrite Hc. Qed.

Lemma dec_enc_items l :
  Forall reads_back l →
  ∀ fuel rest, (String.length (enc_items l) ≤ fuel)%nat →
               dec_items fuel (enc_items l +:+ rest) = Some (l, rest).
Proof.
  induction 1 as [|x r Hx _ IH]; intros fuel rest Hf.
  - destruct fuel; simpl in *; [lia | done].
  - simpl in Hf. rewrite string_length_app in Hf.
    pose proof (enc_length_pos x).
    pose proof (enc_items_length_pos r).
    destruct fuel as [|f]; [lia |].
    simpl enc_items. rewrite string_app_assoc.
    destruct (enc_head x) as (c & t & Hc & Hne).
    assert (∃ t', enc x +:+ enc_items r +:+ rest = String c t') as [t' Hs]
      by (rewrite Hc; simpl; eauto).
    rewrite Hs, dec_items_step by done. rewrite <- Hs.
    rewrite (Hx f) by lia. rewrite IH by lia. done.
Qed.

Lemma dec_enc_fields fs :
  Forall (λ kv, reads_back kv.2) fs →
  ∀ fuel rest, (String.length (enc_fields fs) ≤ fuel)%nat →
               dec_fields fuel (enc_fields fs +:+ rest) = Some (fs, rest).
Proof.
  induction 1 as [|[k x] r Hx _ IH]; intros fuel rest Hf.
  - destruct fuel; simpl in *; [lia | done].
  - simpl in Hf, Hx. rewrite !string_length_app in Hf.
    pose proof (enc_length_pos x). pose proof (enc_str_length_pos k).
    destruct fuel as [|f]; [lia |].
    simpl enc_fields. rewrite !string_app_assoc.
    destruct (enc_str_head k) as (c & t & Hc & Hne).
    assert (∃ t', enc_str k +:+ enc x +:+ enc_fields r +:+ rest = String c t')
      as [t' Hs] by (rewrite Hc; simpl; eauto).
    rewrite Hs, dec_fields_step by done. rewrite <- Hs.
    rewrite dec_enc_str. rewrite (Hx f) by lia. rewrite IH by lia. done.
Qed.

Lemma dec_enc v : reads_back v.
Proof.
  induction v as [|b|n|s|l IH|fs IH] using json_rect_deep;
    intros fuel rest Hf.
  - destruct fuel; simpl in *; [lia | done].
  - destruct fuel, b; simpl in *; try lia; done.
  - destruct fuel; simpl in *; [lia |]. by rewrite dec_enc_Z.
  - destruct fuel; simpl in *; [lia |]. by rewrite dec_enc_str.
  - rewrite enc_arr in *. destruct fuel; simpl in *; [lia |].
    rewrite dec_enc_items; [done | done | lia].
  - rewrite enc_obj in *. destruct fuel; simpl in *; [lia |].
    rewrite dec_enc_fields; [done | done | lia].
Qed.

Lemma parse_enc v : parse (enc v) = Some v.
Proof.
  unfold parse.
  rewrite <- (string_app_nil_r (enc v)) at 2.
  rewrite dec_enc by lia. done.
Qed.

Lemma enc_nonempty v : enc v ≠ "".
Proof. destruct (enc_head v) as (c & t & -> & _). done. Qed.

End CompactCodecFacts.

#[export] Instance compact_codec : JSONCodec := {|
  JSON_stringify := CompactCodec.enc;
  JSON_parse := CompactCodec.parse;
  JSON_parse_stringify := CompactCodecFacts.parse_enc;
  JSON_stringify_nonempty := CompactCodecFacts.enc_nonempty;
  JSON_parse_empty_array := eq_refl;
|}.

(* ===================================================================== *)
(** * Storage defaults                                                     *)
(* ===================================================================== *)

Section storage_facts.
Context `{JSONCodec}.

Lemma getDefaults_comments (id : string) : getDefaults ("comments." +:+ id) = JNull.
Proof. reflexivity. Qed.

Lemma getDefaults_ratings (id : string) : getDefaults ("ratings." +:+ id) = JNull.
Proof. reflexivity. Qed.

(** A read answers the default of the key whenever nothing usable is
    stored: the store is disabled, the entry is absent or empty, or its
    text does not parse. *)
Lemma getItem_default fs ls key :
  enabled fs = false
  ∨ ls !! (prefix fs +:+ key) = None
  ∨ ls !! (prefix fs +:+ key) = Some ""
  ∨ (∃ item, ls !! (prefix fs +:+ key) = Some item ∧ JSON_parse item = None) →
  getItem fs ls key = getDefaults key.
Proof.
  unfold getItem. intros [-> | [-> | [-> | (item & -> & Hp)]]]; simpl; try done.
  - by destruct (enabled fs).
  - by destruct (enabled fs).
  - destruct (enabled fs); simpl; [| done].
    rewrite Hp. by destruct (String.eqb item "").
Qed.

(** Reading back what was just written. *)
Lemma getItem_setItem fs ls key v :
  enabled fs = true →
  getItem fs (setItem fs ls key v).2 key = v.
Proof.
  intros He. unfold getItem, setItem. rewrite He. simpl.
  rewrite lookup_insert_eq.
  destruct (String.eqb (JSON_stringify v) "") eqn:E.
  - apply string_eqb_eq in E. by apply JSON_stringify_nonempty in E.
  - by rewrite JSON_parse_stringify.
Qed.

Lemma string_app_inj_l (p a b : string) : p +:+ a = p +:+ b → a = b.
Proof. induction p as [|c p IH]; simpl; [done |]. intros [= ?]. auto. Qed.

Lemma getItem_setItem_ne fs ls key key' v :
  key ≠ key' →
  getItem fs (setItem fs ls key v).2 key' = getItem fs ls key'.
Proof.
  intros Hne. unfold getItem, setItem.
  destruct (enabled fs); simpl; [| done].
  rewrite lookup_insert_ne; [done |].
  intros E. by apply string_app_inj_l in E.
Qed.

End storage_facts.

(** The constructor: over an available store it builds [fileStorage] and
    its probe leaves no trace; over an unavailable one it builds a disabled
    object. *)
Lemma new_FileStorage_available ls :
  ls !! "__storage_test__" = None →
  new_FileStorage true ls = (fileStorage, ls).
Proof.
  intros Hls. unfold new_FileStorage, checkStorageEnabled. f_equal.
  rewrite delete_insert_eq. by apply delete_id.
Qed.

Lemma new_FileStorage_unavailable ls :
  enabled (new_FileStorage false ls).1 = false ∧ (new_FileStorage false ls).2 = ls.
Proof. done. Qed.


(** The number of seconds shown by a refusal is at least one. *)
Lemma wait_seconds_positive remainingTime :
  0 < remainingTime → 1 ≤ wait_seconds remainingTime.
Proof.
  intros Hr. unfold wait_seconds.
  assert ((- remainingTime) / 1000 < 0) by (apply Z.div_lt_upper_bound; lia).
  lia.
Qed.

(** C1, as stated, fails: on a store that holds no comments for project
    999, [getItem] of the key [comments.999] is not the empty list. *)
Lemma C1_getItem_comments_not_empty_list :
  getItem fileStorage ∅ "comments.999" ≠ JArr [].
Proof. vm_compute. discriminate. Qed.

(** C1, amended: for every key of the form [comments.<projectId>] with no
    stored value, [getItem] returns [null] (the table of defaults has no
    entry for the comments namespace) and never throws; the empty list is
    what the callers obtain from [getItem(key) || []]. *)
Theorem C1_getItem_comments_default `{JSONCodec} (fs : FileStorage)
    (ls : LocalStorage) (id : string) :
  ls !! (prefix fs +:+ "comments." +:+ id) = None →
  getItem fs ls ("comments." +:+ id) = JNull
  ∧ js_or (getItem fs ls ("comments." +:+ id)) (JArr []) = JArr [].
Proof.
  intros Habs.
  assert (getItem fs ls ("comments." +:+ id) = JNull) as ->; [| done].
  rewrite getItem_default by auto. apply getDefaults_comments.
Qed.

Lemma C1_getItem_comments_default_witness :
  getItem fileStorage ∅ ("comments." +:+ "999") = JNull
  ∧ js_or (getItem fileStorage ∅ ("comments." +:+ "999")) (JArr []) = JArr [].
Proof. apply (C1_getItem_comments_default fileStorage ∅ "999"). reflexivity. Defined.

(* ===================================================================== *)
(** * The activity log                                                     *)
(* ===================================================================== *)

Lemma lastn_length {A} n (l : list A) : length (lastn n l) = (length l `min` n)%nat.
Proof. unfold lastn. rewrite length_drop. lia. Qed.

Lemma lastn_all {A} n (l : list A) : (length l ≤ n)%nat → lastn n l = l.
Proof. intros Hl. unfold lastn. by replace (length l - n)%nat with 0%nat by lia. Qed.

Lemma lastn_app_r {A} n (l1 l2 : list A) :
  (n ≤ length l2)%nat → lastn n (l1 ++ l2) = lastn n l2.
Proof.
  intros Hn. unfold lastn. rewrite length_app.
  replace (length l1 + length l2 - n)%nat with (length l1 + (length l2 - n))%nat by lia.
  by rewrite drop_app_add.
Qed.

Lemma lastn_lastn_app {A} n (l es : list A) :
  lastn n (lastn n l ++ es) = lastn n (l ++ es).
Proof.
  destruct (decide (length l ≤ n)%nat) as [Hle | Hgt].
  - by rewrite (lastn_all n l).
  - unfold lastn at 1 3. rewrite !length_app, lastn_length. unfold lastn.
    replace (length l `min` n + length es - n)%nat with (length es) by lia.
    replace (length l + length es - n)%nat with ((length l - n) + length es)%nat by lia.
    rewrite <- drop_drop. f_equal.
    rewrite drop_app_le by lia. done.
Qed.

Lemma keep_last_1000_lastn logs : keep_last_1000 logs = lastn 1000 logs.
Proof.
  unfold keep_last_1000. destruct (1000 <? length logs)%nat eqn:E; [done |].
  apply Nat.ltb_ge in E. by rewrite lastn_all.
Qed.

Lemma fold_keep_last_truncated (entries : list json) : ∀ l0,
  fold_left (λ acc e, keep_last_1000 (acc ++ [e])) entries (lastn 1000 l0)
  = lastn 1000 (l0 ++ entries).
Proof.
  induction entries as [|e es IH]; intros l0; simpl.
  - by rewrite app_nil_r.
  - rewrite keep_last_1000_lastn, lastn_lastn_app, IH.
    by rewrite <- app_assoc.
Qed.

Lemma fold_keep_last (entries : list json) (l0 : list json) :
  entries ≠ [] →
  fold_left (λ acc e, keep_last_1000 (acc ++ [e])) entries l0
  = lastn 1000 (l0 ++ entries).
Proof.
  destruct entries as [|e es]; [done |]. intros _. simpl.
  rewrite keep_last_1000_lastn, fold_keep_last_truncated.
  by rewrite <- app_assoc.
Qed.

Section activity_log.
Context `{JSONCodec}.

Lemma storage_setItem_run w key v :
  storage_setItem key v w
  = (Ok (setItem (UserSession.storage (userSession w)) (localStorage w) key v).1,
     after_setItem w key v).
Proof.
  unfold storage_setItem, after_setItem, with_localStorage.
  by destruct (setItem _ _ _ _).
Qed.

Lemma stored_after_setItem w key v :
  enabled (UserSession.storage (userSession w)) = true →
  stored (after_setItem w key v) key = v.
Proof. intros He. unfold stored, after_setItem. simpl. by apply getItem_setItem. Qed.

Lemma stored_after_setItem_ne w key key' v :
  key ≠ key' →
  stored (after_setItem w key v) key' = stored w key'.
Proof. intros Hne. unfold stored, after_setItem. simpl. by apply getItem_setItem_ne. Qed.

(** [logActivity] on a log that is a list (or is absent) appends the entry,
    truncates and writes back; it does not throw. *)
Lemma logActivity_run w action data iso l0 :
  js_or (stored w "logs._activity_logs") (JArr []) = JArr l0 →
  logActivity action data iso w
  = (Ok (),
     after_setItem w "logs._activity_logs"
       (JArr (keep_last_1000 (l0 ++ [logEntry (userSession w) action data iso])))).
Proof.
  intros Hl. unfold logActivity, bind at 1, storage_getItem.
  fold (stored w "logs._activity_logs"). rewrite Hl.
  unfold bind, this, Array_push, ret. simpl.
  rewrite storage_setItem_run. done.
Qed.

(** A log that is not a list makes [logActivity] throw. *)
Lemma logActivity_throws w action data iso v :
  js_or (stored w "logs._activity_logs") (JArr []) = v →
  (∀ l, v ≠ JArr l) →
  ∃ e, logActivity action data iso w = (Throw e, w).
Proof.
  intros Hl Hv. unfold logActivity, bind at 1, storage_getItem.
  fold (stored w "logs._activity_logs"). rewrite Hl.
  unfold bind, this, Array_push, ret, throw.
  destruct v; try (eexists; reflexivity). by destruct (Hv items).
Qed.

Lemma logActivity_all_run (calls : list LogCall) : ∀ w l,
  enabled (UserSession.storage (userSession w)) = true →
  stored w "logs._activity_logs" = JArr l →
  ∃ w', logActivity_all calls w = (Ok (), w')
        ∧ userSession w' = userSession w
        ∧ rateLimitTracker w' = rateLimitTracker w
        ∧ stored w' "logs._activity_logs"
          = JArr (fold_left (λ acc e, keep_last_1000 (acc ++ [e]))
                    (map (λ c, logEntry (userSession w) c.(call_action)
                                 c.(call_data) c.(call_iso)) calls) l).
Proof.
  induction calls as [|c r IH]; intros w l He Hl.
  - exists w. done.
  - simpl. unfold bind.
    rewrite (logActivity_run w _ _ _ l) by (by rewrite Hl).
    set (w1 := after_setItem w _ _).
    destruct (IH w1 (keep_last_1000 (l ++ [logEntry (userSession w) c.(call_action)
                                             c.(call_data) c.(call_iso)])))
      as (w' & Hrun & Hs & Ht & Hst).
    + done.
    + by apply stored_after_setItem.
    + exists w'. rewrite Hrun. done.
Qed.

End activity_log.

(** C2: from any starting log list, a non-empty sequence of [logActivity]
    calls leaves in the store the last 1000 elements of the starting list
    followed by the new entries, in append order: at most 1000 entries; once
    1000 or more entries were appended, exactly the most recent 1000 of
    them; and after 1050 appends to an empty log, the entries without the
    oldest 50. *)
Theorem C2_activity_log_keeps_most_recent_1000 `{JSONCodec}
    (w : World) (l0 : list json) (calls : list LogCall) :
  enabled (UserSession.storage (userSession w)) = true →
  js_or (stored w "logs._activity_logs") (JArr []) = JArr l0 →
  calls ≠ [] →
  let entries :=
    map (λ c, logEntry (userSession w) c.(call_action) c.(call_data) c.(call_iso))
        calls in
  ∃ w' logs,
    logActivity_all calls w = (Ok (), w')
    ∧ stored w' "logs._activity_logs" = JArr logs
    ∧ logs = lastn 1000 (l0 ++ entries)
    ∧ (length logs ≤ 1000)%nat
    ∧ ((1000 ≤ length calls)%nat →
       logs = lastn 1000 entries ∧ length logs = 1000%nat)
    ∧ (l0 = [] → length calls = 1050%nat → logs = drop 50 entries).
Proof.
  intros He Hl Hne entries.
  destruct calls as [|c r]; [done |].
  simpl logActivity_all. unfold bind.
  rewrite (logActivity_run w _ _ _ l0) by done.
  set (e := logEntry (userSession w) c.(call_action) c.(call_data) c.(call_iso)).
  set (w1 := after_setItem w _ _).
  destruct (logActivity_all_run r w1 (keep_last_1000 (l0 ++ [e])))
    as (w' & Hrun & Hs & Ht & Hst).
  { done. }
  { by apply stored_after_setItem. }
  exists w', (lastn 1000 (l0 ++ entries)).
  assert (Hfold : fold_left (λ acc e, keep_last_1000 (acc ++ [e]))
                    (map (λ c, logEntry (userSession w1) c.(call_action)
                                 c.(call_data) c.(call_iso)) r)
                    (keep_last_1000 (l0 ++ [e]))
                  = lastn 1000 (l0 ++ entries)).
  { rewrite keep_last_1000_lastn, fold_keep_last_truncated.
    subst entries. simpl. by rewrite <- app_assoc. }
  rewrite Hfold in Hst.
  assert (Hlen : length entries = length (c :: r))
    by (subst entries; by rewrite length_map).
  repeat split; try done.
  - rewrite lastn_length. lia.
  - rewrite lastn_app_r by lia. done.
  - rewrite lastn_length, length_app. lia.
  - intros -> H1050. unfold lastn. simpl app.
    by rewrite Hlen, H1050.
Qed.

Lemma C2_activity_log_keeps_most_recent_1000_witness :
  let w := newWorld ∅ "727CF" in
  let calls := sample_calls 1050 in
  let entries :=
    map (λ c, logEntry (userSession w) c.(call_action) c.(call_data) c.(call_iso))
        calls in
  ∃ w' logs,
    logActivity_all calls w = (Ok (), w')
    ∧ stored w' "logs._activity_logs" = JArr logs
    ∧ logs = lastn 1000 ([] ++ entries)
    ∧ (length logs ≤ 1000)%nat
    ∧ ((1000 ≤ length calls)%nat →
       logs = lastn 1000 entries ∧ length logs = 1000%nat)
    ∧ (@nil json = [] → length calls = 1050%nat → logs = drop 50 entries).
Proof.
  intros w calls.
  apply (C2_activity_log_keeps_most_recent_1000 w [] calls).
  - reflexivity.
  - reflexivity.
  - intros E. apply (f_equal length) in E. vm_compute in E. discriminate.
Defined.

(* ===================================================================== *)
(** * Nicknames and the all-users collection                               *)
(* ===================================================================== *)

Section nicknames.
Context `{JSONCodec}.

Lemma bind_run {A B} (m : js A) (k : A → js B) w :
  bind m k w = match m w with
               | (Ok a, w') => k a w'
               | (Throw e, w') => (Throw e, w')
               end.
Proof. reflexivity. Qed.

Lemma get_prop_nonnull u k w : u ≠ JNull → get_prop u k w = (Ok (prop k u), w).
Proof. by destruct u. Qed.

Lemma find_list_held_by_other baseNick ownStamp (l : list json) w :
  no_null l →
  find_list
    (λ u, n <- get_prop u "nickname" ;;
          if strict_eq_str n baseNick
          then (s <- get_prop u "stamp" ;; ret (negb (strict_eq_str s ownStamp)))
          else ret false) l w
  = (Ok (List.find (held_by_other baseNick ownStamp) l), w).
Proof.
  induction 1 as [|u r Hu _ IH]; [done |].
  cbn [find_list List.find]. rewrite bind_run, bind_run.
  rewrite get_prop_nonnull by done.
  unfold held_by_other at 1.
  destruct (strict_eq_str (prop "nickname" u) baseNick); simpl.
  - rewrite bind_run. rewrite get_prop_nonnull by done. unfold ret at 1.
    destruct (strict_eq_str (prop "stamp" u) ownStamp); simpl; [apply IH | done].
  - unfold ret at 1. apply IH.
Qed.

Lemma find_existsb {A} (p : A → bool) (l : list A) :
  existsb p l = match List.find p l with Some _ => true | None => false end.
Proof. induction l as [|x r IH]; simpl; [done |]. by destruct (p x). Qed.

Lemma ensureUniqueNickname_run w nickname users :
  raw_allUsers w = Some (JArr users) →
  no_null users →
  ensureUniqueNickname nickname w
  = (Ok (uniqueNickname users (UserSession.stamp (userSession w)) nickname), w).
Proof.
  intros Hraw Hnn. unfold ensureUniqueNickname.
  rewrite bind_run. unfold localStorage_getItem at 1.
  rewrite bind_run. unfold JSON_parse_js. unfold raw_allUsers in Hraw. rewrite Hraw.
  unfold ret at 1. rewrite bind_run. unfold this at 1. rewrite bind_run.
  unfold Array_find.
  rewrite find_list_held_by_other by done.
  unfold uniqueNickname. rewrite find_existsb.
  by destruct (List.find _ users).
Qed.

Lemma setNickname_run w nickname users :
  raw_allUsers w = Some (JArr users) →
  no_null users →
  let nick := uniqueNickname users (UserSession.stamp (userSession w)) nickname in
  setNickname nickname w
  = (Ok nick, after_raw_setItem (with_nickname w (Some nick)) "userNickname" nick).
Proof.
  intros Hraw Hnn nick. unfold setNickname. rewrite bind_run.
  rewrite (ensureUniqueNickname_run w nickname users) by done.
  done.
Qed.

Lemma readonly_ret {A} (a : A) : readonly (ret a).
Proof. done. Qed.

Lemma readonly_throw {A} e : readonly (@throw A e).
Proof. done. Qed.

Lemma readonly_bind {A B} (m : js A) (k : A → js B) :
  readonly m → (∀ a, readonly (k a)) → readonly (bind m k).
Proof.
  intros Hm Hk w. rewrite bind_run. specialize (Hm w).
  destruct (m w) as [[a|e] w1]; simpl in Hm; subst w1; [apply Hk | done].
Qed.

Lemma readonly_get_prop u k : readonly (get_prop u k).
Proof. by destruct u. Qed.

Lemma readonly_find_list p l : (∀ u, readonly (p u)) → readonly (find_list p l).
Proof.
  intros Hp. induction l as [|u r IH]; [done |].
  apply readonly_bind; [done |]. by intros [].
Qed.

Lemma readonly_findIndex_list p l i :
  (∀ u, readonly (p u)) → readonly (findIndex_list p l i).
Proof.
  intros Hp. revert i. induction l as [|u r IH]; intros i; [done |].
  apply readonly_bind; [done |]. by intros [].
Qed.

Lemma readonly_ensureUniqueNickname nickname : readonly (ensureUniqueNickname nickname).
Proof.
  unfold ensureUniqueNickname.
  apply readonly_bind; [done |]. intros raw.
  apply readonly_bind.
  { unfold JSON_parse_js. by destruct (JSON_parse _). }
  intros users. apply readonly_bind; [done |]. intros self.
  apply readonly_bind; [| by intros []].
  destruct users; try done. apply readonly_find_list.
  intros u. apply readonly_bind; [apply readonly_get_prop |].
  intros n. destruct (strict_eq_str n _); [| done].
  apply readonly_bind; [apply readonly_get_prop | done].
Qed.

(** Whatever the store holds, [setNickname] either throws and leaves the
    world as it is, or sets the session nickname and the raw key
    [userNickname], and nothing else. *)
Lemma setNickname_world w nickname :
  (∃ e, setNickname nickname w = (Throw e, w))
  ∨ (∃ nick, setNickname nickname w
             = (Ok nick, after_raw_setItem (with_nickname w (Some nick))
                           "userNickname" nick)).
Proof.
  unfold setNickname. rewrite bind_run.
  pose proof (readonly_ensureUniqueNickname nickname w) as Hro.
  destruct (ensureUniqueNickname nickname w) as [[nick|e] w1]; simpl in Hro; subst w1.
  - right. by exists nick.
  - left. by exists e.
Qed.

Lemma stored_with_nickname w n key : stored (with_nickname w n) key = stored w key.
Proof. done. Qed.

Lemma stored_with_userDetails w d key : stored (with_userDetails w d) key = stored w key.
Proof. done. Qed.

Lemma stored_with_tracker w t key : stored (with_tracker w t) key = stored w key.
Proof. done. Qed.

Lemma stored_after_raw_setItem w rawkey v key :
  prefix (UserSession.storage (userSession w)) +:+ key ≠ rawkey →
  stored (after_raw_setItem w rawkey v) key = stored w key.
Proof.
  intros Hne. unfold stored, after_raw_setItem, getItem. simpl.
  by rewrite lookup_insert_ne.
Qed.

(** The keys of the [FileStorage] name space that the flows use are longer
    than the raw key [userNickname]. *)
Lemma prefixed_ne_userNickname p key :
  (12 < String.length key)%nat → p +:+ key ≠ "userNickname".
Proof.
  intros Hl E. apply (f_equal String.length) in E.
  rewrite string_length_app in E. simpl in E. lia.
Qed.

Lemma setNickname_keeps_stored w nickname key :
  (12 < String.length key)%nat →
  stored (setNickname nickname w).2 key = stored w key.
Proof.
  intros Hl. destruct (setNickname_world w nickname) as [[e ->] | [nick ->]]; [done |].
  simpl. rewrite stored_after_raw_setItem by (by apply prefixed_ne_userNickname).
  done.
Qed.

Lemma findIndex_list_has_stamp ownStamp (l : list json) i w :
  no_null l →
  findIndex_list
    (λ u, s <- get_prop u "stamp" ;; ret (strict_eq_str s ownStamp)) l i w
  = (Ok (index_where (has_stamp ownStamp) l i), w).
Proof.
  intros Hl. revert i. induction Hl as [|u r Hu _ IH]; intros i; [done |].
  cbn [findIndex_list index_where]. rewrite bind_run, bind_run.
  rewrite get_prop_nonnull by done. unfold ret at 1. unfold has_stamp at 1.
  destruct (strict_eq_str (prop "stamp" u) ownStamp); [done | apply IH].
Qed.

(** [saveUserDetails] on a well-formed store: the details are merged and
    written, the session's record is inserted or replaced in
    [users.allUsers], and the change is logged. *)
Lemma saveUserDetails_run w details lastActive logISO users logs :
  js_or (stored w "users.allUsers") (JArr []) = JArr users →
  no_null users →
  js_or (stored w "logs._activity_logs") (JArr []) = JArr logs →
  let merged := spread (UserSession.userDetails (userSession w)) details in
  let w1 := after_setItem (with_userDetails w merged) "users.details" (JObj merged) in
  let record := userData (userSession w) merged lastActive in
  let w2 := after_setItem w1 "users.allUsers"
              (JArr (upsert (UserSession.stamp (userSession w)) record users)) in
  saveUserDetails details lastActive logISO w
  = (Ok (),
     after_setItem w2 "logs._activity_logs"
       (JArr (keep_last_1000
                (logs ++ [logEntry (userSession w2) "user_details_saved"
                            (JObj [("details", JObj details)]) logISO])))).
Proof.
  intros Hu Hnn Hl merged w1 record w2.
  unfold saveUserDetails.
  rewrite bind_run. unfold this at 1.
  rewrite bind_run. unfold set_this_userDetails at 1.
  fold (with_userDetails w (spread (UserSession.userDetails (userSession w)) details)).
  fold merged.
  rewrite bind_run, storage_setItem_run. fold w1.
  rewrite bind_run. unfold storage_getItem at 1. fold (stored w1 "users.allUsers").
  assert (Hs1 : stored w1 "users.allUsers" = stored w "users.allUsers").
  { unfold w1. rewrite stored_after_setItem_ne by done. done. }
  rewrite Hs1, Hu.
  rewrite bind_run. unfold Array_findIndex.
  rewrite findIndex_list_has_stamp by done.
  assert (Hup : (match index_where (has_stamp (UserSession.stamp (userSession w))) users 0%nat,
                   JArr users with
                 | Some i, JArr l => ret (<[i := record]> l)
                 | _, _ => Array_push (JArr users) record
                 end) w1
                = (Ok (upsert (UserSession.stamp (userSession w)) record users), w1)).
  { unfold upsert. by destruct (index_where _ users 0%nat). }
  rewrite bind_run. change (JObj (("stamp", _) :: _)) with record. rewrite Hup.
  rewrite bind_run, storage_setItem_run. fold w2.
  apply logActivity_run.
  unfold w2, w1.
  rewrite !stored_after_setItem_ne by done. done.
Qed.

End nicknames.

Section flow_facts.
Context `{JSONCodec}.
Variable has : option json → bool.

Lemma iterate_world v w :
  (∃ e, iterate v w = (Throw e, w)) ∨ (∃ l, iterate v w = (Ok l, w)).
Proof. destruct v; simpl; eauto. Qed.

Lemma iterate_readonly v w : (iterate v w).2 = w.
Proof. by destruct (iterate_world v w) as [[e ->] | [l ->]]. Qed.

(** [loadProjects] reads the store and changes nothing, whether it returns
    or throws. *)
Lemma loadProjects_readonly w : (loadProjects has w).2 = w.
Proof.
  unfold loadProjects.
  rewrite bind_run. unfold storage_getItem at 1. cbv beta iota.
  rewrite bind_run. unfold storage_getItem at 1. cbv beta iota.
  rewrite bind_run.
  match goal with |- context [iterate ?v w] =>
    destruct (iterate_world v w) as [[e ->] | [l1 ->]] end; [done |].
  rewrite bind_run.
  match goal with |- context [iterate ?v w] =>
    destruct (iterate_world v w) as [[e ->] | [l2 ->]] end; done.
Qed.

Lemma loadProjects_world w :
  (∃ e, loadProjects has w = (Throw e, w)) ∨ (∃ l, loadProjects has w = (Ok l, w)).
Proof.
  pose proof (loadProjects_readonly w) as Hw.
  destruct (loadProjects has w) as [[l | e] w']; simpl in Hw; subst w'; eauto.
Qed.

(** On two lists [loadProjects] returns, with the sorted projects. *)
Lemma loadProjects_on_lists w systemProjects userProjects :
  js_or (stored w "projects.allProjects") (JArr []) = JArr systemProjects →
  js_or (stored w "projects.userProjects") (JArr []) = JArr userProjects →
  loadProjects has w
  = (Ok (Array_sort (compareProjects has) (indexed (systemProjects ++ userProjects))),
     w).
Proof.
  intros Hsys Husr. unfold loadProjects.
  rewrite bind_run. unfold storage_getItem at 1. cbv beta iota.
  rewrite bind_run. unfold storage_getItem at 1. cbv beta iota.
  fold (stored w "projects.allProjects") (stored w "projects.userProjects").
  rewrite Hsys, Husr.
  rewrite bind_run. unfold iterate at 1, ret at 1. cbv beta iota.
  rewrite bind_run. unfold iterate at 1, ret at 1. cbv beta iota.
  reflexivity.
Qed.

Lemma after_refresh_on_lists w systemProjects userProjects :
  js_or (stored w "projects.allProjects") (JArr []) = JArr systemProjects →
  js_or (stored w "projects.userProjects") (JArr []) = JArr userProjects →
  after_refresh has w = Completed.
Proof.
  intros Hsys Husr. unfold after_refresh.
  by rewrite (loadProjects_on_lists w systemProjects userProjects).
Qed.

Lemma after_refresh_not_stopped w n : after_refresh has w ≠ Stopped n.
Proof. unfold after_refresh. by destruct (loadProjects has w).1. Qed.

Lemma try_catch_bind {A} (m : js A) (k : A → js unit) w :
  try_catch (bind m k) w
  = match m w with
    | (Ok a, w') => try_catch (k a) w'
    | (Throw e, w') => (Caught e, w')
    end.
Proof. unfold try_catch. rewrite bind_run. by destruct (m w) as [[a | e] w']. Qed.

(** The end of the rating and project flows: the update of the tracker,
    then the refresh. *)
Lemma record_and_refresh (t : RateLimitTracker) w :
  try_catch (set_tracker t ;; loadProjects has ;; ret ()) w
  = (after_refresh has (with_tracker w t), with_tracker w t).
Proof.
  unfold try_catch, after_refresh. rewrite bind_run. unfold set_tracker at 1.
  cbv beta iota. fold (with_tracker w t). rewrite bind_run.
  by destruct (loadProjects_world (with_tracker w t)) as [[e ->] | [l ->]].
Qed.

Lemma standard_enabled w :
  standard_storage w → enabled (UserSession.storage (userSession w)) = true.
Proof. by intros ->. Qed.

Lemma stored_after_userNickname w v key :
  standard_storage w →
  stored (after_raw_setItem w "userNickname" v) key = stored w key.
Proof.
  intros Hs. apply stored_after_raw_setItem. by rewrite Hs.
Qed.

(** The step "update the session nickname if changed" of the comment and
    project flows. *)
Lemma update_nickname_run nickname w users :
  standard_storage w →
  raw_allUsers w = Some (JArr users) →
  no_null users →
  ∃ w1,
    (if nickname_changed nickname (userSession w)
     then setNickname nickname ;; ret ()
     else ret ()) w = (Ok (), w1)
    ∧ (∀ key, stored w1 key = stored w key)
    ∧ rateLimitTracker w1 = rateLimitTracker w
    ∧ UserSession.storage (userSession w1) = UserSession.storage (userSession w)
    ∧ UserSession.stamp (userSession w1) = UserSession.stamp (userSession w).
Proof.
  intros Hs Hraw Hnn.
  destruct (nickname_changed nickname (userSession w)).
  - rewrite bind_run, (setNickname_run w nickname users) by done.
    eexists. split; [reflexivity |]. repeat split.
    intros key. by rewrite stored_after_userNickname.
  - exists w. done.
Qed.

Lemma tracker_after_setItem w key v :
  rateLimitTracker (after_setItem w key v) = rateLimitTracker w.
Proof. done. Qed.

Lemma session_after_setItem w key v :
  userSession (after_setItem w key v) = userSession w.
Proof. done. Qed.

Lemma comments_key_ne_logs id : "comments." +:+ id ≠ "logs._activity_logs".
Proof. done. Qed.

Lemma ratings_key_ne_logs id : "ratings." +:+ id ≠ "logs._activity_logs".
Proof. done. Qed.

Lemma addComment_limited env projectId textarea_value nickname_text w :
  let commentText := sanitizeInput (trim textarea_value) in
  let now := env.(Date_now) 0%nat in
  let last := w.(rateLimitTracker).(lastCommentTime) in
  commentText ≠ "" →
  Z.of_nat (String.length commentText) ≤ APP_CONFIG.VALIDATION.MAX_COMMENT_LENGTH →
  now - last < APP_CONFIG.RATE_LIMITING.COMMENT_COOLDOWN →
  addComment env projectId textarea_value nickname_text w
  = (Stopped (PleaseWait (APP_CONFIG.RATE_LIMITING.COMMENT_COOLDOWN - (now - last))), w).
Proof.
  intros commentText now last Hne Hlen Hlt. unfold addComment.
  fold commentText. apply string_eqb_neq in Hne. rewrite Hne.
  apply Z.ltb_ge in Hlen. rewrite Hlen.
  fold now last. apply Z.ltb_lt in Hlt. by rewrite Hlt.
Qed.

Lemma addComment_allowed env projectId textarea_value nickname_text w
    users comments logs :
  let commentText := sanitizeInput (trim textarea_value) in
  let now := env.(Date_now) 0%nat in
  let last := w.(rateLimitTracker).(lastCommentTime) in
  let key := "comments." +:+ pretty projectId in
  standard_storage w →
  commentText ≠ "" →
  Z.of_nat (String.length commentText) ≤ APP_CONFIG.VALIDATION.MAX_COMMENT_LENGTH →
  APP_CONFIG.RATE_LIMITING.COMMENT_COOLDOWN ≤ now - last →
  raw_allUsers w = Some (JArr users) →
  no_null users →
  js_or (stored w key) (JArr []) = JArr comments →
  js_or (stored w "logs._activity_logs") (JArr []) = JArr logs →
  ∃ w',
    addComment env projectId textarea_value nickname_text w = (Completed, w')
    ∧ rateLimitTracker w' = comment_recorded (env.(Date_now) 1%nat) w.(rateLimitTracker)
    ∧ stored w' key
      = JArr (comments ++ [commentRecord (sanitizeInput (trim nickname_text))
                             (UserSession.stamp (userSession w)) commentText
                             (env.(toISOString) 0%nat)]).
Proof.
  intros commentText now last key Hs Hne Hlen Hge Hraw Hnn Hc Hl.
  unfold addComment. fold commentText.
  apply string_eqb_neq in Hne. rewrite Hne.
  apply Z.ltb_ge in Hlen. rewrite Hlen.
  fold now last. apply Z.ltb_ge in Hge. rewrite Hge.
  unfold try_catch.
  rewrite bind_run. unfold this at 1.
  rewrite bind_run.
  destruct (update_nickname_run (sanitizeInput (trim nickname_text)) w users)
    as (w1 & -> & Hst1 & Ht1 & Hfs1 & Hstamp1); [done .. |].
  rewrite bind_run. unfold this at 1.
  rewrite bind_run. unfold storage_getItem at 1. fold key. fold (stored w1 key).
  rewrite Hst1, Hc.
  rewrite bind_run. unfold Array_push at 1, ret at 1.
  rewrite bind_run, storage_setItem_run.
  set (w2 := after_setItem w1 key _).
  rewrite bind_run.
  rewrite (logActivity_run w2 _ _ _ logs).
  2:{ unfold w2. rewrite stored_after_setItem_ne by apply comments_key_ne_logs.
      by rewrite Hst1. }
  set (w3 := after_setItem w2 _ _).
  rewrite bind_run. unfold get_tracker at 1. unfold set_tracker.
  eexists. split; [reflexivity |]. simpl. split.
  - unfold comment_recorded. by rewrite Ht1.
  - change (stored w3 key = JArr (comments ++ [commentRecord
              (sanitizeInput (trim nickname_text))
              (UserSession.stamp (userSession w)) commentText
              (env.(toISOString) 0%nat)])).
    unfold w3. rewrite stored_after_setItem_ne.
    2:{ intros E. symmetry in E. by apply comments_key_ne_logs in E. }
    unfold w2. rewrite stored_after_setItem.
    2:{ rewrite Hfs1. by apply standard_enabled. }
    by rewrite Hstamp1.
Qed.

Lemma rateProject_limited env projectId rating w :
  let now := env.(Date_now) 0%nat in
  let last := w.(rateLimitTracker).(lastRatingTime) in
  now - last < APP_CONFIG.RATE_LIMITING.RATING_COOLDOWN →
  rateProject has env projectId rating w
  = (Stopped (PleaseWait (APP_CONFIG.RATE_LIMITING.RATING_COOLDOWN - (now - last))), w).
Proof.
  intros now last Hlt. unfold rateProject.
  fold now last. apply Z.ltb_lt in Hlt. by rewrite Hlt.
Qed.

Lemma rateProject_allowed env projectId rating w ratings logs :
  let now := env.(Date_now) 0%nat in
  let last := w.(rateLimitTracker).(lastRatingTime) in
  let key := "ratings." +:+ pretty projectId in
  standard_storage w →
  APP_CONFIG.RATE_LIMITING.RATING_COOLDOWN ≤ now - last →
  js_or (stored w key) (JArr []) = JArr ratings →
  js_or (stored w "logs._activity_logs") (JArr []) = JArr logs →
  ∃ w',
    rateProject has env projectId rating w = (after_refresh has w', w')
    ∧ rateLimitTracker w' = rating_recorded now w.(rateLimitTracker)
    ∧ stored w' key = JArr (ratings ++ [JNum rating]).
Proof.
  intros now last key Hs Hge Hr Hl.
  unfold rateProject. fold now last. apply Z.ltb_ge in Hge. rewrite Hge.
  rewrite try_catch_bind. unfold storage_getItem at 1. fold key. fold (stored w key).
  rewrite Hr.
  rewrite try_catch_bind. unfold Array_push at 1, ret at 1.
  rewrite try_catch_bind, storage_setItem_run.
  set (w1 := after_setItem w key _).
  rewrite try_catch_bind.
  rewrite (logActivity_run w1 _ _ _ logs).
  2:{ unfold w1. by rewrite stored_after_setItem_ne by apply ratings_key_ne_logs. }
  set (w2 := after_setItem w1 _ _).
  rewrite try_catch_bind. unfold get_tracker at 1.
  rewrite record_and_refresh.
  eexists. split; [reflexivity |]. split; [done |].
  rewrite stored_with_tracker.
  unfold w2. rewrite stored_after_setItem_ne.
  2:{ intros E. symmetry in E. by apply ratings_key_ne_logs in E. }
  unfold w1. rewrite stored_after_setItem by (by apply standard_enabled). done.
Qed.

(** The step "save the details when an e-mail address was given" of the
    project flow. *)
Lemma save_details_step (email_given : bool) details lastActive logISO w users logs :
  js_or (stored w "users.allUsers") (JArr []) = JArr users →
  no_null users →
  js_or (stored w "logs._activity_logs") (JArr []) = JArr logs →
  ∃ w1 logs1,
    (if email_given then saveUserDetails details lastActive logISO else ret ()) w
    = (Ok (), w1)
    ∧ stored w1 "projects.userProjects" = stored w "projects.userProjects"
    ∧ js_or (stored w1 "logs._activity_logs") (JArr []) = JArr logs1
    ∧ rateLimitTracker w1 = rateLimitTracker w
    ∧ UserSession.storage (userSession w1) = UserSession.storage (userSession w).
Proof.
  intros Hu Hnn Hl. destruct email_given.
  - rewrite (saveUserDetails_run w details lastActive logISO users logs) by done.
    destruct (enabled (UserSession.storage (userSession w))) eqn:He.
    + eexists _, _. split; [reflexivity |]. repeat split.
      * by rewrite !stored_after_setItem_ne.
      * by rewrite stored_after_setItem.
    + eexists _, logs. split; [reflexivity |]. repeat split.
      * by rewrite !stored_after_setItem_ne.
      * rewrite <- Hl. f_equal. unfold stored, after_setItem, setItem, getItem.
        simpl. by rewrite He.
  - exists w, logs. done.
Qed.

Lemma try_catch_not_stopped body w n : (try_catch body w).1 ≠ Stopped n.
Proof. unfold try_catch. by destruct (body w) as [[[] | e] w']. Qed.

Lemma addComment_not_limited env projectId textarea_value nickname_text w n :
  valid_comment textarea_value →
  APP_CONFIG.RATE_LIMITING.COMMENT_COOLDOWN
    ≤ env.(Date_now) 0%nat - w.(rateLimitTracker).(lastCommentTime) →
  (addComment env projectId textarea_value nickname_text w).1 ≠ Stopped n.
Proof.
  intros [Hne Hlen] Hge. unfold addComment. cbv zeta.
  apply string_eqb_neq in Hne. rewrite Hne.
  apply Z.ltb_ge in Hlen. rewrite Hlen.
  apply Z.ltb_ge in Hge. rewrite Hge.
  apply try_catch_not_stopped.
Qed.

Lemma rateProject_not_limited env projectId rating w n :
  APP_CONFIG.RATE_LIMITING.RATING_COOLDOWN
    ≤ env.(Date_now) 0%nat - w.(rateLimitTracker).(lastRatingTime) →
  (rateProject has env projectId rating w).1 ≠ Stopped n.
Proof.
  intros Hge. unfold rateProject. cbv zeta.
  apply Z.ltb_ge in Hge. rewrite Hge.
  apply try_catch_not_stopped.
Qed.

Section project_flow.
Variable isValidUrl : string → bool.

Lemma submitProject_not_limited env form w n :
  valid_form isValidUrl form →
  APP_CONFIG.RATE_LIMITING.PROJECT_COOLDOWN
    ≤ env.(Date_now) 0%nat - w.(rateLimitTracker).(lastProjectTime) →
  (submitProject has isValidUrl env form w).1 ≠ Stopped n.
Proof.
  intros Hv Hge. unfold valid_form in Hv. unfold submitProject. cbv zeta.
  rewrite Hv. simpl negb. cbv iota.
  apply Z.ltb_ge in Hge. rewrite Hge.
  apply try_catch_not_stopped.
Qed.

Lemma submitProject_limited env form w :
  let now := env.(Date_now) 0%nat in
  let last := w.(rateLimitTracker).(lastProjectTime) in
  validateProjectData isValidUrl (trim form.(form_title)) (trim form.(form_description))
    ["user-submitted"] (trim form.(form_link)) = [] →
  now - last < APP_CONFIG.RATE_LIMITING.PROJECT_COOLDOWN →
  submitProject has isValidUrl env form w
  = (Stopped (PleaseWait (APP_CONFIG.RATE_LIMITING.PROJECT_COOLDOWN - (now - last))), w).
Proof.
  intros now last Hv Hlt. unfold submitProject. rewrite Hv. simpl.
  fold now last. apply Z.ltb_lt in Hlt. by rewrite Hlt.
Qed.

Lemma submitProject_allowed env form w rawUsers users userProjects logs :
  let now := env.(Date_now) 0%nat in
  let last := w.(rateLimitTracker).(lastProjectTime) in
  standard_storage w →
  validateProjectData isValidUrl (trim form.(form_title)) (trim form.(form_description))
    ["user-submitted"] (trim form.(form_link)) = [] →
  APP_CONFIG.RATE_LIMITING.PROJECT_COOLDOWN ≤ now - last →
  raw_allUsers w = Some (JArr rawUsers) →
  no_null rawUsers →
  js_or (stored w "users.allUsers") (JArr []) = JArr users →
  no_null users →
  js_or (stored w "projects.userProjects") (JArr []) = JArr userProjects →
  js_or (stored w "logs._activity_logs") (JArr []) = JArr logs →
  ∃ w' project,
    submitProject has isValidUrl env form w = (after_refresh has w', w')
    ∧ rateLimitTracker w' = project_recorded now w.(rateLimitTracker)
    ∧ stored w' "projects.userProjects" = JArr (userProjects ++ [project])
    ∧ prop "type" project = Some (JStr "user")
    ∧ prop "id" project = Some (JNum (env.(Date_now) 1%nat)).
Proof.
  intros now last Hs Hv Hge Hraw Hrnn Hu Hnn Hp Hl.
  unfold submitProject. rewrite Hv. simpl negb. cbv iota.
  fold now last. apply Z.ltb_ge in Hge. rewrite Hge.
  rewrite try_catch_bind. unfold this at 1.
  rewrite try_catch_bind.
  destruct (update_nickname_run (trim form.(form_nickname)) w rawUsers)
    as (w1 & -> & Hst1 & Ht1 & Hfs1 & Hstamp1); [done .. |].
  rewrite try_catch_bind.
  match goal with
  | |- context [if negb (String.eqb (trim (form_email form)) "")
                then saveUserDetails ?d ?a ?b else ret ()] =>
      destruct (save_details_step (negb (String.eqb (trim (form_email form)) ""))
                  d a b w1 users logs)
        as (w2 & logs2 & -> & Hp2 & Hl2 & Ht2 & Hfs2)
  end.
  { by rewrite Hst1. }
  { done. }
  { by rewrite Hst1. }
  rewrite try_catch_bind. unfold this at 1.
  rewrite try_catch_bind. unfold storage_getItem at 1.
  fold (stored w2 "projects.userProjects").
  rewrite Hp2, Hst1, Hp.
  rewrite try_catch_bind. unfold Array_push at 1, ret at 1.
  rewrite try_catch_bind, storage_setItem_run.
  set (w3 := after_setItem w2 "projects.userProjects" _).
  rewrite try_catch_bind.
  rewrite (logActivity_run w3 _ _ _ logs2).
  2:{ unfold w3. by rewrite stored_after_setItem_ne. }
  set (w4 := after_setItem w3 _ _).
  rewrite try_catch_bind. unfold get_tracker at 1.
  rewrite record_and_refresh.
  eexists _, _. split; [reflexivity |]. split; [| split].
  - unfold project_recorded. simpl. by rewrite Ht2, Ht1.
  - rewrite stored_with_tracker.
    unfold w4. rewrite stored_after_setItem_ne by done.
    unfold w3. rewrite stored_after_setItem.
    2:{ rewrite Hfs2, Hfs1. by apply standard_enabled. }
    reflexivity.
  - done.
Qed.

End project_flow.
End flow_facts.

Section comment_text.
Context `{JSONCodec}.

(** Whatever the store holds, [logActivity] either throws and leaves the
    world as it is, or rewrites the log key and nothing else. *)
Lemma logActivity_world w action data iso :
  (∃ e, logActivity action data iso w = (Throw e, w))
  ∨ (∃ logs, logActivity action data iso w
             = (Ok (), after_setItem w "logs._activity_logs" (JArr logs))).
Proof.
  destruct (js_or (stored w "logs._activity_logs") (JArr [])) as [| | | |l|] eqn:E.
  1-4,6: left; eapply logActivity_throws; [exact E | done].
  right. eexists. by apply logActivity_run.
Qed.

(** The comments of a project after [addComment]: either the list is as it
    was, or it is the former list with one comment appended, whose text is
    the sanitized, trimmed content of the text area. *)
Lemma addComment_stored_comments env projectId textarea_value nickname_text w o w' :
  standard_storage w →
  addComment env projectId textarea_value nickname_text w = (o, w') →
  let key := "comments." +:+ pretty projectId in
  stored w' key = stored w key
  ∨ ∃ comments,
      js_or (stored w key) (JArr []) = JArr comments
      ∧ stored w' key
        = JArr (comments ++ [commentRecord (sanitizeInput (trim nickname_text))
                               (UserSession.stamp (userSession w))
                               (sanitizeInput (trim textarea_value))
                               (env.(toISOString) 0%nat)]).
Proof.
  intros Hs Hrun key. revert Hrun. unfold addComment.
  destruct (String.eqb _ ""); [intros [= <- <-]; by left |].
  destruct (_ <? _); [intros [= <- <-]; by left |].
  destruct (_ <? _); [intros [= <- <-]; by left |].
  unfold try_catch.
  rewrite bind_run. unfold this at 1.
  rewrite bind_run.
  assert (Hstep : ∃ r w1,
    (if nickname_changed (sanitizeInput (trim nickname_text)) (userSession w)
     then setNickname (sanitizeInput (trim nickname_text)) ;; ret ()
     else ret ()) w = (r, w1)
    ∧ (∀ k, stored w1 k = stored w k)
    ∧ UserSession.storage (userSession w1) = UserSession.storage (userSession w)
    ∧ UserSession.stamp (userSession w1) = UserSession.stamp (userSession w)).
  { destruct (nickname_changed _ _); [| by eexists _, w].
    rewrite bind_run.
    destruct (setNickname_world w (sanitizeInput (trim nickname_text)))
      as [[e ->] | [nick ->]].
    - by eexists _, w.
    - eexists _, _. split; [reflexivity |]. repeat split.
      intros k. by rewrite stored_after_userNickname. }
  destruct Hstep as (r & w1 & -> & Hst1 & Hfs1 & Hstamp1).
  destruct r as [[]|e]; [| intros [= <- <-]; left; apply Hst1].
  cbv beta iota.
  rewrite bind_run. unfold this at 1.
  rewrite bind_run. unfold storage_getItem at 1. fold key. fold (stored w1 key).
  rewrite Hst1.
  destruct (js_or (stored w key) (JArr [])) as [| | | |comments|] eqn:E;
    try (intros [= <- <-]; left; apply Hst1).
  rewrite bind_run. unfold Array_push at 1, ret at 1.
  rewrite bind_run, storage_setItem_run.
  set (w2 := after_setItem w1 key _).
  assert (Hw2 : stored w2 key
                = JArr (comments ++ [commentRecord (sanitizeInput (trim nickname_text))
                                       (UserSession.stamp (userSession w))
                                       (sanitizeInput (trim textarea_value))
                                       (env.(toISOString) 0%nat)])).
  { unfold w2. rewrite stored_after_setItem.
    - by rewrite Hstamp1.
    - rewrite Hfs1. by apply standard_enabled. }
  rewrite bind_run.
  match goal with |- context [logActivity ?a ?d ?i w2] =>
    destruct (logActivity_world w2 a d i) as [[e ->] | [logs ->]] end.
  - intros [= <- <-]. right. by exists comments.
  - rewrite bind_run. unfold get_tracker at 1. unfold set_tracker.
    intros [= <- <-]. right. exists comments. split; [done |].
    match goal with |- stored _ ?k = ?r =>
      change (stored (after_setItem w2 "logs._activity_logs" (JArr logs)) k = r) end.
    rewrite stored_after_setItem_ne; [exact Hw2 |].
    intros E'. symmetry in E'. by apply comments_key_ne_logs in E'.
Qed.

End comment_text.

(** The table of the code has an entry exactly for the five characters. *)
Lemma entityMap_None c : entityMap c = None ↔ c ∉ unsafe_chars.
Proof.
  unfold entityMap, unsafe_chars.
  repeat match goal with
         | |- context [Ascii.eqb c ?d] =>
             destruct (Ascii.eqb_spec c d) as [-> | ?];
             [split; [done | intros Hn; exfalso; apply Hn; set_solver] |]
         end.
  split; [intros _ | reflexivity].
  rewrite !not_elem_of_cons. repeat split; try done. apply not_elem_of_nil.
Qed.

(** The code makes the replacement that the specification words. *)
Lemma sanitizeInput_refines_spec s : sanitizeInput s = escape_html_spec s.
Proof.
  unfold escape_html_spec.
  induction s as [|c s IH]; simpl; [done |]. rewrite <- IH.
  unfold entityMap, html_entity_spec.
  repeat match goal with
         | |- context [Ascii.eqb c ?d] =>
             destruct (Ascii.eqb_spec c d) as [-> | ?]; [reflexivity |]
         end.
  by rewrite !decide_False by done.
Qed.

Lemma sanitizeInput_escaped s : escaped (sanitizeInput s).
Proof.
  induction s as [|c s IH]; simpl; [constructor |].
  destruct (entityMap c) as [e|] eqn:E.
  - apply escaped_entity; [| done].
    unfold entityMap in E. unfold entities.
    repeat (destruct (Ascii.eqb c _); [injection E as <-; set_solver |]). done.
  - constructor; [by apply entityMap_None | done].
Qed.

Lemma chars_app a b : chars (a +:+ b) = chars a ++ chars b.
Proof. induction a as [|c a IH]; simpl; [done | by rewrite IH]. Qed.

Lemma sanitizeInput_no_markup s :
  Forall (λ c, is_markup c = false) (chars (sanitizeInput s)).
Proof.
  induction s as [|c s IH]; simpl; [constructor |].
  destruct (entityMap c) as [e|] eqn:E.
  - rewrite chars_app. apply Forall_app. split; [| done].
    unfold entityMap in E.
    repeat (destruct (Ascii.eqb c _);
            [injection E as <-; simpl; repeat constructor |]). done.
  - simpl. constructor; [| done].
    unfold entityMap in E. unfold is_markup.
    repeat (destruct (Ascii.eqb c _); [done |]). done.
Qed.

(* ===================================================================== *)
(** * The cooldowns of the three flows                                     *)
(* ===================================================================== *)

(** C3, as stated, fails for the project class: on a first visit the page
    has run [initializeStorageFiles], the cooldown has long elapsed and the
    form is valid, and still the submission ends in the [catch] block
    before the update of the tracker: no project is stored and the time of
    the last submission stays as it was. *)
Lemma C3_elapsed_cooldown_without_update :
  ∃ w1, page_start chrome_env ∅ = Some w1
    ∧ valid_form (λ _, true) sample_form
    ∧ APP_CONFIG.RATE_LIMITING.PROJECT_COOLDOWN
        ≤ chrome_env.(Date_now) 0%nat - lastProjectTime (rateLimitTracker w1)
    ∧ (submitProject (λ _, false) (λ _, true) chrome_env sample_form w1).1
      = Caught "TypeError: push is not a function"
    ∧ rateLimitTracker
        (submitProject (λ _, false) (λ _, true) chrome_env sample_form w1).2
      = rateLimitTracker w1
    ∧ stored (submitProject (λ _, false) (λ _, true) chrome_env sample_form w1).2
        "projects.userProjects"
      = stored w1 "projects.userProjects".
Proof.
  eexists. split; [vm_compute; reflexivity |].
  split; [vm_compute; reflexivity |].
  split; [vm_compute; discriminate |].
  vm_compute. done.
Qed.

(** C3, amended: for each class of action with its cooldown (comment
    3000 ms, rating 1000 ms, project submission 5000 ms), an attempt made
    less than the cooldown after the recorded time of the last action of
    the class stops with a positive remaining time and leaves the world,
    hence the store, as it was.  When the cooldown has elapsed the limiter
    does not stop the attempt; the time of the last action is recorded at
    the end of the storage steps of the action, so that it is recorded, and
    the comment, rating or project appended, whenever the collections that
    the action reads hold lists, whatever the refresh of the cards that
    follows does. *)
Theorem C3_rate_limiting `{JSONCodec} (has : option json → bool)
    (isValidUrl : string → bool) (env : Env) (w : World) :
  let now := env.(Date_now) 0%nat in
  let tracker := w.(rateLimitTracker) in
  (APP_CONFIG.RATE_LIMITING.COMMENT_COOLDOWN = 3000
   ∧ APP_CONFIG.RATE_LIMITING.RATING_COOLDOWN = 1000
   ∧ APP_CONFIG.RATE_LIMITING.PROJECT_COOLDOWN = 5000)
  (* comments *)
  ∧ (∀ projectId textarea_value nickname_text,
       valid_comment textarea_value →
       let r := addComment env projectId textarea_value nickname_text w in
       let key := "comments." +:+ pretty projectId in
       (now - tracker.(lastCommentTime) < 3000 →
        ∃ remaining, 0 < remaining ∧ r = (Stopped (PleaseWait remaining), w))
       ∧ (3000 ≤ now - tracker.(lastCommentTime) →
          (∀ n, r.1 ≠ Stopped n)
          ∧ (standard_storage w → comment_store_ok w projectId →
             rateLimitTracker r.2 = comment_recorded (env.(Date_now) 1%nat) tracker
             ∧ ∃ comments comment,
                 js_or (stored w key) (JArr []) = JArr comments
                 ∧ stored r.2 key = JArr (comments ++ [comment]))))
  (* ratings *)
  ∧ (∀ projectId rating,
       let r := rateProject has env projectId rating w in
       let key := "ratings." +:+ pretty projectId in
       (now - tracker.(lastRatingTime) < 1000 →
        ∃ remaining, 0 < remaining ∧ r = (Stopped (PleaseWait remaining), w))
       ∧ (1000 ≤ now - tracker.(lastRatingTime) →
          (∀ n, r.1 ≠ Stopped n)
          ∧ (standard_storage w → rating_store_ok w projectId →
             rateLimitTracker r.2 = rating_recorded now tracker
             ∧ ∃ ratings,
                 js_or (stored w key) (JArr []) = JArr ratings
                 ∧ stored r.2 key = JArr (ratings ++ [JNum rating]))))
  (* project submissions *)
  ∧ (∀ form,
       valid_form isValidUrl form →
       let r := submitProject has isValidUrl env form w in
       let key := "projects.userProjects" in
       (now - tracker.(lastProjectTime) < 5000 →
        ∃ remaining, 0 < remaining ∧ r = (Stopped (PleaseWait remaining), w))
       ∧ (5000 ≤ now - tracker.(lastProjectTime) →
          (∀ n, r.1 ≠ Stopped n)
          ∧ (standard_storage w → project_store_ok w →
             rateLimitTracker r.2 = project_recorded now tracker
             ∧ ∃ userProjects project,
                 js_or (stored w key) (JArr []) = JArr userProjects
                 ∧ stored r.2 key = JArr (userProjects ++ [project])))).
Proof.
  intros now tracker. split; [done |]. split; [| split].
  - intros projectId textarea_value nickname_text Hv r key. split.
    + intros Hlt. destruct Hv as [Hne Hlen].
      eexists. split; [| by apply addComment_limited].
      unfold APP_CONFIG.RATE_LIMITING.COMMENT_COOLDOWN. fold now tracker. lia.
    + intros Hge. split; [intros n; by apply addComment_not_limited |].
      intros Hs ((users & Hraw & Hnn) & (comments & Hc) & (logs & Hlogs)).
      destruct Hv as [Hne Hlen].
      destruct (addComment_allowed env projectId textarea_value nickname_text w
                  users comments logs) as (w' & Hrun & Ht & Hst); try done.
      subst r. rewrite Hrun. split; [exact Ht |]. by eexists _, _.
  - intros projectId rating r key. split.
    + intros Hlt. eexists. split; [| by apply rateProject_limited].
      unfold APP_CONFIG.RATE_LIMITING.RATING_COOLDOWN. fold now tracker. lia.
    + intros Hge. split; [intros n; by apply rateProject_not_limited |].
      intros Hs ((ratings & Hr) & (logs & Hlogs)).
      destruct (rateProject_allowed has env projectId rating w ratings logs)
        as (w' & Hrun & Ht & Hst); try done.
      subst r. rewrite Hrun. split; [exact Ht |]. by eexists.
  - intros form Hv r key. split.
    + intros Hlt. eexists. split; [| by apply submitProject_limited].
      unfold APP_CONFIG.RATE_LIMITING.PROJECT_COOLDOWN. fold now tracker. lia.
    + intros Hge. split; [intros n; by apply submitProject_not_limited |].
      intros Hs ((rawUsers & Hraw & Hrnn) & (users & Hu & Hnn) & (ps & Hp)
                 & (logs & Hlogs)).
      destruct (submitProject_allowed has isValidUrl env form w rawUsers users ps logs)
        as (w' & project & Hrun & Ht & Hst & _); try done.
      subst r. rewrite Hrun. split; [exact Ht |]. by eexists _, _.
Qed.

Lemma C3_rate_limiting_witness :
  ∃ w1 w2,
    page_start chrome_env ∅ = Some w1
    ∧ page_start chrome_env
        (setItem fileStorage ∅ "projects.userProjects" (JArr [])).2 = Some w2
    (* half a second after an action of each class *)
    ∧ (∃ remaining, 0 < remaining
         ∧ addComment chrome_env 1 "Nice <b>work</b>" "Ann" (with_tracker w1 just_acted)
           = (Stopped (PleaseWait remaining), with_tracker w1 just_acted))
    ∧ (∃ remaining, 0 < remaining
         ∧ rateProject (λ _, false) chrome_env 1 5 (with_tracker w1 just_acted)
           = (Stopped (PleaseWait remaining), with_tracker w1 just_acted))
    ∧ (∃ remaining, 0 < remaining
         ∧ submitProject (λ _, false) (λ _, true) chrome_env sample_form
             (with_tracker w1 just_acted)
           = (Stopped (PleaseWait remaining), with_tracker w1 just_acted))
    (* ten seconds after the start of the page *)
    ∧ rateLimitTracker (addComment chrome_env 1 "Nice <b>work</b>" "Ann" w1).2
      = comment_recorded (chrome_env.(Date_now) 1%nat) (rateLimitTracker w1)
    ∧ rateLimitTracker (rateProject (λ _, false) chrome_env 1 5 w1).2
      = rating_recorded (chrome_env.(Date_now) 0%nat) (rateLimitTracker w1)
    ∧ rateLimitTracker
        (submitProject (λ _, false) (λ _, true) chrome_env sample_form w2).2
      = project_recorded (chrome_env.(Date_now) 0%nat) (rateLimitTracker w2).
Proof.
  eexists _, _.
  split; [vm_compute; reflexivity |]. split; [vm_compute; reflexivity |].
  match goal with
  | |- context [rateProject _ _ _ _ (with_tracker ?W1 _)] => set (w1 := W1)
  end.
  match goal with
  | |- context [submitProject _ _ _ sample_form ?W2] =>
      lazymatch W2 with
      | with_tracker _ _ => fail
      | _ => set (w2 := W2)
      end
  end.
  assert (Hv : valid_comment "Nice <b>work</b>")
    by (split; [vm_compute; discriminate | vm_compute; discriminate]).
  assert (Hf : valid_form (λ _, true) sample_form) by (vm_compute; reflexivity).
  assert (Hrecent : ∀ t, chrome_env.(Date_now) 0%nat - 9500 < t ↔ 500 < t)
    by (intros t; vm_compute; split; intros ?; done).
  assert (Hc1 : comment_store_ok w1 1).
  { split; [| split].
    - exists []. split; [vm_compute; reflexivity | constructor].
    - eexists. vm_compute. reflexivity.
    - eexists. vm_compute. reflexivity. }
  assert (Hr1 : rating_store_ok w1 1).
  { split; eexists; vm_compute; reflexivity. }
  assert (Hp2 : project_store_ok w2).
  { split; [| split; [| split]].
    - exists []. split; [vm_compute; reflexivity | constructor].
    - exists []. split; [vm_compute; reflexivity | constructor].
    - eexists. vm_compute. reflexivity.
    - eexists. vm_compute. reflexivity. }
  pose proof (C3_rate_limiting (λ _, false) (λ _, true) chrome_env
                (with_tracker w1 just_acted)) as (_ & Hca & Hra & Hpa).
  pose proof (C3_rate_limiting (λ _, false) (λ _, true) chrome_env w1)
    as (_ & Hcb & Hrb & _).
  pose proof (C3_rate_limiting (λ _, false) (λ _, true) chrome_env w2)
    as (_ & _ & _ & Hpb).
  split; [| split; [| split; [| split; [| split]]]].
  - apply (Hca 1 "Nice <b>work</b>" "Ann" Hv). vm_compute. reflexivity.
  - apply (Hra 1 5). vm_compute. reflexivity.
  - apply (Hpa sample_form Hf). vm_compute. reflexivity.
  - apply (Hcb 1 "Nice <b>work</b>" "Ann" Hv); [vm_compute; discriminate | reflexivity | exact Hc1].
  - apply (Hrb 1 5); [vm_compute; discriminate | reflexivity | exact Hr1].
  - apply (Hpb sample_form Hf); [vm_compute; discriminate | reflexivity | exact Hp2].
Defined.

(** The scenario of the specification, run on an empty store: a comment at
    10000 ms is accepted and records 10001 ms; a second one at 11000 ms is
    refused with 2001 ms to wait and changes nothing; a third one at
    13001 ms is accepted. *)
Example comment_cooldown_scenario :
  let w0 := newWorld ∅ "727CF" in
  let r1 := addComment (env_at 10000) 1 "first" "Ann" w0 in
  let r2 := addComment (env_at 11000) 1 "second" "Ann" r1.2 in
  let r3 := addComment (env_at 13001) 1 "third" "Ann" r1.2 in
  r1.1 = Completed
  ∧ r2 = (Stopped (PleaseWait 2001), r1.2)
  ∧ r3.1 = Completed
  ∧ r3.2.(rateLimitTracker).(lastCommentTime) = 13002.
Proof. vm_compute. done. Qed.

Lemma index_where_Some {A} (p : A → bool) (l : list A) : ∀ k i,
  index_where p l k = Some i →
  (k ≤ i)%nat ∧ ∃ x, l !! (i - k)%nat = Some x ∧ p x = true.
Proof.
  induction l as [|y r IH]; intros k i; simpl; [done |].
  destruct (p y) eqn:E.
  - intros [= <-]. split; [lia |]. exists y. by rewrite Nat.sub_diag.
  - intros Hi. destruct (IH _ _ Hi) as (Hle & x & Hx & Hp).
    split; [lia |]. exists x. split; [| done].
    replace (i - k)%nat with (S (i - S k)) by lia. done.
Qed.

(** C4, evaluated on the scenario of the specification: the identity of stamp
    AAAAAA takes the nickname Alice and is recorded with it in
    [users.allUsers]; the identity of stamp BBBBBB, on the same store, then
    asks for Alice and receives Alice, without the suffix.  The check reads
    the raw key [allUsers], which no part of the program writes. *)
Lemma C4_second_Alice_receives_no_suffix :
  let first := newWorld ∅ "AAAAAA" in
  let w1 := (setNickname "Alice" first).2 in
  let w2 := (saveUserDetails [("email", JStr "alice@example.org")]
               "2024-01-05T10:00:00.000Z" "2024-01-05T10:00:00.001Z" w1).2 in
  let second := newWorld (localStorage w2) "BBBBBB" in
  (setNickname "Alice" first).1 = Ok "Alice"
  ∧ (∃ record, stored w2 "users.allUsers" = JArr [record]
               ∧ prop "stamp" record = Some (JStr "AAAAAA")
               ∧ prop "nickname" record = Some (JStr "Alice"))
  ∧ localStorage w2 !! "allUsers" = None
  ∧ (setNickname "Alice" second).1 = Ok "Alice"
  ∧ (setNickname "Alice" second).1 ≠ Ok "Alice#BBBBBB".
Proof.
  vm_compute. repeat split; try done.
  eexists. repeat split.
Qed.

(** C5, as stated, fails: after [setNickname] by an identity whose stamp is
    not in [users.allUsers], the collection holds no record of it. *)
Lemma C5_setNickname_inserts_no_record :
  (setNickname "Alice" (newWorld ∅ "AAAAAA")).1 = Ok "Alice"
  ∧ stored (setNickname "Alice" (newWorld ∅ "AAAAAA")).2 "users.allUsers" = JArr [].
Proof. vm_compute. done. Qed.

(** C5, amended: [setNickname] leaves [users.allUsers] as it is (it sets
    the session nickname and the raw key [userNickname]); the caller's
    record, with the session nickname and a [lastActive] equal to the
    current time, is inserted at the end when the stamp is not present, and
    otherwise replaces in place the first record of that stamp, by
    [saveUserDetails]. *)
Theorem C5_allUsers_upsert_by_saveUserDetails `{JSONCodec} (w : World)
    (nickname : string) (details : list (string * json))
    (lastActive logISO : string) (users logs : list json) :
  enabled (UserSession.storage (userSession w)) = true →
  js_or (stored w "users.allUsers") (JArr []) = JArr users →
  no_null users →
  js_or (stored w "logs._activity_logs") (JArr []) = JArr logs →
  let self := userSession w in
  let ownStamp := UserSession.stamp self in
  let record := userData self (spread (UserSession.userDetails self) details)
                  lastActive in
  stored (setNickname nickname w).2 "users.allUsers" = stored w "users.allUsers"
  ∧ ∃ w',
      saveUserDetails details lastActive logISO w = (Ok (), w')
      ∧ stored w' "users.allUsers" = JArr (upsert ownStamp record users)
      ∧ prop "stamp" record = Some (JStr ownStamp)
      ∧ prop "nickname" record = Some (opt_str (UserSession.nickname self))
      ∧ prop "lastActive" record = Some (JStr lastActive)
      ∧ (index_where (has_stamp ownStamp) users 0%nat = None →
         upsert ownStamp record users = users ++ [record])
      ∧ (∀ i, index_where (has_stamp ownStamp) users 0%nat = Some i →
              upsert ownStamp record users = <[i := record]> users
              ∧ length (upsert ownStamp record users) = length users
              ∧ ∃ old, users !! i = Some old ∧ has_stamp ownStamp old = true).
Proof.
  intros He Hu Hnn Hl self ownStamp record. split.
  { apply setNickname_keeps_stored. simpl. lia. }
  eexists. split; [by apply (saveUserDetails_run w _ _ _ users logs) |].
  split.
  { rewrite stored_after_setItem_ne by done. by rewrite stored_after_setItem. }
  split; [done |]. split; [done |]. split; [done |]. split.
  - intros Hi. unfold upsert. by rewrite Hi.
  - intros i Hi. unfold upsert. rewrite Hi.
    split; [done |]. split; [apply length_insert |].
    apply index_where_Some in Hi as (_ & old & Hold & Hp).
    exists old. by rewrite Nat.sub_0_r in Hold.
Qed.

Lemma C5_allUsers_upsert_by_saveUserDetails_witness :
  let w := newWorld ∅ "AAAAAA" in
  stored (setNickname "Alice" w).2 "users.allUsers" = stored w "users.allUsers"
  ∧ ∃ w',
      saveUserDetails [("email", JStr "alice@example.org")]
        "2024-01-05T10:00:00.000Z" "2024-01-05T10:00:00.001Z" w = (Ok (), w')
      ∧ ∃ record, stored w' "users.allUsers" = JArr [record]
                  ∧ prop "lastActive" record = Some (JStr "2024-01-05T10:00:00.000Z").
Proof.
  intros w.
  destruct (C5_allUsers_upsert_by_saveUserDetails w "Alice"
              [("email", JStr "alice@example.org")]
              "2024-01-05T10:00:00.000Z" "2024-01-05T10:00:00.001Z" [] [])
    as (Hset & w' & Hrun & Hst & _ & _ & Hla & _).
  - reflexivity.
  - reflexivity.
  - constructor.
  - reflexivity.
  - split; [exact Hset |]. exists w'. split; [exact Hrun |].
    eexists. split; [exact Hst | exact Hla].
Defined.

(** C10: whatever the store holds, [addComment] either leaves the comments
    of the project as they were or appends one comment, and the text of an
    appended comment is [sanitizeInput] of the trimmed content of the text
    area.  That text is the trimmed content with each less-than,
    greater-than, double quote, apostrophe and ampersand replaced by its
    HTML entity and every other character kept; it holds no less-than,
    greater-than, double quote or apostrophe, and every ampersand in it
    starts one of the five entities. *)
Theorem C10_stored_comment_text_sanitized `{JSONCodec} (env : Env)
    (projectId : Z) (textarea_value nickname_text : string) (w : World)
    (o : Outcome) (w' : World) :
  standard_storage w →
  addComment env projectId textarea_value nickname_text w = (o, w') →
  let key := "comments." +:+ pretty projectId in
  stored w' key = stored w key
  ∨ ∃ comments comment text,
      js_or (stored w key) (JArr []) = JArr comments
      ∧ stored w' key = JArr (comments ++ [comment])
      ∧ prop "text" comment = Some (JStr text)
      ∧ text = sanitizeInput (trim textarea_value)
      ∧ text = escape_html_spec (trim textarea_value)
      ∧ Forall (λ c, is_markup c = false) (chars text)
      ∧ escaped text.
Proof.
  intros Hs Hrun key.
  destruct (addComment_stored_comments _ _ _ _ _ _ _ Hs Hrun)
    as [Hsame | (comments & Hc & Hst)]; [by left |].
  right. eexists comments, _, _. split; [exact Hc |]. split; [exact Hst |].
  split; [reflexivity |]. split; [reflexivity |].
  split; [apply sanitizeInput_refines_spec |].
  split; [apply sanitizeInput_no_markup | apply sanitizeInput_escaped].
Qed.

Lemma C10_stored_comment_text_sanitized_witness :
  let w := newWorld ∅ "727CF" in
  let w' := (addComment chrome_env 1 "Tom & Jerry's <b>best</b>" "Ann" w).2 in
  let key := "comments." +:+ pretty 1 in
  stored w' key = stored w key
  ∨ ∃ comments comment text,
      js_or (stored w key) (JArr []) = JArr comments
      ∧ stored w' key = JArr (comments ++ [comment])
      ∧ prop "text" comment = Some (JStr text)
      ∧ text = sanitizeInput (trim "Tom & Jerry's <b>best</b>")
      ∧ text = escape_html_spec (trim "Tom & Jerry's <b>best</b>")
      ∧ Forall (λ c, is_markup c = false) (chars text)
      ∧ escaped text.
Proof.
  intros w w'.
  apply (C10_stored_comment_text_sanitized chrome_env 1
           "Tom & Jerry's <b>best</b>" "Ann" w
           (addComment chrome_env 1 "Tom & Jerry's <b>best</b>" "Ann" w).1 w').
  - reflexivity.
  - subst w'. by destruct (addComment _ _ _ _ _).
Defined.

(** The comment of the sample as it is stored. *)
Example stored_text_of_a_comment :
  stored (addComment chrome_env 1 "Tom & Jerry's <b>best</b>" "Ann"
            (newWorld ∅ "727CF")).2 "comments.1"
  = JArr [commentRecord "Ann" "727CF"
            "Tom &amp; Jerry&#39;s &lt;b&gt;best&lt;/b&gt;"
            (chrome_env.(toISOString) 0%nat)].
Proof. vm_compute. reflexivity. Qed.

(* ===================================================================== *)
(** * Seeding                                                              *)
(* ===================================================================== *)

Section seeding_facts.
Context `{JSONCodec}.

(** On an empty collection the examples are written, and the log key is
    overwritten with the single entry of the seeding. *)
Lemma populate_seeds env w :
  length_is_zero (js_or (stored w "projects.allProjects") (JArr [])) = true →
  populateExampleProjects env w
  = (Completed,
     after_setItem
       (after_setItem w "projects.allProjects" (JArr (exampleProjects env)))
       "logs._activity_logs" (JArr [populate_log_entry env])).
Proof.
  intros Hz. unfold populateExampleProjects, try_catch.
  rewrite bind_run. unfold storage_getItem at 1.
  fold (stored w "projects.allProjects"). rewrite Hz.
  rewrite bind_run, storage_setItem_run.
  rewrite bind_run, storage_setItem_run. done.
Qed.

(** On a collection that is not empty nothing is written. *)
Lemma populate_skips env w :
  length_is_zero (js_or (stored w "projects.allProjects") (JArr [])) = false →
  populateExampleProjects env w = (Completed, w).
Proof.
  intros Hz. unfold populateExampleProjects, try_catch.
  rewrite bind_run. unfold storage_getItem at 1.
  fold (stored w "projects.allProjects"). by rewrite Hz.
Qed.

Lemma exampleProjects_length env : length (exampleProjects env) = 4%nat.
Proof. reflexivity. Qed.

(** Seeding happens once: after a first load on an empty collection, a
    second load changes nothing, whatever [projects.userProjects] holds. *)
Lemma populate_once env env' w :
  enabled (UserSession.storage (userSession w)) = true →
  length_is_zero (js_or (stored w "projects.allProjects") (JArr [])) = true →
  let w1 := (populateExampleProjects env w).2 in
  stored w1 "projects.allProjects" = JArr (exampleProjects env)
  ∧ stored w1 "projects.userProjects" = stored w "projects.userProjects"
  ∧ populateExampleProjects env' w1 = (Completed, w1).
Proof.
  intros He Hz w1. subst w1. rewrite populate_seeds by done. simpl.
  assert (Hp : stored (after_setItem
                         (after_setItem w "projects.allProjects"
                            (JArr (exampleProjects env)))
                         "logs._activity_logs" (JArr [populate_log_entry env]))
                 "projects.allProjects" = JArr (exampleProjects env)).
  { rewrite stored_after_setItem_ne by done. by rewrite stored_after_setItem. }
  split; [exact Hp |]. split.
  - by rewrite !stored_after_setItem_ne.
  - apply populate_skips. by rewrite Hp.
Qed.

(** The log after a seeding is the single entry of the seeding, whatever
    the log held before. *)
Lemma populate_log_overwritten env w :
  enabled (UserSession.storage (userSession w)) = true →
  length_is_zero (js_or (stored w "projects.allProjects") (JArr [])) = true →
  stored (populateExampleProjects env w).2 "logs._activity_logs"
  = JArr [populate_log_entry env].
Proof.
  intros He Hz. rewrite populate_seeds by done. simpl.
  by rewrite stored_after_setItem.
Qed.

End seeding_facts.

(** C7, evaluated on a first load: the session has logged its
    initialisation, [projects.allProjects] is empty.  The seeding writes
    the four examples and replaces the log by its own single entry: the
    entry logged before is gone.  A second load changes nothing. *)
Lemma C7_seeding_discards_prior_log_entries :
  let w0 := newWorld ∅ "727CF" in
  let w1 := (logActivity "session_initialized"
               (JObj [("isReturningUser", JBool false); ("hasNickname", JBool false)])
               "2024-01-05T09:59:59.000Z" w0).2 in
  let w2 := (populateExampleProjects chrome_env w1).2 in
  (∃ prior, stored w1 "logs._activity_logs" = JArr [prior]
            ∧ prop "action" prior = Some (JStr "session_initialized"))
  ∧ stored w1 "projects.allProjects" = JArr []
  ∧ stored w2 "projects.allProjects" = JArr (exampleProjects chrome_env)
  ∧ (∃ entry, stored w2 "logs._activity_logs" = JArr [entry]
              ∧ prop "action" entry = Some (JStr "system_populate_examples"))
  ∧ populateExampleProjects chrome_env w2 = (Completed, w2).
Proof.
  vm_compute. repeat split; try done; eexists; repeat split.
Qed.
(* ===================================================================== *)
(** * The user stamp                                                       *)
(* ===================================================================== *)

Lemma toInt32_range z : - 2 ^ 31 ≤ toInt32 z < 2 ^ 31.
Proof.
  unfold toInt32.
  pose proof (Z.mod_pos_bound (z + 2 ^ 31) (2 ^ 32) ltac:(lia)). lia.
Qed.

Lemma simpleHash_loop_range str : ∀ hash,
  - 2 ^ 31 ≤ hash < 2 ^ 31 → - 2 ^ 31 ≤ simpleHash_loop str hash < 2 ^ 31.
Proof.
  induction str as [|c r IH]; intros hash Hh; [done |].
  simpl. apply IH. apply toInt32_range.
Qed.

Lemma simpleHash_range str : 0 ≤ simpleHash str ≤ 2 ^ 31.
Proof.
  unfold simpleHash.
  pose proof (simpleHash_loop_range str 0 ltac:(lia)). lia.
Qed.

Lemma digit36_upper d : 0 ≤ d < 36 → is_upper36 (upper (digit36 d)) = true.
Proof.
  intros Hd.
  assert (Hall : forallb (λ d, is_upper36 (upper (digit36 d))) (seqZ 0 36) = true)
    by reflexivity.
  rewrite forallb_forall in Hall. apply Hall.
  apply list_elem_of_In, elem_of_seqZ. lia.
Qed.

Lemma toString36_go_length fuel : ∀ n acc k,
  0 ≤ n < 36 ^ k → 1 ≤ k → (1 ≤ fuel)%nat →
  ((String.length acc + 1 ≤ String.length (toString36_go fuel n acc))%nat
   ∧ Z.of_nat (String.length (toString36_go fuel n acc))
     ≤ Z.of_nat (String.length acc) + k).
Proof.
  induction fuel as [|f IH]; intros n acc k Hn Hk Hf; [lia |].
  simpl. destruct (n <? 36) eqn:E.
  - simpl. clear -Hk. split; lia.
  - apply Z.ltb_ge in E.
    destruct f as [|f'].
    + simpl. clear -Hk. split; lia.
    + assert (Hk2 : 2 ≤ k).
      { destruct (decide (k = 1)) as [-> |]; [| lia]. simpl in Hn. lia. }
      destruct (IH (n / 36) (String (digit36 (n mod 36)) acc) (k - 1)) as [H1 H2].
      * split; [apply Z.div_pos; lia |].
        apply Z.div_lt_upper_bound; [lia |].
        replace k with (1 + (k - 1)) in Hn by lia.
        rewrite Z.pow_add_r in Hn by lia. lia.
      * lia.
      * lia.
      * set (r := toString36_go (S f') (n / 36) _) in *.
        simpl in H1, H2. clear -H1 H2. split; lia.
Qed.

Lemma toString36_go_chars fuel : ∀ n acc,
  0 ≤ n →
  Forall (λ c, is_upper36 (upper c) = true) (chars acc) →
  Forall (λ c, is_upper36 (upper c) = true) (chars (toString36_go fuel n acc)).
Proof.
  induction fuel as [|f IH]; intros n acc Hn Hacc; [done |].
  simpl.
  assert (Hd : Forall (λ c, is_upper36 (upper c) = true)
                 (chars (String (digit36 (n mod 36)) acc))).
  { simpl. constructor; [| done]. apply digit36_upper.
    apply Z.mod_pos_bound. lia. }
  destruct (n <? 36); [done |].
  apply IH; [apply Z.div_pos; lia | done].
Qed.

Lemma substring_0_all s : ∀ m, (String.length s ≤ m)%nat → String.substring 0 m s = s.
Proof.
  induction s as [|c r IH]; intros m Hm.
  - by destruct m.
  - destruct m as [|m]; simpl in *; [lia |]. rewrite IH by lia. done.
Qed.

Lemma toUpperCase_length s : String.length (toUpperCase s) = String.length s.
Proof. induction s as [|c r IH]; simpl; [done | by rewrite IH]. Qed.

Lemma toUpperCase_chars s : chars (toUpperCase s) = map upper (chars s).
Proof. induction s as [|c r IH]; simpl; [done | by rewrite IH]. Qed.

(** The stamp of a fingerprint has between one and six characters, all of
    them among 0-9 and A-Z. *)
Lemma fingerprintStamp_shape env :
  (1 ≤ String.length (fingerprintStamp env) ≤ 6)%nat
  ∧ Forall (λ c, is_upper36 c = true) (chars (fingerprintStamp env)).
Proof.
  unfold fingerprintStamp.
  set (hash := simpleHash _).
  pose proof (simpleHash_range
                (env.(navigator_userAgent) +:+ env.(navigator_language)
                 +:+ pretty env.(screen_width) +:+ pretty env.(screen_height)))
    as Hh. fold hash in Hh.
  destruct (toString36_go_length (S (Z.to_nat (Z.log2 hash))) hash EmptyString 6)
    as [H1 H2]; [lia | lia | lia |].
  fold (toString36 hash) in H1, H2. simpl in H1, H2.
  rewrite substring_0_all by lia.
  rewrite toUpperCase_length. split; [lia |].
  rewrite toUpperCase_chars. apply Forall_map.
  apply toString36_go_chars; [lia | constructor].
Qed.

Lemma generateUserStamp_stored env ls existing :
  ls !! "userStamp" = Some existing → existing ≠ "" →
  generateUserStamp env ls = (existing, ls).
Proof.
  intros Hls Hne. unfold generateUserStamp. rewrite Hls.
  apply string_eqb_neq in Hne. by rewrite Hne.
Qed.

Lemma generateUserStamp_fresh env ls :
  ls !! "userStamp" = None ∨ ls !! "userStamp" = Some "" →
  generateUserStamp env ls
  = (fingerprintStamp env, <["userStamp" := fingerprintStamp env]> ls).
Proof. intros [Hls | Hls]; unfold generateUserStamp; by rewrite Hls. Qed.

Lemma fingerprintStamp_nonempty env : fingerprintStamp env ≠ "".
Proof.
  pose proof (fingerprintStamp_shape env) as [Hlen _].
  intros E. rewrite E in Hlen. simpl in Hlen. lia.
Qed.

(** C6, as stated, fails: the fingerprint of a common desktop browser on a
    store without a stamp gives a stamp of five characters. *)
Lemma C6_stamp_of_five_characters :
  (generateUserStamp chrome_env ∅).1 = "727CF"
  ∧ String.length (generateUserStamp chrome_env ∅).1 ≠ 6%nat.
Proof. vm_compute. split; [reflexivity | discriminate]. Qed.

(** C6, amended: the stamp operation is deterministic and stable: the
    stamp it returns is stored, and every later call on that store, in the
    session or after a reload, returns the same stamp and leaves the store
    as it is.  A stored stamp is returned as it is.  When none is stored the
    stamp is computed from the fingerprint and consists of one to six
    characters (no padding is applied), each among 0-9 and A-Z. *)
Theorem C6_stamp_stable_at_most_six (env : Env) (ls : LocalStorage) :
  let stamp := (generateUserStamp env ls).1 in
  let ls' := (generateUserStamp env ls).2 in
  ls' !! "userStamp" = Some stamp
  ∧ (∀ env', generateUserStamp env' ls' = (stamp, ls'))
  ∧ (∀ existing, ls !! "userStamp" = Some existing → existing ≠ "" →
                 stamp = existing ∧ ls' = ls)
  ∧ (ls !! "userStamp" = None ∨ ls !! "userStamp" = Some "" →
     stamp = fingerprintStamp env
     ∧ (1 ≤ String.length stamp ≤ 6)%nat
     ∧ Forall (λ c, is_upper36 c = true) (chars stamp)).
Proof.
  intros stamp ls'. subst stamp ls'.
  destruct (ls !! "userStamp") as [existing|] eqn:Hls;
    [destruct (decide (existing = "")) as [-> | Hne] |].
  - rewrite generateUserStamp_fresh by auto. simpl.
    split; [apply lookup_insert_eq |]. split; [| split].
    + intros env'. apply generateUserStamp_stored;
        [apply lookup_insert_eq | apply fingerprintStamp_nonempty].
    + intros existing [= <-] Hne. done.
    + intros _. split; [done |]. apply fingerprintStamp_shape.
  - rewrite (generateUserStamp_stored env ls existing) by done. simpl.
    split; [done |]. split; [| split].
    + intros env'. by apply generateUserStamp_stored.
    + intros ? [= <-] _. done.
    + intros [? | [= ->]]; done.
  - rewrite generateUserStamp_fresh by auto. simpl.
    split; [apply lookup_insert_eq |]. split; [| split].
    + intros env'. apply generateUserStamp_stored;
        [apply lookup_insert_eq | apply fingerprintStamp_nonempty].
    + intros existing [=].
    + intros _. split; [done |]. apply fingerprintStamp_shape.
Qed.

Lemma C6_stamp_stable_at_most_six_witness :
  let stamp := (generateUserStamp chrome_env ∅).1 in
  let ls' := (generateUserStamp chrome_env ∅).2 in
  (∀ env', generateUserStamp env' ls' = (stamp, ls'))
  ∧ stamp = fingerprintStamp chrome_env
  ∧ (1 ≤ String.length stamp ≤ 6)%nat
  ∧ Forall (λ c, is_upper36 c = true) (chars stamp).
Proof.
  intros stamp ls'.
  destruct (C6_stamp_stable_at_most_six chrome_env ∅) as (_ & Hstable & _ & Hfresh).
  split; [exact Hstable |]. apply Hfresh. left. reflexivity.
Defined.

(* ===================================================================== *)
(** * The average rating                                                   *)
(* ===================================================================== *)

Section rounding.
Import Number.

(** [round_div] is within one half of the exact quotient. *)
Lemma round_div_bound N D :
  0 < D → 0 ≤ N → - D ≤ 2 * (round_div N D * D) - 2 * N ≤ D.
Proof.
  intros HD HN. unfold round_div.
  pose proof (Z.div_mod N D ltac:(lia)) as Hdm.
  pose proof (Z.mod_pos_bound N D HD) as Hr.
  set (q := N / D) in *. set (r := N mod D) in *.
  destruct (2 * r <? D) eqn:E1; [apply Z.ltb_lt in E1; nia |].
  apply Z.ltb_ge in E1.
  destruct (D <? 2 * r) eqn:E2; [apply Z.ltb_lt in E2; nia |].
  apply Z.ltb_ge in E2.
  destruct (Z.even q); nia.
Qed.

Lemma round_div_nonneg N D : 0 < D → 0 ≤ N → 0 ≤ round_div N D.
Proof.
  intros HD HN. unfold round_div.
  pose proof (Z.div_pos N D HN HD).
  repeat destruct (_ <? _); try destruct (Z.even _); lia.
Qed.

(** The exponent of a quotient between 1 and 8 is at most -49, and the
    mantissa is within one half of the scaled exact quotient. *)
Lemma div_pos_spec a b :
  0 < b → b ≤ a → a < 8 * b →
  let '(m, e) := div_pos a b in
  - 53 ≤ e ≤ - 49
  ∧ 0 ≤ m
  ∧ - b ≤ 2 * (m * b) - 2 * (a * 2 ^ (- e)) ≤ b.
Proof.
  intros Hb Hab Ha8. unfold div_pos.
  assert (Hlog : Z.log2 b ≤ Z.log2 a ≤ Z.log2 b + 3).
  { split; [apply Z.log2_le_mono; lia |].
    transitivity (Z.log2 (b * 2 ^ 3)); [apply Z.log2_le_mono; lia |].
    rewrite Z.log2_mul_pow2 by lia. lia. }
  set (e0 := Z.log2 a - Z.log2 b - 53).
  set (e := if 2 ^ 53 <=? scale_num a e0 / scale_den b e0 then e0 + 1 else e0).
  assert (He : - 53 ≤ e ≤ - 49) by (subst e e0; destruct (_ <=? _); lia).
  split; [done |].
  unfold scale_num, scale_den.
  assert ((e <? 0) = true) as -> by (apply Z.ltb_lt; lia).
  assert (0 < 2 ^ (- e)) by (apply Z.pow_pos_nonneg; lia).
  split.
  - apply round_div_nonneg; nia.
  - apply round_div_bound; nia.
Qed.

(** The digits of [toFixed(1)] of a quotient between 1 and 5 are a tenth
    nearest to the exact quotient. *)
Lemma toFixed1_digits_nearest a b :
  0 < b → b < 2 ^ 32 → b ≤ a → a ≤ 5 * b →
  let x := div a b in
  let n := toFixed1_digits x in
  neg x = false
  ∧ 10 ≤ n ≤ 50
  ∧ Z.abs (2 * n * b - 20 * a) ≤ b.
Proof.
  intros Hb Hb32 Hab Ha5. unfold div.
  assert ((a =? 0) = false) as -> by (apply Z.eqb_neq; lia).
  rewrite Z.abs_eq by lia.
  pose proof (div_pos_spec a b Hb Hab ltac:(lia)) as Hspec.
  destruct (div_pos a b) as [m e]. destruct Hspec as (He & Hm & Hbound).
  cbn zeta. unfold toFixed1_digits. cbn [expo mant neg].
  assert ((a <? 0) = false) as -> by (apply Z.ltb_ge; lia).
  split; [done |].
  assert ((e <? 0) = true) as -> by (apply Z.ltb_lt; lia).
  set (E := 2 ^ (- e)) in *.
  assert (HE : 2 ^ 49 ≤ E) by (subst E; apply Z.pow_le_mono_r; lia).
  assert (H2E : 2 ^ (1 - e) = 2 * E).
  { subst E. replace (1 - e) with (1 + - e) by lia.
    rewrite Z.pow_add_r by lia. done. }
  rewrite H2E.
  pose proof (Z.div_mod (20 * m + E) (2 * E) ltac:(lia)) as Hdm.
  pose proof (Z.mod_pos_bound (20 * m + E) (2 * E) ltac:(lia)) as Hr.
  set (n := (20 * m + E) / (2 * E)) in *.
  set (r := (20 * m + E) mod (2 * E)) in *.
  assert (Hn : 20 * a - b ≤ 2 * n * b ≤ 20 * a + b).
  { change (2 ^ 32) with 4294967296 in Hb32.
    change (2 ^ 49) with 562949953421312 in HE.
    split.
    - destruct (decide (20 * a - b ≤ 2 * n * b)) as [|Hc]; [done | exfalso].
      assert (2 * n * b * E ≤ (20 * a - b - 1) * E) by nia.
      assert ((20 * m + E) * b < (2 * E * n + 2 * E) * b) by nia.
      nia.
    - destruct (decide (2 * n * b ≤ 20 * a + b)) as [|Hc]; [done | exfalso].
      assert ((20 * a + b + 1) * E ≤ 2 * n * b * E) by nia.
      assert (2 * E * n * b ≤ (20 * m + E) * b) by nia.
      nia. }
  split; [nia | lia].
Qed.

End rounding.

Lemma chars_inj a b : chars a = chars b → a = b.
Proof.
  revert b. induction a as [|c a IH]; intros [|d b]; simpl; try done.
  intros [= -> Hab]. f_equal. by apply IH.
Qed.

Lemma pretty_digit d : 0 ≤ d < 10 → ∃ c, pretty d = String c EmptyString.
Proof.
  intros Hd.
  assert (Hall : forallb (λ d, match pretty d with
                               | String _ EmptyString => true
                               | _ => false
                               end) (seqZ 0 10) = true) by reflexivity.
  rewrite forallb_forall in Hall.
  specialize (Hall d ltac:(apply list_elem_of_In, elem_of_seqZ; lia)).
  destruct (pretty d) as [|c [|]]; try done. by exists c.
Qed.

(** A text that ends with a point and one digit is not the sentinel. *)
Lemma toFixed1_not_sentinel x : Number.toFixed1 x ≠ "N/A".
Proof.
  unfold Number.toFixed1. set (n := Number.toFixed1_digits x).
  destruct (pretty_digit (n mod 10)) as [c Hc]; [apply Z.mod_pos_bound; lia |].
  rewrite Hc. intros E. apply (f_equal chars) in E.
  rewrite !chars_app in E. simpl in E.
  change ["N"; "/"; "A"]%char with (["N"; "/"] ++ ["A"])%char in E.
  rewrite !app_assoc in E.
  change ("."%char :: [c]) with (["."%char] ++ [c]) in E.
  rewrite !app_assoc in E.
  apply app_inj_tail in E as [E _].
  change ["N"; "/"]%char with (["N"] ++ ["/"])%char in E.
  apply app_inj_tail in E as [_ E]. discriminate.
Qed.

Lemma sum_ratings_bounds (l : list Z) :
  Forall (λ r, 1 ≤ r ≤ 5) l →
  Z.of_nat (length l) ≤ sum_ratings l ≤ 5 * Z.of_nat (length l).
Proof.
  unfold sum_ratings. intros Hl.
  assert (Hgen : ∀ acc, Z.of_nat (length l) + acc ≤ fold_left Z.add l acc
                        ≤ 5 * Z.of_nat (length l) + acc).
  { induction Hl as [|r l Hr _ IH]; intros acc; simpl length; simpl fold_left; [lia |].
    specialize (IH (acc + r)). lia. }
  specialize (Hgen 0). lia.
Qed.

(** C8: [getAverageRating] answers the sentinel N/A exactly when the list
    is missing or empty; it answers 4.0 for [5,4,3] and 5.0 for [5]; and
    for a list of ratings between 1 and 5 (of a length an array can have)
    it answers the decimal numeral, with one decimal, of a tenth [n / 10]
    that is nearest to the arithmetic mean [sum / length]:
    |n / 10 - sum / length| <= 1 / 20, written without fractions as
    |2 n length - 20 sum| <= length. *)
Theorem C8_average_rating (ratings : option (list Z)) :
  (getAverageRating ratings = "N/A" ↔ ratings = None ∨ ratings = Some [])
  ∧ getAverageRating (Some [5; 4; 3]) = "4.0"
  ∧ getAverageRating (Some [5]) = "5.0"
  ∧ getAverageRating (Some []) = "N/A"
  ∧ (∀ l, ratings = Some l → l ≠ [] →
          Forall (λ r, 1 ≤ r ≤ 5) l →
          Z.of_nat (length l) < 2 ^ 32 →
          ∃ n, 10 ≤ n ≤ 50
               ∧ Z.abs (2 * n * Z.of_nat (length l) - 20 * sum_ratings l)
                 ≤ Z.of_nat (length l)
               ∧ getAverageRating ratings
                 = pretty (n / 10) +:+ "." +:+ pretty (n mod 10)).
Proof.
  split; [| split; [reflexivity | split; [reflexivity | split; [reflexivity |]]]].
  - split.
    + destruct ratings as [[|r l]|]; [by right | | by left].
      simpl. intros E. by apply toFixed1_not_sentinel in E.
    + by intros [-> | ->].
  - intros l -> Hne Hl Hlen.
    pose proof (sum_ratings_bounds l Hl) as Hs.
    assert (0 < Z.of_nat (length l)) by (destruct l; [done | simpl; lia]).
    destruct (toFixed1_digits_nearest (sum_ratings l) (Z.of_nat (length l)))
      as (Hneg & Hn & Hmean); [lia .. |].
    exists (Number.toFixed1_digits (Number.div (sum_ratings l) (Z.of_nat (length l)))).
    split; [done |]. split; [done |].
    unfold getAverageRating.
    assert ((length l =? 0)%nat = false) as -> by (apply Nat.eqb_neq; lia).
    unfold Number.toFixed1. by rewrite Hneg.
Qed.

Lemma C8_average_rating_witness :
  ∃ n, 10 ≤ n ≤ 50
       ∧ Z.abs (2 * n * Z.of_nat (length [5; 5; 4]) - 20 * sum_ratings [5; 5; 4])
         ≤ Z.of_nat (length [5; 5; 4])
       ∧ getAverageRating (Some [5; 5; 4])
         = pretty (n / 10) +:+ "." +:+ pretty (n mod 10).
Proof.
  destruct (C8_average_rating (Some [5; 5; 4])) as (_ & _ & _ & _ & Hmean).
  apply (Hmean [5; 5; 4]).
  - reflexivity.
  - discriminate.
  - repeat constructor; lia.
  - vm_compute. reflexivity.
Defined.

(** [Number.div] and the primitive binary64 division agree on every
    quotient of a sum of up to 100 ratings by their number. *)
Example div_agrees_with_binary64 :
  forallb (λ b, forallb (λ a, same_number (binary64_div a b) (Number.div a b))
                  (seqZ 0 (5 * b + 1)))
          (seqZ 1 100) = true.
Proof. vm_compute. reflexivity. Qed.

(* ===================================================================== *)
(** * Sorting                                                              *)
(* ===================================================================== *)

Section sorting.
Context {A : Type} (cmp : A → A → Z).

Lemma sort_insert_perm x l : sort_insert cmp x l ≡ₚ x :: l.
Proof.
  induction l as [|y r IH]; simpl; [done |].
  destruct (cmp x y <=? 0); [done |].
  rewrite IH. apply Permutation_swap.
Qed.

Lemma Array_sort_perm l : Array_sort cmp l ≡ₚ l.
Proof.
  induction l as [|x r IH]; simpl; [done |].
  rewrite sort_insert_perm. by rewrite IH.
Qed.

(** On a list where the comparison is total and transitive, insertion
    keeps a sorted list sorted. *)
Lemma sort_insert_sorted (dom : A → Prop) x l :
  (∀ a b, dom a → dom b → (before cmp) a b ∨ (before cmp) b a) →
  (∀ a b c, dom a → dom b → dom c → (before cmp) a b → (before cmp) b c → (before cmp) a c) →
  dom x → Forall dom l →
  StronglySorted (before cmp) l → StronglySorted (before cmp) (sort_insert cmp x l).
Proof.
  intros Htot Htrans Hx Hl Hs.
  induction Hs as [|y r Hs IH Hy]; simpl.
  - repeat constructor.
  - apply Forall_cons in Hl as [Hdy Hdr].
    destruct (cmp x y <=? 0) eqn:E.
    + apply Z.leb_le in E. constructor; [by constructor |].
      constructor; [done |].
      rewrite Forall_forall in Hy, Hdr. apply Forall_forall. intros z Hz.
      apply (Htrans x y z); auto.
    + apply Z.leb_gt in E. constructor; [by apply IH |].
      rewrite (sort_insert_perm x r). constructor; [| done].
      destruct (Htot x y Hx Hdy) as [Hxy | Hyx]; [unfold before in Hxy; lia | done].
Qed.

Lemma Array_sort_sorted (dom : A → Prop) l :
  (∀ a b, dom a → dom b → (before cmp) a b ∨ (before cmp) b a) →
  (∀ a b c, dom a → dom b → dom c → (before cmp) a b → (before cmp) b c → (before cmp) a c) →
  Forall dom l →
  StronglySorted (before cmp) (Array_sort cmp l).
Proof.
  intros Htot Htrans Hl. induction Hl as [|x r Hx Hr IH]; simpl; [constructor |].
  apply (sort_insert_sorted dom); try done.
  by rewrite Array_sort_perm.
Qed.

End sorting.

(* ===================================================================== *)
(** * Grouping of comments                                                 *)
(* ===================================================================== *)

Lemma hyphen_inside x y : ¬ no_hyphen (x +:+ String "-"%char y).
Proof.
  unfold no_hyphen. rewrite chars_app. simpl.
  rewrite Forall_app, Forall_cons. naive_solver.
Qed.

Lemma split_at_first_hyphen d1 : ∀ d2 r1 r2,
  no_hyphen d1 → no_hyphen d2 →
  d1 +:+ String "-"%char r1 = d2 +:+ String "-"%char r2 → d1 = d2 ∧ r1 = r2.
Proof.
  induction d1 as [|c d1 IH]; intros [|c' d2] r1 r2 H1 H2; simpl.
  - by intros [= ->].
  - intros [= <- _]. by apply Forall_cons in H2 as [? _].
  - intros [= -> _]. by apply Forall_cons in H1 as [? _].
  - intros [= -> E]. apply Forall_cons in H1 as [_ H1]. apply Forall_cons in H2 as [_ H2].
    destruct (IH _ _ _ H1 H2 E) as [-> ->]. done.
Qed.

Lemma split_at_last_hyphen a1 : ∀ a2 s1 s2,
  no_hyphen s1 → no_hyphen s2 →
  a1 +:+ String "-"%char s1 = a2 +:+ String "-"%char s2 → a1 = a2 ∧ s1 = s2.
Proof.
  induction a1 as [|c a1 IH]; intros [|c' a2] s1 s2 H1 H2; simpl.
  - by intros [= ->].
  - intros [= <- ->]. by apply hyphen_inside in H1.
  - intros [= -> <-]. by apply hyphen_inside in H2.
  - intros [= -> E]. destruct (IH _ _ _ H1 H2 E) as [-> ->]. done.
Qed.

Lemma filter_none {A} (P : A → Prop) `{!∀ x, Decision (P x)} (l : list A) :
  (∀ x, x ∈ l → ¬ P x) → filter P l = [].
Proof.
  intros Hl. destruct (filter P l) as [|x r] eqn:E; [done |].
  assert (Hx : x ∈ filter P l) by (rewrite E; left).
  apply list_elem_of_filter in Hx as [HP Hin]. by destruct (Hl x Hin).
Qed.

Lemma filter_ext_in {A} (P1 P2 : A → Prop)
    `{!∀ x, Decision (P1 x), !∀ x, Decision (P2 x)} (l : list A) :
  (∀ x, x ∈ l → (P1 x ↔ P2 x)) → filter P1 l = filter P2 l.
Proof.
  induction l as [|a l IH]; intros Hl; [done |].
  assert (Ha : P1 a ↔ P2 a) by (apply Hl; left).
  assert (Hr : filter P1 l = filter P2 l) by (apply IH; intros x Hx; apply Hl; by right).
  destruct (decide (P1 a)).
  - rewrite !filter_cons_True by naive_solver. by rewrite Hr.
  - rewrite !filter_cons_False by naive_solver. by rewrite Hr.
Qed.

Section grouping_facts.
Context `{Locale}.

Lemma groupKey_triple c : groupKey c = tripleKey (commentTriple c).
Proof. reflexivity. Qed.

Lemma tripleKey_inj t1 t2 :
  no_hyphen t1.1.1 → no_hyphen t1.2 → no_hyphen t2.1.1 → no_hyphen t2.2 →
  tripleKey t1 = tripleKey t2 → t1 = t2.
Proof.
  destruct t1 as [[d1 a1] s1], t2 as [[d2 a2] s2]. unfold tripleKey. simpl.
  intros Hd1 Hs1 Hd2 Hs2 E.
  apply split_at_first_hyphen in E as [-> E]; [| done ..].
  apply split_at_last_hyphen in E as [-> ->]; done.
Qed.

Lemma groups_has_spec key gs : groups_has key gs = true ↔ key ∈ map fst gs.
Proof.
  induction gs as [|[k g] r IH]; simpl.
  - split; [done | by intros ?%elem_of_nil].
  - rewrite orb_true_iff, IH, elem_of_cons, string_eqb_eq. naive_solver.
Qed.

Lemma groups_push_absent key c gs : key ∉ map fst gs → groups_push key c gs = gs.
Proof.
  induction gs as [|[k g] r IH]; simpl; [done |].
  rewrite not_elem_of_cons. intros [Hne Hr].
  apply not_eq_sym, string_eqb_neq in Hne. rewrite Hne. by rewrite IH.
Qed.

Lemma groups_push_app key c gs1 gs2 :
  key ∉ map fst gs1 →
  groups_push key c (gs1 ++ gs2) = gs1 ++ groups_push key c gs2.
Proof.
  induction gs1 as [|[k g] r IH]; simpl; [done |].
  rewrite not_elem_of_cons. intros [Hne Hr].
  apply not_eq_sym, string_eqb_neq in Hne. rewrite Hne. by rewrite IH.
Qed.

Lemma groups_push_map key c gs :
  NoDup (map fst gs) →
  groups_push key c gs
  = map (λ kg, if String.eqb kg.1 key then (kg.1, push_comment c kg.2) else kg) gs.
Proof.
  induction gs as [|[k g] r IH]; simpl; [done |].
  rewrite NoDup_cons. intros [Hk Hr].
  destruct (String.eqb k key) eqn:E.
  - apply string_eqb_eq in E. subst k. f_equal.
    rewrite <- (groups_push_absent key c r) at 1 by done.
    by apply IH.
  - f_equal. by apply IH.
Qed.

Lemma group_ok_other pre c kg :
  groupKey c ≠ kg.1 → group_ok pre kg → group_ok (pre ++ [c]) kg.
Proof.
  intros Hne [Hc (c0 & Hin & Hk & Ht)]. split.
  - rewrite filter_app, filter_cons_False, filter_nil, app_nil_r by done. done.
  - exists c0. rewrite elem_of_app. auto.
Qed.

Lemma groupStep_inv pre gs c :
  groups_inv pre gs → groups_inv (pre ++ [c]) (groupStep gs c).
Proof.
  intros (Hnd & Hok & Hall). unfold groupStep.
  set (key := groupKey c).
  rewrite Forall_forall in Hok.
  destruct (groups_has key gs) eqn:E; simpl.
  - apply groups_has_spec in E.
    rewrite groups_push_map by done.
    set (f := λ kg : string * Group.t,
                if String.eqb kg.1 key then (kg.1, push_comment c kg.2) else kg).
    assert (Hkeys : map fst (map f gs) = map fst gs).
    { rewrite map_map. apply map_ext. intros [k g]. unfold f. simpl.
      by destruct (String.eqb k key). }
    split; [| split].
    + by rewrite Hkeys.
    + apply Forall_map, Forall_forall. intros [k g] Hin.
      specialize (Hok _ Hin). unfold f. simpl.
      destruct (String.eqb k key) eqn:Ek.
      * apply string_eqb_eq in Ek. subst k.
        destruct Hok as [Hc (c0 & Hin0 & Hk & Ht)]. simpl in *. split; simpl.
        -- rewrite filter_app, filter_cons_True, filter_nil by done.
           by rewrite Hc.
        -- exists c0. rewrite elem_of_app. auto.
      * apply string_eqb_neq in Ek. apply group_ok_other; [| done].
        simpl. by apply not_eq_sym.
    + rewrite Hkeys.
      intros c' [Hin | ->%list_elem_of_singleton]%elem_of_app; [by apply Hall | done].
  - assert (Hnot : key ∉ map fst gs).
    { intros Hin. apply groups_has_spec in Hin. congruence. }
    rewrite groups_push_app by done. simpl. rewrite String.eqb_refl.
    split; [| split].
    + rewrite map_app. simpl. apply NoDup_app. split; [done |]. split.
      * intros k Hk ->%list_elem_of_singleton. done.
      * apply NoDup_singleton.
    + apply Forall_app. split.
      * apply Forall_forall. intros [k g] Hin.
        apply group_ok_other; [| by apply Hok]. simpl. intros Ek.
        apply Hnot. fold key in Ek. rewrite Ek.
        by apply (list_elem_of_fmap_2 fst gs (k, g)).
      * apply Forall_singleton. split; simpl.
        -- rewrite filter_app, filter_cons_True, filter_nil by done.
           assert (filter (λ c0, groupKey c0 = key) pre = []) as ->; [| done].
           apply filter_none. intros c0 Hin0 E0. apply Hnot.
           rewrite <- E0. by apply Hall.
        -- exists c. split; [| done]. rewrite elem_of_app, list_elem_of_singleton. auto.
    + rewrite map_app. simpl.
      intros c' [Hin | ->%list_elem_of_singleton]%elem_of_app; rewrite elem_of_app.
      * left. by apply Hall.
      * right. by apply list_elem_of_singleton.
Qed.

Lemma fold_groupStep_inv cs : ∀ pre gs,
  groups_inv pre gs → groups_inv (pre ++ cs) (fold_left groupStep cs gs).
Proof.
  induction cs as [|c cs IH]; intros pre gs Hinv; simpl.
  - by rewrite app_nil_r.
  - rewrite (cons_middle c), app_assoc. apply IH. by apply groupStep_inv.
Qed.

Lemma groups_inv_nil : groups_inv [] [].
Proof.
  split; [constructor |]. split; [constructor |]. by intros c ?%elem_of_nil.
Qed.

Lemma before_group_order a b :
  dated a → dated b → (before compareGroups a b ↔ group_order a b).
Proof.
  intros [ta Ha] [tb Hb]. unfold before, compareGroups, group_order.
  rewrite Ha, Hb. destruct (tb - ta =? 0) eqn:E; simpl.
  - apply Z.eqb_eq in E. split; [intros; right; split; [lia | done] |].
    intros [? | [_ ?]]; [lia | done].
  - apply Z.eqb_neq in E. split; [intros; left; lia |].
    intros [? | [? _]]; lia.
Qed.

Lemma compareGroups_total a b :
  dated a → dated b → before compareGroups a b ∨ before compareGroups b a.
Proof.
  intros Ha Hb. rewrite !before_group_order by done.
  destruct Ha as [ta Ha], Hb as [tb Hb]. unfold group_order. rewrite Ha, Hb.
  destruct (localeCompare_total a.(Group.author) b.(Group.author)); lia.
Qed.

Lemma compareGroups_trans a b c :
  dated a → dated b → dated c →
  before compareGroups a b → before compareGroups b c → before compareGroups a c.
Proof.
  intros Ha Hb Hc. rewrite !before_group_order by done.
  destruct Ha as [ta Ha], Hb as [tb Hb], Hc as [tc Hc].
  unfold group_order. rewrite Ha, Hb, Hc.
  intros [? | [-> Hab]] [? | [-> Hbc]]; try (left; lia).
  right. split; [done |]. by eapply localeCompare_trans.
Qed.

End grouping_facts.

(** C9: [groupCommentsByDateAndUser] is a function of the list and of the
    viewer's locale.  For comments whose time stamps are valid dates and
    whose formatted dates and stamps do not contain the separator of the
    group key: there is exactly one group for each triple (calendar date,
    author, stamp) that occurs, it carries that triple, and its comments are
    the comments of the list with that triple, in the order of the list;
    the groups come most recent date first, and on the same date in the
    ascending order of [localeCompare] on the author. *)
Theorem C9_groups_by_date_author_stamp `{Locale} (comments : list Comment.t) :
  (∀ c, c ∈ comments →
        is_Some (Date_parse (formatDate c.(Comment.timestamp)))
        ∧ no_hyphen (formatDate c.(Comment.timestamp))
        ∧ no_hyphen c.(Comment.stamp)) →
  let groups := groupCommentsByDateAndUser comments in
  (∀ g, g ∈ groups →
        g.(Group.comments) ≠ []
        ∧ g.(Group.comments)
          = filter (λ c, commentTriple c = groupTriple g) comments)
  ∧ NoDup (map groupTriple groups)
  ∧ (∀ c, c ∈ comments → ∃ g, g ∈ groups ∧ commentTriple c = groupTriple g)
  ∧ StronglySorted group_order groups.
Proof.
  intros Hvalid groups.
  pose proof (fold_groupStep_inv comments [] [] groups_inv_nil) as Hinv.
  simpl in Hinv. destruct Hinv as (Hnd & Hok & Hall).
  set (gs := fold_left groupStep comments []) in *.
  assert (Hperm : groups ≡ₚ map snd gs) by apply Array_sort_perm.
  rewrite Forall_forall in Hok.
  (* every group stems from a comment of the list *)
  assert (Hstem : ∀ g, g ∈ groups →
            ∃ k c0, (k, g) ∈ gs ∧ c0 ∈ comments ∧ groupKey c0 = k
                    ∧ groupTriple g = commentTriple c0
                    ∧ g.(Group.comments) = filter (λ c, groupKey c = k) comments).
  { intros g Hg. rewrite Hperm in Hg.
    apply list_elem_of_fmap in Hg as ([k g'] & -> & Hin).
    destruct (Hok _ Hin) as [Hc (c0 & Hin0 & Hk & Ht)].
    exists k, c0. done. }
  assert (Hdated : Forall dated (map snd gs)).
  { apply Forall_forall. intros g Hg. rewrite <- Hperm in Hg.
    destruct (Hstem g Hg) as (k & c0 & _ & Hin0 & _ & Ht & _).
    unfold dated. injection Ht as -> _ _. by apply Hvalid. }
  split; [| split; [| split]].
  - intros g Hg. destruct (Hstem g Hg) as (k & c0 & Hin & Hin0 & Hk & Ht & Hc).
    assert (Hfilter : filter (λ c, groupKey c = k) comments
                      = filter (λ c, commentTriple c = groupTriple g) comments).
    { apply filter_ext_in. intros c Hc'. rewrite Ht, <- Hk, !groupKey_triple. split.
      - destruct (Hvalid c Hc') as (_ & ? & ?), (Hvalid c0 Hin0) as (_ & ? & ?).
        by apply tripleKey_inj.
      - by intros ->. }
    rewrite Hc, Hfilter. split; [| done].
    intros Hnil.
    assert (Hc0 : c0 ∈ filter (λ c, commentTriple c = groupTriple g) comments)
      by (by apply list_elem_of_filter).
    rewrite Hnil in Hc0. by apply elem_of_nil in Hc0.
  - rewrite Hperm. rewrite map_map.
    assert (Hkeys : map fst gs = map (λ kg, tripleKey (groupTriple kg.2)) gs).
    { apply map_ext_in. intros [k g] Hin%list_elem_of_In.
      destruct (Hok _ Hin) as [_ (c0 & _ & Hk & Ht)]. simpl in *.
      by rewrite Ht, <- groupKey_triple. }
    rewrite Hkeys in Hnd.
    rewrite <- (map_map (λ kg, groupTriple kg.2) tripleKey) in Hnd.
    by apply NoDup_fmap_1 in Hnd.
  - intros c Hc. specialize (Hall c Hc).
    apply list_elem_of_fmap in Hall as ([k g] & Hk & Hin). simpl in Hk.
    exists g. split.
    + rewrite Hperm. by apply (list_elem_of_fmap_2 snd gs (k, g)).
    + destruct (Hok _ Hin) as [_ (c0 & Hin0 & Hk0 & Ht)]. simpl in *.
      rewrite Ht. rewrite <- Hk0, !groupKey_triple in Hk.
      destruct (Hvalid c Hc) as (_ & ? & ?), (Hvalid c0 Hin0) as (_ & ? & ?).
      by apply tripleKey_inj.
  - assert (Hsorted : StronglySorted (before compareGroups) groups).
    { apply (Array_sort_sorted compareGroups dated); [| | done].
      - intros a b. apply compareGroups_total.
      - intros a b c. apply compareGroups_trans. }
    assert (Hd : Forall dated groups) by (by rewrite Hperm).
    clear -Hsorted Hd. induction Hsorted as [|g r Hs IH Hg]; [constructor |].
    apply Forall_cons in Hd as [Hdg Hdr]. constructor; [by apply IH |].
    rewrite Forall_forall in Hg, Hdr. apply Forall_forall. intros g' Hg'.
    apply before_group_order; auto.
Qed.

(* ===================================================================== *)
(** * A locale for the examples                                            *)
(* ===================================================================== *)

Module SampleLocaleFacts.
Import SampleLocale.

Lemma localeCompare_le a b : localeCompare a b ≤ 0 ↔ String.le a b.
Proof.
  unfold localeCompare, String.le.
  destruct (String.eqb a b) eqn:E.
  - apply String.eqb_eq in E. subst b. split; [| lia].
    intros _. change (String.le a a). reflexivity.
  - destruct (String.leb a b); simpl; split; try done; lia.
Qed.

Lemma code_unit_order_total a b : localeCompare a b ≤ 0 ∨ localeCompare b a ≤ 0.
Proof.
  rewrite !localeCompare_le.
  destruct (total String.le a b); auto.
Qed.

Lemma code_unit_order_trans a b c :
  localeCompare a b ≤ 0 → localeCompare b c ≤ 0 → localeCompare a c ≤ 0.
Proof. rewrite !localeCompare_le. intros ? ?. by etrans. Qed.

End SampleLocaleFacts.

#[export] Instance sample_locale : Locale := {|
  formatDate := SampleLocale.formatDate;
  Date_parse := SampleLocale.Date_parse;
  localeCompare := SampleLocale.localeCompare;
  localeCompare_total := SampleLocaleFacts.code_unit_order_total;
  localeCompare_trans := SampleLocaleFacts.code_unit_order_trans;
|}.

(** The groups of the sample: the later day first, then Ann before Bob,
    and the two comments of Bob in the order of the list. *)
Example sample_groups :
  map (λ g, (groupTriple g, map Comment.text g.(Group.comments)))
      (groupCommentsByDateAndUser sample_comments)
  = [ (("20240106", "Ann", "727CF"), ["fourth"]);
      (("20240105", "Ann", "727CF"), ["second"]);
      (("20240105", "Bob", "1K2M3N"), ["first"; "third"]) ].
Proof. vm_compute. reflexivity. Qed.

Lemma C9_groups_by_date_author_stamp_witness :
  let groups := groupCommentsByDateAndUser sample_comments in
  (∀ g, g ∈ groups →
        g.(Group.comments) ≠ []
        ∧ g.(Group.comments)
          = filter (λ c, commentTriple c = groupTriple g) sample_comments)
  ∧ NoDup (map groupTriple groups)
  ∧ (∀ c, c ∈ sample_comments → ∃ g, g ∈ groups ∧ commentTriple c = groupTriple g)
  ∧ StronglySorted group_order groups.
Proof.
  apply (C9_groups_by_date_author_stamp sample_comments).
  apply Forall_forall.
  repeat constructor; try discriminate; vm_compute; eexists; reflexivity.
Defined.

(* ===================================================================== *)
(** * storage.js: the maintenance operations                               *)
(* ===================================================================== *)

Lemma startsWith_app p s : startsWith p (p +:+ s) = true.
Proof.
  induction p as [|c p IH]; simpl; [done |].
  by rewrite Ascii.eqb_refl.
Qed.

Lemma substring_from_app p s : substring_from (String.length p) (p +:+ s) = s.
Proof.
  unfold substring_from. rewrite string_length_app.
  replace (String.length p + String.length s - String.length p)%nat
    with (String.length s) by lia.
  induction p as [|c p IH]; simpl; [| exact IH].
  by apply substring_0_all.
Qed.

Lemma startsWith_split p : ∀ s,
  startsWith p s = true → s = p +:+ substring_from (String.length p) s.
Proof.
  induction p as [|c p IH]; intros s Hs.
  - unfold substring_from. simpl. rewrite Nat.sub_0_r.
    by rewrite substring_0_all.
  - destruct s as [|d s]; [done |]. simpl in Hs.
    apply andb_true_iff in Hs as [Hc Hs]. apply Ascii.eqb_eq in Hc as ->.
    simpl. f_equal. rewrite (IH s Hs) at 1. done.
Qed.

Lemma elem_of_Object_keys (ls : LocalStorage) k :
  k ∈ Object_keys ls ↔ is_Some (ls !! k).
Proof.
  unfold Object_keys. rewrite list_elem_of_fmap. split.
  - intros ([k' v] & -> & Hin). apply elem_of_map_to_list in Hin. by exists v.
  - intros [v Hv]. exists (k, v). split; [done |]. by apply elem_of_map_to_list.
Qed.

(** Removing the keys of a list that start with the prefix. *)
Lemma clear_loop_lookup p (keys : list string) : ∀ (ls : LocalStorage) k,
  foldl (λ ls key, if startsWith p key then delete key ls else ls) ls keys !! k
  = if decide (k ∈ keys ∧ startsWith p k = true) then None else ls !! k.
Proof.
  induction keys as [|x keys IH]; intros ls k; cbn [foldl].
  - rewrite decide_False; [done |]. intros [Hin _]. by apply elem_of_nil in Hin.
  - rewrite IH. destruct (decide (k ∈ keys ∧ startsWith p k = true)) as [[Hin Hp]|Hn].
    + rewrite decide_True; [done |]. split; [by right | done].
    + destruct (decide (k = x)) as [->|Hne].
      * destruct (startsWith p x) eqn:Hx.
        -- rewrite lookup_delete_eq. rewrite decide_True; [done |].
           split; [by left | done].
        -- rewrite decide_False; [done |]. intros [_ ?]. congruence.
      * assert (Hl : (if startsWith p x then delete x ls else ls) !! k = ls !! k).
        { destruct (startsWith p x); [by rewrite lookup_delete_ne | done]. }
        rewrite Hl. rewrite decide_False; [done |].
        intros [Hin Hp]. apply Hn. split; [| done].
        apply elem_of_cons in Hin as [? | ?]; [done | done].
Qed.

Lemma clear_lookup fs (ls : LocalStorage) k :
  enabled fs = true →
  clear fs ls !! k = if startsWith (prefix fs) k then None else ls !! k.
Proof.
  intros He. unfold clear. rewrite He. simpl. rewrite clear_loop_lookup.
  destruct (startsWith (prefix fs) k) eqn:Hp.
  - destruct (decide _) as [_|Hn]; [done |].
    destruct (ls !! k) as [v|] eqn:Hk; [| done].
    exfalso. apply Hn. split; [| done]. apply elem_of_Object_keys. by exists v.
  - rewrite decide_False; [done |]. intros [_ ?]. congruence.
Qed.

Lemma elem_of_getAllKeys fs (ls : LocalStorage) key :
  enabled fs = true →
  key ∈ getAllKeys fs ls ↔ is_Some (ls !! (prefix fs +:+ key)).
Proof.
  intros He. unfold getAllKeys. rewrite He. simpl.
  rewrite list_elem_of_fmap. split.
  - intros (k & -> & Hin). apply list_elem_of_filter in Hin as [Hp Hin].
    rewrite <- (startsWith_split _ _ Hp). by apply elem_of_Object_keys.
  - intros Hs. exists (prefix fs +:+ key). split.
    + by rewrite substring_from_app.
    + apply list_elem_of_filter. split; [apply startsWith_app |].
      by apply elem_of_Object_keys.
Qed.

(** X1: a write either takes effect as a whole or not at all.  On an
    available store whose size limit is [quota], [setItem] answers [true]
    exactly when the store with the new entry fits the limit.  Then the
    value is the one that [getItem] reads back under the same key,
    whatever the value and whatever the key held before, and no other key
    of the store, prefixed or not, changes; the store is then the one of
    the model without a limit.  When the entry does not fit, the answer is
    [false] and the store is left as it was, so that the key still reads
    as before. *)
Theorem storage_write_then_read `{JSONCodec} (quota : nat) (fs : FileStorage)
    (ls : LocalStorage) (key : string) (v : json) :
  enabled fs = true →
  let r := setItem_within quota fs ls key v in
  let fits :=
    (storage_size (<[prefix fs +:+ key := JSON_stringify v]> ls) ≤ quota)%nat in
  (r.1 = true ↔ fits)
  ∧ (fits →
     r = setItem fs ls key v
     ∧ getItem fs r.2 key = v
     ∧ (∀ key', key' ≠ key → getItem fs r.2 key' = getItem fs ls key')
     ∧ (∀ raw, raw ≠ prefix fs +:+ key → r.2 !! raw = ls !! raw))
  ∧ (¬ fits → r = (false, ls)).
Proof.
  intros He r fits.
  assert (Hyes : fits → r = setItem fs ls key v).
  { intros Hfit. subst r. unfold setItem_within, setItem, quota_setItem.
    rewrite He. simpl.
    by destruct (Nat.leb_spec
                   (storage_size (<[prefix fs +:+ key := JSON_stringify v]> ls)) quota);
      [| unfold fits in Hfit; lia]. }
  assert (Hno : ¬ fits → r = (false, ls)).
  { intros Hfit. subst r. unfold setItem_within, quota_setItem.
    rewrite He. simpl.
    by destruct (Nat.leb_spec
                   (storage_size (<[prefix fs +:+ key := JSON_stringify v]> ls)) quota). }
  assert (Hok : (setItem fs ls key v).1 = true).
  { unfold setItem. by rewrite He. }
  split; [| split].
  - split.
    + intros Hr. destruct (decide fits) as [Hfit | Hfit]; [done |].
      rewrite (Hno Hfit) in Hr. done.
    + intros Hfit. by rewrite (Hyes Hfit).
  - intros Hfit. split; [by apply Hyes |]. rewrite (Hyes Hfit).
    split; [by apply getItem_setItem |]. split.
    + intros key' Hne. by apply getItem_setItem_ne.
    + intros raw Hne. unfold setItem. rewrite He. simpl.
      by rewrite lookup_insert_ne.
  - exact Hno.
Qed.

Lemma storage_write_then_read_witness :
  let r := setItem_within 64 fileStorage ∅ "ratings.3" (JArr [JNum 5]) in
  let full := setItem_within 16 fileStorage ∅ "ratings.3" (JArr [JNum 5]) in
  (r.1 = true ∧ getItem fileStorage r.2 "ratings.3" = JArr [JNum 5])
  ∧ full = (false, ∅).
Proof.
  intros r full.
  assert (Hfits : (storage_size
                     (<[prefix fileStorage +:+ "ratings.3"
                        := JSON_stringify (JArr [JNum 5])]> (∅ : LocalStorage))
                   ≤ 64)%nat) by (vm_compute; lia).
  assert (Hfull : ¬ (storage_size
                       (<[prefix fileStorage +:+ "ratings.3"
                          := JSON_stringify (JArr [JNum 5])]> (∅ : LocalStorage))
                     ≤ 16)%nat) by (vm_compute; lia).
  split.
  - split.
    + exact (proj2 (proj1 (storage_write_then_read 64 fileStorage ∅ "ratings.3"
                             (JArr [JNum 5]) eq_refl)) Hfits).
    + exact (proj1 (proj2 (proj1 (proj2 (storage_write_then_read 64 fileStorage ∅
                                     "ratings.3" (JArr [JNum 5]) eq_refl)) Hfits))).
  - exact (proj2 (proj2 (storage_write_then_read 16 fileStorage ∅ "ratings.3"
                           (JArr [JNum 5]) eq_refl)) Hfull).
Defined.

Lemma getItem_removeItem `{JSONCodec} (fs : FileStorage) (ls : LocalStorage)
    (key : string) :
  getItem fs (removeItem fs ls key) key = getDefaults key.
Proof.
  apply getItem_default. unfold removeItem.
  destruct (enabled fs) eqn:He; simpl; [| by left].
  right. left. apply lookup_delete_eq.
Qed.

(** X2: after [removeItem] the key reads as its default again ([null] for
    a key outside the table of defaults), whatever was stored under it, and
    the other keys read as before. *)
Theorem storage_remove_then_read `{JSONCodec} (fs : FileStorage) (ls : LocalStorage)
    (key : string) :
  getItem fs (removeItem fs ls key) key = getDefaults key
  ∧ (∀ key', key' ≠ key → getItem fs (removeItem fs ls key) key' = getItem fs ls key').
Proof.
  split; [apply getItem_removeItem |].
  intros key' Hne. unfold removeItem.
  destruct (enabled fs) eqn:He; simpl; [| done].
  unfold getItem. rewrite He. simpl.
  rewrite lookup_delete_ne; [done |].
  intros Heq. apply Hne. symmetry. by apply string_app_inj_l in Heq.
Qed.

(** X3: [clear()] on an available store empties the application's part of
    the store and nothing else: afterwards every key reads as its default
    and [getAllKeys()] is empty, while every raw entry whose key does not
    start with the prefix (the stamp, the nickname, the click history) is
    kept as it is. *)
Theorem clear_removes_exactly_the_prefixed_keys `{JSONCodec} (fs : FileStorage)
    (ls : LocalStorage) :
  enabled fs = true →
  (∀ key, getItem fs (clear fs ls) key = getDefaults key)
  ∧ getAllKeys fs (clear fs ls) = []
  ∧ (∀ raw, startsWith (prefix fs) raw = false → clear fs ls !! raw = ls !! raw)
  ∧ (∀ raw, startsWith (prefix fs) raw = true → clear fs ls !! raw = None).
Proof.
  intros He. split; [| split; [| split]].
  - intros key. apply getItem_default. right. left.
    rewrite clear_lookup by done. by rewrite startsWith_app.
  - destruct (getAllKeys fs (clear fs ls)) as [|k l] eqn:E; [done |].
    assert (Hin : k ∈ getAllKeys fs (clear fs ls)) by (rewrite E; by left).
    apply elem_of_getAllKeys in Hin as [v Hv]; [| done].
    rewrite clear_lookup, startsWith_app in Hv by done. done.
  - intros raw Hp. rewrite clear_lookup by done. by rewrite Hp.
  - intros raw Hp. rewrite clear_lookup by done. by rewrite Hp.
Qed.

Lemma clear_removes_exactly_the_prefixed_keys_witness :
  let ls : LocalStorage :=
    <["breakthroughIdeas_comments.1" := "x"]> (<["userStamp" := "727CF"]> ∅) in
  (∀ key, getItem fileStorage (clear fileStorage ls) key = getDefaults key)
  ∧ getAllKeys fileStorage (clear fileStorage ls) = []
  ∧ (∀ raw, startsWith (prefix fileStorage) raw = false →
            clear fileStorage ls !! raw = ls !! raw)
  ∧ (∀ raw, startsWith (prefix fileStorage) raw = true →
            clear fileStorage ls !! raw = None).
Proof.
  intros ls. apply (clear_removes_exactly_the_prefixed_keys fileStorage ls).
  reflexivity.
Defined.


Lemma storage_size_insert (ls : LocalStorage) k v :
  storage_size (<[k := v]> ls)
  = (String.length k + String.length v + storage_size (delete k ls))%nat.
Proof.
  unfold storage_size. rewrite <- insert_delete_eq.
  rewrite map_fold_insert_L; [done | | apply lookup_delete_eq].
  intros. lia.
Qed.

Lemma repeat_a_length n : String.length (repeat_a n) = Z.to_nat n.
Proof.
  unfold repeat_a. induction (Z.to_nat n) as [|m IH]; simpl; [done | by f_equal].
Qed.

Lemma quota_setItem_fits quota (ls ls' : LocalStorage) testKey mid :
  0 ≤ mid →
  delete testKey ls' = delete testKey ls →
  quota_setItem quota ls' testKey (repeat_a mid)
  = if mid <=? free_space quota testKey ls
    then Some (<[testKey := repeat_a mid]> ls') else None.
Proof.
  intros Hm Hd. unfold quota_setItem, free_space.
  rewrite storage_size_insert, repeat_a_length, Hd.
  destruct (Nat.leb_spec
              (String.length testKey + Z.to_nat mid
               + storage_size (delete testKey ls)) quota);
    destruct (Z.leb_spec mid
                (Z.of_nat quota - Z.of_nat (storage_size (delete testKey ls))
                 - Z.of_nat (String.length testKey))); try done; lia.
Qed.

Lemma getRemainingSpace_loop_spec quota testKey (ls : LocalStorage) (fuel : nat) :
  ∀ low high remaining ls',
    let free := free_space quota testKey ls in
    0 ≤ low ≤ high + 1 →
    high ≤ 10000000 →
    high - low + 1 < 2 ^ Z.of_nat fuel →
    (low = 0 ∧ remaining = 0 ∧ ls' = ls
     ∨ 0 < low ∧ remaining = low - 1 ∧ low - 1 ≤ free ∧ ls' = delete testKey ls) →
    (high < 10000000 → free < high + 1) →
    getRemainingSpace_loop quota testKey fuel low high remaining ls'
    = if free <? 0 then (0, ls) else (Z.min free 10000000, delete testKey ls).
Proof.
  induction fuel as [|fuel IH]; intros low high remaining ls' free Hlow Hhigh Hfuel Hinv Hup.
  - simpl in *. assert (low = high + 1) by lia.
    destruct Hinv as [(-> & -> & ->) | (Hpos & -> & Hfit & ->)].
    + destruct (Z.ltb_spec free 0); [done | lia].
    + destruct (Z.ltb_spec free 0); [lia |]. f_equal. lia.
  - cbn [getRemainingSpace_loop].
    destruct (Z.leb_spec low high) as [Hle | Hgt].
    + assert (Hmid : low ≤ (low + high) / 2 ≤ high).
      { split; [apply Z.div_le_lower_bound | apply Z.div_le_upper_bound]; lia. }
      assert (Hd : delete testKey ls' = delete testKey ls).
      { destruct Hinv as [(_ & _ & ->) | (_ & _ & _ & ->)]; [done |].
        by rewrite delete_delete_eq. }
      rewrite (quota_setItem_fits quota ls ls') by (done || lia).
      fold free.
      assert (Hpow : 2 ^ Z.of_nat (S fuel) = 2 * 2 ^ Z.of_nat fuel).
      { rewrite Nat2Z.inj_succ, Z.pow_succ_r by lia. done. }
      destruct (Z.leb_spec ((low + high) / 2) free) as [Hfit | Hno].
      * apply IH; try lia.
        -- assert (low + high - 1 ≤ 2 * ((low + high) / 2)).
           { pose proof (Z.mod_pos_bound (low + high) 2 ltac:(lia)).
             pose proof (Z.div_mod (low + high) 2 ltac:(lia)). lia. }
           lia.
        -- right. split; [lia |]. split; [lia |]. split; [lia |].
           rewrite delete_insert_eq. exact Hd.
      * apply IH; try lia.
        -- assert (2 * ((low + high) / 2) ≤ low + high).
           { pose proof (Z.mod_pos_bound (low + high) 2 ltac:(lia)).
             pose proof (Z.div_mod (low + high) 2 ltac:(lia)). lia. }
           lia.
        -- destruct Hinv as [(-> & -> & ->) | (Hpos & -> & Hf & ->)];
             [left; done | right; repeat split; (done || lia)].
    + assert (low = high + 1) by lia.
      destruct Hinv as [(-> & -> & ->) | (Hpos & -> & Hfit & ->)].
      * destruct (Z.ltb_spec free 0); [done | lia].
      * destruct (Z.ltb_spec free 0); [lia |]. f_equal. lia.
Qed.

(** X5: [getRemainingSpace()] measures the room that is left, up to its
    ceiling of 10000000: with [free] the quota less the size of every
    entry but the probe's and less the probe's key, the binary search
    returns 0 when not even the empty probe fits and otherwise the smaller
    of [free] and 10000000; the loop ends by its own test.  A store in
    which a probe succeeded is left without an entry for the application
    key [__test__]; on an unavailable store the answer is 0. *)
Theorem getRemainingSpace_measures_free_space (quota : nat) (fs : FileStorage)
    (ls : LocalStorage) :
  let testKey := prefix fs +:+ "__test__" in
  let free := free_space quota testKey ls in
  getRemainingSpace quota fs ls
  = if negb (enabled fs) then (0, ls)
    else if free <? 0 then (0, ls)
    else (Z.min free 10000000, delete testKey ls).
Proof.
  intros testKey free. unfold getRemainingSpace.
  destruct (negb (enabled fs)); [done |].
  apply getRemainingSpace_loop_spec; try lia.
  left. done.
Qed.

(* ===================================================================== *)
(** * Construction of the session                                          *)
(* ===================================================================== *)

Lemma pretty_N_go_length x : ∀ s,
  (String.length s ≤ String.length (pretty_N_go x s))%nat.
Proof.
  induction (N.lt_wf_0 x) as [x _ IH]; intros s.
  assert (x = 0 ∨ 0 < x)%N as [-> | Hx] by lia; [by rewrite pretty_N_go_0 |].
  rewrite pretty_N_go_step by done.
  etrans; [| apply IH; by apply N.div_lt]. simpl. lia.
Qed.

Lemma pretty_Z_nonempty (z : Z) : pretty z ≠ "".
Proof.
  assert (Hp : ∀ p : positive, pretty p ≠ "").
  { intros p Hp. unfold pretty, pretty_positive, pretty, pretty_N in Hp.
    rewrite decide_False in Hp by done.
    rewrite pretty_N_go_step in Hp by lia.
    pose proof (pretty_N_go_length (N.pos p `div` 10)
                  (String (pretty_N_char (N.pos p `mod` 10)) "")) as Hl.
    rewrite Hp in Hl. simpl in Hl. lia. }
  destruct z as [|p|p]; unfold pretty, pretty_Z; [done | apply Hp | done].
Qed.

Section raw_keys.
Context `{JSONCodec}.

Lemma keeps_raw_keys_ret {A} (a : A) : keeps_raw_keys (ret a).
Proof. intros w. simpl. done. Qed.

Lemma keeps_raw_keys_throw {A} e : keeps_raw_keys (@throw A e).
Proof. intros w. simpl. done. Qed.

Lemma keeps_raw_keys_bind {A B} (m : js A) (k : A → js B) :
  keeps_raw_keys m → (∀ a, keeps_raw_keys (k a)) → keeps_raw_keys (bind m k).
Proof.
  intros Hm Hk w. rewrite bind_run. specialize (Hm w). simpl in Hm.
  destruct (m w) as [[a | e] w1]; simpl in *; [| exact Hm].
  specialize (Hk a w1). simpl in Hk.
  destruct Hm as (Hraw & Hst & Hsp & Hn & Hsd).
  destruct Hk as (Hraw' & Hst' & Hsp' & Hn' & Hsd').
  repeat split; try congruence.
  intros raw Hp. rewrite Hraw' by (by rewrite Hst). by apply Hraw.
Qed.

Lemma keeps_raw_keys_readonly {A} (m : js A) : readonly m → keeps_raw_keys m.
Proof. intros Hr w. rewrite Hr. done. Qed.

Lemma readonly_this : readonly this.
Proof. done. Qed.

Lemma readonly_storage_getItem key : readonly (storage_getItem key).
Proof. done. Qed.

Lemma readonly_Array_push a x : readonly (Array_push a x).
Proof. destruct a; done. Qed.

Lemma readonly_Array_findIndex p a :
  (∀ u, readonly (p u)) → readonly (Array_findIndex p a).
Proof.
  intros Hp. destruct a; try done. by apply readonly_findIndex_list.
Qed.

Lemma keeps_raw_keys_storage_setItem key v : keeps_raw_keys (storage_setItem key v).
Proof.
  intros w. rewrite storage_setItem_run. simpl. repeat split.
  intros raw Hp. unfold setItem.
  destruct (negb (enabled (UserSession.storage (userSession w)))); [done |].
  simpl. rewrite lookup_insert_ne; [done |].
  intros <-. by rewrite startsWith_app in Hp.
Qed.

Lemma keeps_raw_keys_set_this_userDetails d : keeps_raw_keys (set_this_userDetails d).
Proof. intros w. simpl. done. Qed.

Lemma keeps_raw_keys_set_tracker t : keeps_raw_keys (set_tracker t).
Proof. intros w. simpl. done. Qed.

Lemma keeps_raw_keys_logActivity action data iso :
  keeps_raw_keys (logActivity action data iso).
Proof.
  unfold logActivity.
  apply keeps_raw_keys_bind;
    [apply keeps_raw_keys_readonly, readonly_storage_getItem | intros stored].
  apply keeps_raw_keys_bind; [apply keeps_raw_keys_readonly, readonly_this | intros self].
  apply keeps_raw_keys_bind;
    [apply keeps_raw_keys_readonly, readonly_Array_push | intros logs].
  apply keeps_raw_keys_bind; [apply keeps_raw_keys_storage_setItem | intros _].
  apply keeps_raw_keys_ret.
Qed.

Lemma keeps_raw_keys_saveUserDetails details lastActive logISO :
  keeps_raw_keys (saveUserDetails details lastActive logISO).
Proof.
  unfold saveUserDetails.
  apply keeps_raw_keys_bind; [apply keeps_raw_keys_readonly, readonly_this | intros self].
  apply keeps_raw_keys_bind; [apply keeps_raw_keys_set_this_userDetails | intros _].
  apply keeps_raw_keys_bind; [apply keeps_raw_keys_storage_setItem | intros _].
  apply keeps_raw_keys_bind;
    [apply keeps_raw_keys_readonly, readonly_storage_getItem | intros stored].
  apply keeps_raw_keys_bind.
  { apply keeps_raw_keys_readonly, readonly_Array_findIndex. intros u.
    apply readonly_bind; [apply readonly_get_prop | intros s; apply readonly_ret]. }
  intros userIndex.
  apply keeps_raw_keys_bind.
  { apply keeps_raw_keys_readonly.
    destruct userIndex as [i|]; [| apply readonly_Array_push].
    destruct (js_or stored (JArr [])); try apply readonly_Array_push.
    apply readonly_ret. }
  intros allUsers.
  apply keeps_raw_keys_bind; [apply keeps_raw_keys_storage_setItem | intros _].
  apply keeps_raw_keys_logActivity.
Qed.

End raw_keys.
Section session_construction_facts.
Context `{JSONCodec}.

Lemma initializeSession_session env w :
  userSession (initializeSession env w).2 = userSession w.
Proof.
  unfold initializeSession, checkReturningUser.
  rewrite bind_run. unfold localStorage_setItem at 1. cbv beta iota.
  rewrite bind_run. unfold localStorage_getItem at 1. cbv beta iota.
  rewrite bind_run. unfold this at 1. cbv beta iota.
  match goal with |- userSession (logActivity ?a ?d ?i ?w0).2 = _ =>
    destruct (logActivity_world w0 a d i) as [[e ->] | [logs ->]] end; done.
Qed.

Lemma new_FileStorage_true ls :
  new_FileStorage true ls
  = (fileStorage, delete "__storage_test__" (<["__storage_test__" := "__storage_test__"]> ls)).
Proof. done. Qed.

Lemma lookup_after_probe (ls : LocalStorage) raw :
  raw ≠ "__storage_test__" →
  delete "__storage_test__" (<["__storage_test__" := "__storage_test__"]> ls) !! raw
  = ls !! raw.
Proof. intros Hne. rewrite lookup_delete_ne, lookup_insert_ne; done. Qed.

Lemma generateUserStamp_lookup env (ls : LocalStorage) raw :
  raw ≠ "userStamp" → (generateUserStamp env ls).2 !! raw = ls !! raw.
Proof.
  intros Hne. unfold generateUserStamp.
  destruct (ls !! "userStamp") as [existing|]; [destruct (String.eqb existing "") |];
    simpl; rewrite ?lookup_insert_ne; done.
Qed.

Lemma generateUserStamp_depends env (ls ls' : LocalStorage) :
  ls !! "userStamp" = ls' !! "userStamp" →
  (generateUserStamp env ls).1 = (generateUserStamp env ls').1.
Proof.
  intros Heq. unfold generateUserStamp. rewrite <- Heq.
  destruct (ls !! "userStamp") as [existing|]; [destruct (String.eqb existing "") |];
    done.
Qed.

End session_construction_facts.
Section reload.
Context `{JSONCodec}.

(** The session that the constructor builds is read off three raw keys. *)
Lemma new_UserSession_session env sessionData (ls : LocalStorage) :
  constructed_session (new_UserSession env sessionData ls)
  = match JSON_parse (text_or (ls !! "userDetails") "{}") with
    | None => None
    | Some userDetails =>
        Some {| UserSession.storage := fileStorage;
                UserSession.stamp := (generateUserStamp env ls).1;
                UserSession.nickname := text_or_null (ls !! "userNickname");
                UserSession.userDetails := own_props userDetails;
                UserSession.sessionData := sessionData |}
    end.
Proof.
  unfold new_UserSession. rewrite new_FileStorage_true.
  set (ls1 := delete "__storage_test__" _).
  assert (Hst : (generateUserStamp env ls1).1 = (generateUserStamp env ls).1).
  { apply generateUserStamp_depends. by apply lookup_after_probe. }
  assert (Hk : ∀ raw, raw ≠ "userStamp" → raw ≠ "__storage_test__" →
                      (generateUserStamp env ls1).2 !! raw = ls !! raw).
  { intros raw H1 H2. rewrite generateUserStamp_lookup by done.
    by apply lookup_after_probe. }
  destruct (generateUserStamp env ls1) as [stamp ls2]. simpl in Hst, Hk.
  rewrite !Hk by done.
  destruct (JSON_parse (text_or (ls !! "userDetails") "{}")) as [ud|]; [| done].
  simpl. rewrite initializeSession_session. simpl. by rewrite Hst.
Qed.

End reload.

(** X7: the log entry that the start of a session writes always carries
    [isReturningUser: true], also on the first visit to an empty store:
    [checkReturningUser] records the visit under the raw key [lastVisit]
    before the flag is computed from that key. *)
Theorem session_start_always_logs_a_returning_user `{JSONCodec} (env : Env)
    (w : World) (l0 : list json) :
  standard_storage w →
  js_or (stored w "logs._activity_logs") (JArr []) = JArr l0 →
  ∃ w',
    initializeSession env w = (Ok (), w')
    ∧ localStorage w' !! "lastVisit" = Some (pretty (env.(Date_now) 1%nat))
    ∧ stored w' "logs._activity_logs"
      = JArr (keep_last_1000
                (l0 ++ [logEntry (userSession w) "session_initialized"
                          (JObj [ ("isReturningUser", JBool true);
                                  ("hasNickname",
                                   JBool (truthy_text
                                            (UserSession.nickname (userSession w)))) ])
                          (env.(toISOString) 0%nat)])).
Proof.
  intros Hs Hl. unfold initializeSession, checkReturningUser.
  rewrite bind_run. unfold localStorage_setItem at 1. cbv beta iota.
  change {| localStorage := <["lastVisit" := pretty (Date_now env 1)]> (localStorage w);
            userSession := userSession w;
            rateLimitTracker := rateLimitTracker w |}
    with (after_raw_setItem w "lastVisit" (pretty (Date_now env 1))).
  set (w1 := after_raw_setItem w "lastVisit" (pretty (Date_now env 1))).
  assert (Hst : ∀ key, stored w1 key = stored w key).
  { intros key. apply stored_after_raw_setItem. rewrite Hs. done. }
  rewrite bind_run. unfold localStorage_getItem at 1. cbv beta iota.
  rewrite bind_run. unfold this at 1. cbv beta iota.
  assert (Hlv : localStorage w1 !! "lastVisit" = Some (pretty (Date_now env 1)))
    by apply lookup_insert_eq.
  rewrite Hlv. unfold truthy_text at 1.
  destruct (String.eqb_spec (pretty (Date_now env 1)) "") as [He | _];
    [by apply pretty_Z_nonempty in He |].
  rewrite (logActivity_run w1 _ _ _ l0) by (by rewrite Hst).
  eexists. split; [reflexivity |]. split.
  - assert (Hs1 : UserSession.storage (userSession w1) = fileStorage) by exact Hs.
    unfold after_setItem, setItem. rewrite Hs1. simpl.
    rewrite lookup_insert_ne by done. exact Hlv.
  - rewrite stored_after_setItem; [done |]. by apply (standard_enabled w).
Qed.

Lemma session_start_always_logs_a_returning_user_witness :
  let w := newWorld ∅ "727CF" in
  ∃ w',
    initializeSession chrome_env w = (Ok (), w')
    ∧ localStorage w' !! "lastVisit" = Some (pretty (chrome_env.(Date_now) 1%nat))
    ∧ stored w' "logs._activity_logs"
      = JArr (keep_last_1000
                ([] ++ [logEntry (userSession w) "session_initialized"
                          (JObj [ ("isReturningUser", JBool true);
                                  ("hasNickname",
                                   JBool (truthy_text
                                            (UserSession.nickname (userSession w)))) ])
                          (chrome_env.(toISOString) 0%nat)])).
Proof.
  intros w.
  apply (session_start_always_logs_a_returning_user chrome_env w []); reflexivity.
Defined.

(** X8: a nickname outlives the page.  When [setNickname] is called with
    a name that is not blank, in a session whose stamp is the stored one,
    a session constructed afterwards on the resulting store carries the
    same stamp and the nickname that [setNickname] returned. *)
Theorem nickname_and_stamp_survive_reload `{JSONCodec} (env : Env)
    (sessionData : json) (w : World) (nickname : string) (users : list json) :
  localStorage w !! "userStamp" = Some (UserSession.stamp (userSession w)) →
  UserSession.stamp (userSession w) ≠ "" →
  raw_allUsers w = Some (JArr users) →
  no_null users →
  trim nickname ≠ "" →
  is_Some (JSON_parse (text_or (localStorage w !! "userDetails") "{}")) →
  ∃ nick w1 w2,
    setNickname nickname w = (Ok nick, w1)
    ∧ new_UserSession env sessionData (localStorage w1) = Ok w2
    ∧ UserSession.stamp (userSession w2) = UserSession.stamp (userSession w)
    ∧ UserSession.nickname (userSession w2) = Some nick.
Proof.
  intros Hstamp Hne Hraw Hnn Hnick [ud Hud].
  pose proof (setNickname_run w nickname users Hraw Hnn) as Hrun. simpl in Hrun.
  set (nick := uniqueNickname users (UserSession.stamp (userSession w)) nickname) in *.
  set (w1 := after_raw_setItem (with_nickname w (Some nick)) "userNickname" nick) in *.
  assert (Hnick' : nick ≠ "").
  { unfold nick, uniqueNickname. destruct (existsb _ _); [| done].
    destruct (trim nickname); [done | done]. }
  assert (Hls : localStorage w1 = <["userNickname" := nick]> (localStorage w)) by done.
  pose proof (new_UserSession_session env sessionData (localStorage w1)) as Hsess.
  rewrite Hls in Hsess. rewrite lookup_insert_ne in Hsess by done.
  rewrite Hud, lookup_insert_eq in Hsess.
  destruct (new_UserSession env sessionData (<["userNickname" := nick]> (localStorage w)))
    as [w2 | e] eqn:Hnew; [| done].
  simpl in Hsess. injection Hsess as Hsess.
  exists nick, w1, w2. split; [exact Hrun |]. split; [by rewrite Hls |].
  rewrite Hsess. simpl. split.
  - unfold generateUserStamp. rewrite lookup_insert_ne by done. rewrite Hstamp.
    by destruct (String.eqb_spec (UserSession.stamp (userSession w)) "").
  - unfold text_or_null, truthy_text.
    by destruct (String.eqb_spec nick "").
Qed.

Lemma nickname_and_stamp_survive_reload_witness :
  let w := newWorld (<["userStamp" := "727CF"]> ∅) "727CF" in
  ∃ nick w1 w2,
    setNickname " Ann " w = (Ok nick, w1)
    ∧ new_UserSession chrome_env (JObj []) (localStorage w1) = Ok w2
    ∧ UserSession.stamp (userSession w2) = UserSession.stamp (userSession w)
    ∧ UserSession.nickname (userSession w2) = Some nick.
Proof.
  intros w.
  apply (nickname_and_stamp_survive_reload chrome_env (JObj []) w " Ann " []).
  - reflexivity.
  - discriminate.
  - reflexivity.
  - constructor.
  - vm_compute. discriminate.
  - vm_compute. eexists. reflexivity.
Defined.

(** X9: the details that [saveUserDetails] stores are not the details that
    the constructor reads.  [saveUserDetails] changes no raw entry of the
    browser store outside the prefix (it writes [users.details],
    [users.allUsers] and the log through the store object), whereas the
    constructor takes the stamp, the nickname and the details from the raw
    keys [userStamp], [userNickname] and [userDetails]; hence the session
    constructed on the store after a call is the session constructed on
    the store before it, whatever details were saved. *)
Theorem saved_details_do_not_reach_the_next_session `{JSONCodec} (env : Env)
    (sessionData : json) (w : World) (details : list (string * json))
    (lastActive logISO : string) :
  standard_storage w →
  let w1 := (saveUserDetails details lastActive logISO w).2 in
  (∀ raw, startsWith "breakthroughIdeas_" raw = false →
          localStorage w1 !! raw = localStorage w !! raw)
  ∧ constructed_session (new_UserSession env sessionData (localStorage w1))
    = constructed_session (new_UserSession env sessionData (localStorage w)).
Proof.
  intros Hs w1.
  pose proof (keeps_raw_keys_saveUserDetails details lastActive logISO w) as Hk.
  simpl in Hk. destruct Hk as (Hraw & _). rewrite Hs in Hraw. simpl in Hraw.
  fold w1 in Hraw. split; [exact Hraw |].
  rewrite !new_UserSession_session.
  rewrite !(Hraw "userDetails"), !(Hraw "userNickname") by done.
  rewrite (generateUserStamp_depends env (localStorage w1) (localStorage w));
    [done |]. by apply Hraw.
Qed.

Lemma saved_details_do_not_reach_the_next_session_witness :
  let w := newWorld ∅ "727CF" in
  let w1 := (saveUserDetails [("email", JStr "ann@example.org")]
               "2024-01-05T10:00:00.000Z" "2024-01-05T10:00:00.001Z" w).2 in
  (∀ raw, startsWith "breakthroughIdeas_" raw = false →
          localStorage w1 !! raw = localStorage w !! raw)
  ∧ constructed_session (new_UserSession chrome_env (JObj []) (localStorage w1))
    = constructed_session (new_UserSession chrome_env (JObj []) (localStorage w)).
Proof.
  intros w.
  apply (saved_details_do_not_reach_the_next_session chrome_env (JObj []) w
           [("email", JStr "ann@example.org")]
           "2024-01-05T10:00:00.000Z" "2024-01-05T10:00:00.001Z").
  reflexivity.
Defined.

(** The scenario on an empty store: the session that saved an e-mail
    address carries it, the session constructed on the same store
    afterwards carries no details. *)
Example reload_forgets_the_saved_details :
  let w1 := (saveUserDetails [("email", JStr "ann@example.org")]
               "2024-01-05T10:00:00.000Z" "2024-01-05T10:00:00.001Z"
               (newWorld ∅ "727CF")).2 in
  UserSession.userDetails (userSession w1) = [("email", JStr "ann@example.org")]
  ∧ UserSession.userDetails <$>
      constructed_session (new_UserSession chrome_env (JObj []) (localStorage w1))
    = Some [].
Proof. vm_compute. done. Qed.

(** X10: without a usable store a rating is accepted and lost.  When the
    session's store object is disabled and the cooldown has elapsed,
    [rateProject] runs to completion (the success path), records the time
    of the rating in the tracker and leaves the browser store and the
    session as they were: nothing is stored, and the ratings of the project
    still read as their default. *)
Theorem rating_is_lost_without_storage `{JSONCodec} (has : option json → bool)
    (env : Env) (projectId rating : Z) (w : World) :
  enabled (UserSession.storage (userSession w)) = false →
  APP_CONFIG.RATE_LIMITING.RATING_COOLDOWN
    ≤ env.(Date_now) 0%nat - w.(rateLimitTracker).(lastRatingTime) →
  rateProject has env projectId rating w
  = (Completed,
     with_tracker w
       {| lastCommentTime := w.(rateLimitTracker).(lastCommentTime);
          lastRatingTime := env.(Date_now) 0%nat;
          lastProjectTime := w.(rateLimitTracker).(lastProjectTime) |})
  ∧ stored (rateProject has env projectId rating w).2
      ("ratings." +:+ pretty projectId)
    = JNull.
Proof.
  intros He Hcool.
  assert (Hget : ∀ key, stored w key = getDefaults key).
  { intros key. apply getItem_default. by left. }
  assert (Hset : ∀ key v, after_setItem w key v = w).
  { intros key v. unfold after_setItem, with_localStorage, setItem.
    rewrite He. simpl. by destruct w. }
  assert (Hrun : rateProject has env projectId rating w
                 = (Completed,
                    with_tracker w
                      {| lastCommentTime := w.(rateLimitTracker).(lastCommentTime);
                         lastRatingTime := env.(Date_now) 0%nat;
                         lastProjectTime := w.(rateLimitTracker).(lastProjectTime) |})).
  { unfold rateProject.
    destruct (Z.ltb_spec (Date_now env 0 - lastRatingTime (rateLimitTracker w))
                APP_CONFIG.RATE_LIMITING.RATING_COOLDOWN); [lia |].
    rewrite try_catch_bind. unfold storage_getItem at 1. cbv beta iota.
    fold (stored w ("ratings." +:+ pretty projectId)).
    rewrite Hget, getDefaults_ratings.
    change (js_or JNull (JArr [])) with (JArr []).
    rewrite try_catch_bind. unfold Array_push at 1, ret at 1. cbv beta iota.
    rewrite try_catch_bind, storage_setItem_run, Hset. cbv beta iota.
    rewrite try_catch_bind.
    rewrite (logActivity_run w _ _ _ []) by (by rewrite Hget).
    rewrite Hset. rewrite try_catch_bind. unfold get_tracker at 1. cbv beta iota.
    rewrite record_and_refresh.
    rewrite (after_refresh_on_lists has _ [] []);
      [done | by rewrite stored_with_tracker, Hget ..]. }
  split; [exact Hrun |]. rewrite Hrun. simpl.
  rewrite stored_with_tracker, Hget. apply getDefaults_ratings.
Qed.

Lemma rating_is_lost_without_storage_witness :
  let w := {| localStorage := ∅;
              userSession :=
                {| UserSession.storage := (new_FileStorage false ∅).1;
                   UserSession.stamp := "727CF";
                   UserSession.nickname := None;
                   UserSession.userDetails := [];
                   UserSession.sessionData := JObj [] |};
              rateLimitTracker := initial_tracker |} in
  rateProject (λ _, false) chrome_env 1 5 w
  = (Completed,
     with_tracker w
       {| lastCommentTime := w.(rateLimitTracker).(lastCommentTime);
          lastRatingTime := chrome_env.(Date_now) 0%nat;
          lastProjectTime := w.(rateLimitTracker).(lastProjectTime) |})
  ∧ stored (rateProject (λ _, false) chrome_env 1 5 w).2 ("ratings." +:+ pretty 1)
    = JNull.
Proof.
  intros w. apply (rating_is_lost_without_storage (λ _, false) chrome_env 1 5 w).
  - reflexivity.
  - vm_compute. discriminate.
Defined.
(* ===================================================================== *)
(** * utils.js: sanitizeInput, and the validation of comments              *)
(* ===================================================================== *)

Lemma entityMap_length c e : entityMap c = Some e → (4 ≤ String.length e ≤ 6)%nat.
Proof.
  unfold entityMap.
  repeat (destruct (Ascii.eqb c _); [intros [= <-]; simpl; lia |]). done.
Qed.

Lemma sanitizeInput_length s :
  (String.length s ≤ String.length (sanitizeInput s) ≤ 6 * String.length s)%nat.
Proof.
  induction s as [|c s IH]; simpl; [lia |].
  destruct (entityMap c) as [e|] eqn:E; [| simpl; lia].
  rewrite string_length_app. apply entityMap_length in E. lia.
Qed.

Lemma sanitizeInput_plain s : sanitizeInput s = s ↔ plain_text s.
Proof.
  unfold plain_text. split.
  - induction s as [|c s IH]; simpl; [constructor |].
    destruct (entityMap c) as [e|] eqn:E.
    + intros Heq. exfalso.
      assert (Hl : String.length (e +:+ sanitizeInput s) = S (String.length s))
        by (by rewrite Heq).
      rewrite string_length_app in Hl. apply entityMap_length in E.
      pose proof (sanitizeInput_length s). lia.
    + intros [= Heq]. constructor; [by apply entityMap_None | by apply IH].
  - induction s as [|c s IH]; simpl; [done |].
    intros Hall. apply Forall_cons in Hall as [Hc Hs].
    apply entityMap_None in Hc. rewrite Hc.
    f_equal. by apply IH.
Qed.

Lemma entity_head c e :
  entityMap c = Some e → ∃ t, e = String "&"%char t ∧ entityMap "&"%char = Some "&amp;".
Proof.
  unfold entityMap at 1.
  repeat (destruct (Ascii.eqb c _); [intros [= <-]; eexists; split; reflexivity |]).
  done.
Qed.

(** X11: [sanitizeInput] never shortens a text and lengthens it at most
    sixfold; it returns the text unchanged exactly when none of the five
    characters less-than, greater-than, double quote, apostrophe and
    ampersand occurs in it.  In particular it is not idempotent: applied
    to its own result it changes it again, unless the original text had
    none of the five characters. *)
Theorem sanitizeInput_changes_exactly_the_unsafe_texts (s : string) :
  (String.length s ≤ String.length (sanitizeInput s) ≤ 6 * String.length s)%nat
  ∧ (sanitizeInput s = s ↔ plain_text s)
  ∧ (sanitizeInput (sanitizeInput s) = sanitizeInput s ↔ plain_text s).
Proof.
  split; [apply sanitizeInput_length |]. split; [apply sanitizeInput_plain |].
  rewrite sanitizeInput_plain. unfold plain_text. split.
  - induction s as [|c s IH]; simpl; [constructor |].
    destruct (entityMap c) as [e|] eqn:E.
    + rewrite chars_app, Forall_app. intros [He _]. exfalso.
      apply entity_head in E as (t & -> & Hamp).
      apply Forall_cons in He as [He _]. apply entityMap_None in He. congruence.
    + simpl. intros Hall. apply Forall_cons in Hall as [_ Hs].
      constructor; [by apply entityMap_None | by apply IH].
  - intros Hp. rewrite (proj2 (sanitizeInput_plain s) Hp). exact Hp.
Qed.

(** Two entities of which one continues the other are the entity of the
    same character, and the continuations agree. *)
Lemma entity_app_inj c1 c2 e1 e2 r1 r2 :
  entityMap c1 = Some e1 → entityMap c2 = Some e2 →
  e1 +:+ r1 = e2 +:+ r2 → c1 = c2 ∧ r1 = r2.
Proof.
  unfold entityMap.
  destruct (Ascii.eqb_spec c1 "<"%char) as [-> |];
    [| destruct (Ascii.eqb_spec c1 ">"%char) as [-> |];
       [| destruct (Ascii.eqb_spec c1 (ascii_of_nat 34)) as [-> |];
          [| destruct (Ascii.eqb_spec c1 "'"%char) as [-> |];
             [| destruct (Ascii.eqb_spec c1 "&"%char) as [-> |]; [| done]]]]];
  (destruct (Ascii.eqb_spec c2 "<"%char) as [-> |];
    [| destruct (Ascii.eqb_spec c2 ">"%char) as [-> |];
       [| destruct (Ascii.eqb_spec c2 (ascii_of_nat 34)) as [-> |];
          [| destruct (Ascii.eqb_spec c2 "'"%char) as [-> |];
             [| destruct (Ascii.eqb_spec c2 "&"%char) as [-> |]; [| done]]]]]);
  intros [= <-] [= <-]; simpl; intros Heq; by simplify_eq.
Qed.

(** X12: [sanitizeInput] is injective: two different texts are never
    stored as the same escaped text, so the escaping loses nothing of what
    the user typed. *)
Theorem sanitizeInput_is_injective (s1 s2 : string) :
  sanitizeInput s1 = sanitizeInput s2 → s1 = s2.
Proof.
  revert s2. induction s1 as [|c1 s1 IH]; intros [|c2 s2]; simpl.
  - done.
  - destruct (entityMap c2) as [e2|] eqn:E2; [| done].
    apply entity_head in E2 as (t & -> & _). done.
  - destruct (entityMap c1) as [e1|] eqn:E1; [| done].
    apply entity_head in E1 as (t & -> & _). done.
  - destruct (entityMap c1) as [e1|] eqn:E1, (entityMap c2) as [e2|] eqn:E2.
    + intros Heq. destruct (entity_app_inj _ _ _ _ _ _ E1 E2 Heq) as [-> Hr].
      f_equal. by apply IH.
    + destruct (entity_head _ _ E1) as (t & -> & Hamp). simpl.
      intros [= <- _]. congruence.
    + destruct (entity_head _ _ E2) as (t & -> & Hamp). simpl.
      intros [= -> _]. congruence.
    + intros [= -> Hr]. f_equal. by apply IH.
Qed.

Lemma sanitizeInput_is_injective_witness : "a<b" = "a<b".
Proof. apply (sanitizeInput_is_injective "a<b" "a<b"). reflexivity. Defined.

Lemma trim_blank s : blank s → trim s = "".
Proof.
  intros Hb. assert (trimStart s = "") as Hs.
  { induction s as [|c s IH]; [done |]. apply Forall_cons in Hb as [Hc Hb].
    simpl. rewrite Hc. by apply IH. }
  unfold trim. by rewrite Hs.
Qed.

(** X13: the validation of [addComment] comes before everything else.  A
    comment made of white space only is refused as empty and a comment
    whose escaped text is longer than 500 code units is refused as too
    long, whatever the state of the rate limiter, and the world is left as
    it was; conversely a call that changes the comments of the project was
    made with a text whose trimmed, escaped form has between 1 and 500
    code units. *)
Theorem addComment_validates_before_anything_else `{JSONCodec} (env : Env)
    (projectId : Z) (textarea_value nickname_text : string) (w : World) :
  (blank textarea_value →
   addComment env projectId textarea_value nickname_text w
   = (Stopped PleaseEnterComment, w))
  ∧ (APP_CONFIG.VALIDATION.MAX_COMMENT_LENGTH
       < Z.of_nat (String.length (sanitizeInput (trim textarea_value))) →
     addComment env projectId textarea_value nickname_text w
     = (Stopped CommentTooLong, w))
  ∧ (stored (addComment env projectId textarea_value nickname_text w).2
            ("comments." +:+ pretty projectId)
     ≠ stored w ("comments." +:+ pretty projectId) →
     valid_comment textarea_value).
Proof.
  split; [| split].
  - intros Hb. unfold addComment. rewrite (trim_blank _ Hb). done.
  - intros Hlong. unfold addComment.
    destruct (String.eqb_spec (sanitizeInput (trim textarea_value)) "") as [He | _].
    { rewrite He in Hlong. simpl in Hlong.
      unfold APP_CONFIG.VALIDATION.MAX_COMMENT_LENGTH in Hlong. lia. }
    destruct (Z.ltb_spec APP_CONFIG.VALIDATION.MAX_COMMENT_LENGTH
                (Z.of_nat (String.length (sanitizeInput (trim textarea_value)))));
      [done | lia].
  - intros Hch. unfold valid_comment.
    unfold addComment in Hch.
    destruct (String.eqb_spec (sanitizeInput (trim textarea_value)) "") as [He | Hne];
      [done |].
    destruct (Z.ltb_spec APP_CONFIG.VALIDATION.MAX_COMMENT_LENGTH
                (Z.of_nat (String.length (sanitizeInput (trim textarea_value)))));
      [done |].
    split; [done | lia].
Qed.

Lemma addComment_validates_before_anything_else_witness :
  addComment chrome_env 1 "   " "Ann" (newWorld ∅ "727CF")
  = (Stopped PleaseEnterComment, newWorld ∅ "727CF").
Proof.
  apply (proj1 (addComment_validates_before_anything_else chrome_env 1 "   " "Ann"
                  (newWorld ∅ "727CF"))).
  repeat constructor.
Defined.
(* ===================================================================== *)
(** * The initialisation of the storage files                              *)
(* ===================================================================== *)

Section stored_keys.
Context `{JSONCodec}.

Lemma keeps_stored_ret key {A} (a : A) : keeps_stored key (ret a).
Proof. intros w. done. Qed.

Lemma keeps_stored_throw key {A} e : keeps_stored key (@throw A e).
Proof. intros w. done. Qed.

Lemma keeps_stored_readonly key {A} (m : js A) : readonly m → keeps_stored key m.
Proof. intros Hr w. by rewrite Hr. Qed.

Lemma keeps_stored_bind key {A B} (m : js A) (k : A → js B) :
  keeps_stored key m → (∀ a, keeps_stored key (k a)) → keeps_stored key (bind m k).
Proof.
  intros Hm Hk w. rewrite bind_run. destruct (Hm w) as [Hs Hf].
  destruct (m w) as [[a | e] w1]; simpl in *; [| done].
  destruct (Hk a w1) as [Hs' Hf']. split; congruence.
Qed.

Lemma keeps_stored_storage_setItem key key' v :
  key' ≠ key → keeps_stored key (storage_setItem key' v).
Proof.
  intros Hne w. rewrite storage_setItem_run. simpl. split.
  - by apply stored_after_setItem_ne.
  - done.
Qed.

Lemma keeps_stored_set_this_userDetails key d :
  keeps_stored key (set_this_userDetails d).
Proof. intros w. done. Qed.

Lemma keeps_stored_logActivity key action data iso :
  key ≠ "logs._activity_logs" → keeps_stored key (logActivity action data iso).
Proof.
  intros Hne. unfold logActivity.
  apply keeps_stored_bind;
    [apply keeps_stored_readonly, readonly_storage_getItem | intros stored].
  apply keeps_stored_bind; [apply keeps_stored_readonly, readonly_this | intros self].
  apply keeps_stored_bind;
    [apply keeps_stored_readonly, readonly_Array_push | intros logs].
  apply keeps_stored_bind; [by apply keeps_stored_storage_setItem | intros _].
  apply keeps_stored_ret.
Qed.

Lemma keeps_stored_saveUserDetails key details lastActive logISO :
  key ≠ "users.details" → key ≠ "users.allUsers" → key ≠ "logs._activity_logs" →
  keeps_stored key (saveUserDetails details lastActive logISO).
Proof.
  intros H1 H2 H3. unfold saveUserDetails.
  apply keeps_stored_bind; [apply keeps_stored_readonly, readonly_this | intros self].
  apply keeps_stored_bind; [apply keeps_stored_set_this_userDetails | intros _].
  apply keeps_stored_bind; [by apply keeps_stored_storage_setItem | intros _].
  apply keeps_stored_bind;
    [apply keeps_stored_readonly, readonly_storage_getItem | intros stored].
  apply keeps_stored_bind.
  { apply keeps_stored_readonly, readonly_Array_findIndex. intros u.
    apply readonly_bind; [apply readonly_get_prop | intros s; apply readonly_ret]. }
  intros userIndex.
  apply keeps_stored_bind.
  { apply keeps_stored_readonly.
    destruct userIndex as [i|]; [| apply readonly_Array_push].
    destruct (js_or stored (JArr [])); try apply readonly_Array_push.
    apply readonly_ret. }
  intros allUsers.
  apply keeps_stored_bind; [by apply keeps_stored_storage_setItem | intros _].
  by apply keeps_stored_logActivity.
Qed.

Lemma keeps_stored_setNickname key nickname :
  (12 < String.length key)%nat → keeps_stored key (setNickname nickname).
Proof.
  intros Hlen w. split; [by apply setNickname_keeps_stored |].
  destruct (setNickname_world w nickname) as [[e ->] | [nick ->]]; done.
Qed.

Lemma keeps_stored_initialize_entries key entries :
  Forall (λ kd, fileKey kd.1 ≠ key) entries →
  keeps_stored key (initialize_entries entries).
Proof.
  induction 1 as [|[k d] entries Hk _ IH]; simpl; [apply keeps_stored_ret |].
  apply keeps_stored_bind;
    [apply keeps_stored_readonly, readonly_storage_getItem | intros existingData].
  apply keeps_stored_bind; [| intros _; exact IH].
  destruct (negb (truthy existingData)); [| apply keeps_stored_ret].
  apply keeps_stored_bind; [by apply keeps_stored_storage_setItem | intros _].
  apply keeps_stored_ret.
Qed.

(** The loop of the initialisation does not throw. *)
Lemma initialize_entries_ok entries w :
  ∃ w', initialize_entries entries w = (Ok (), w')
        ∧ rateLimitTracker w' = rateLimitTracker w
        ∧ userSession w' = userSession w.
Proof.
  revert w. induction entries as [|[k d] entries IH]; intros w; simpl.
  - by exists w.
  - rewrite bind_run. unfold storage_getItem at 1. cbv beta iota.
    rewrite bind_run.
    destruct (negb (truthy _)).
    + rewrite bind_run, storage_setItem_run. cbv beta iota. unfold ret at 1.
      cbv beta iota.
      destruct (IH (after_setItem w (fileKey k) d)) as (w' & -> & Ht & Hs).
      exists w'. done.
    + unfold ret at 1. cbv beta iota. apply IH.
Qed.

Lemma initialize_entries_cons key data rest :
  initialize_entries ((key, data) :: rest)
  = (existingData <- storage_getItem (fileKey key) ;;
     (if negb (truthy existingData)
      then storage_setItem (fileKey key) data ;; ret ()
      else ret ()) ;;
     initialize_entries rest).
Proof. done. Qed.

(** What the initialisation leaves under [projects.userProjects]. *)
Lemma initializeStorageFiles_userProjects w :
  enabled (UserSession.storage (userSession w)) = true →
  truthy (stored w "projects.userProjects") = false →
  ∃ w1, initializeStorageFiles w = (Completed, w1)
        ∧ stored w1 "projects.userProjects" = JObj [("userProjects", JArr [])]
        ∧ rateLimitTracker w1 = rateLimitTracker w
        ∧ userSession w1 = userSession w.
Proof.
  intros He Hf. unfold initializeStorageFiles, try_catch, storageStructure.
  rewrite initialize_entries_cons.
  (* users *)
  rewrite bind_run. unfold storage_getItem at 1. cbv beta iota.
  rewrite bind_run.
  set (step1 := if negb (truthy _) then _ else _).
  assert (Hk1 : keeps_stored "projects.userProjects" step1).
  { subst step1. destruct (negb (truthy _)); [| apply keeps_stored_ret].
    apply keeps_stored_bind; [by apply keeps_stored_storage_setItem | intros _].
    apply keeps_stored_ret. }
  assert (Hok1 : ∃ w1, step1 w = (Ok (), w1)
                       ∧ rateLimitTracker w1 = rateLimitTracker w
                       ∧ userSession w1 = userSession w).
  { subst step1. destruct (negb (truthy _)).
    - rewrite bind_run, storage_setItem_run. eexists. split; [reflexivity |]. done.
    - by exists w. }
  destruct Hok1 as (w1 & Hrun1 & Ht1 & Hs1).
  destruct (Hk1 w) as [Hst1 _]. rewrite Hrun1 in Hst1 |- *. simpl in Hst1.
  rewrite initialize_entries_cons.
  (* projects *)
  rewrite bind_run. unfold storage_getItem at 1. cbv beta iota.
  change (fileKey "projects") with "projects.userProjects".
  fold (stored w1 "projects.userProjects"). rewrite Hst1, Hf.
  cbn [negb]. rewrite bind_run, bind_run, storage_setItem_run.
  unfold ret at 1. cbv beta iota.
  set (w2 := after_setItem w1 "projects.userProjects" (JObj [("userProjects", JArr [])])).
  (* the other entries *)
  match goal with |- context [initialize_entries ?r w2] =>
    destruct (initialize_entries_ok r w2) as (w3 & Hrun3 & Ht3 & Hs3);
    assert (Hk3 : keeps_stored "projects.userProjects" (initialize_entries r))
      by (apply keeps_stored_initialize_entries; repeat constructor; done)
  end.
  destruct (Hk3 w2) as [Hst3 _].
  rewrite Hrun3 in Hst3 |- *. simpl in Hst3.
  exists w3. split; [done |]. split.
  - rewrite Hst3. subst w2. apply stored_after_setItem.
    by rewrite Hs1.
  - split; [by rewrite Ht3 | by rewrite Hs3].
Qed.

End stored_keys.
Section broken_sharing.
Context `{JSONCodec}.
Variable has : option json → bool.
Variable isValidUrl : string → bool.

(** When [projects.userProjects] holds an object, the [try] block of the
    submit handler ends in its [catch]: the steps before the [push] leave
    the key as it is, and an object has no [push]. *)
Lemma submitProject_on_object env form w fields :
  stored w "projects.userProjects" = JObj fields →
  ∃ o w', submitProject has isValidUrl env form w = (o, w')
          ∧ o ≠ Completed
          ∧ stored w' "projects.userProjects" = JObj fields
          ∧ (valid_form isValidUrl form →
             APP_CONFIG.RATE_LIMITING.PROJECT_COOLDOWN
               ≤ env.(Date_now) 0%nat - w.(rateLimitTracker).(lastProjectTime) →
             ∃ e, o = Caught e).
Proof.
  intros Hobj. unfold submitProject, valid_form.
  set (errors := validateProjectData _ _ _ _ _).
  destruct (negb (length errors =? 0)%nat) eqn:Hv.
  { eexists _, w. split; [reflexivity |]. split; [done |]. split; [done |].
    intros Hval. rewrite Hval in Hv. done. }
  destruct (Z.ltb_spec (Date_now env 0 - lastProjectTime (rateLimitTracker w))
              APP_CONFIG.RATE_LIMITING.PROJECT_COOLDOWN) as [Hlim | Hok].
  { eexists _, w. split; [reflexivity |]. split; [done |]. split; [done |].
    intros _ Hc. lia. }
  unfold try_catch.
  rewrite bind_run. unfold this at 1. cbv beta iota.
  rewrite bind_run.
  set (step1 := if nickname_changed _ _ then _ else _).
  assert (Hk1 : keeps_stored "projects.userProjects" step1).
  { subst step1. destruct (nickname_changed _ _); [| apply keeps_stored_ret].
    apply keeps_stored_bind;
      [apply keeps_stored_setNickname; simpl; lia | intros _; apply keeps_stored_ret]. }
  destruct (Hk1 w) as [Hst1 _].
  destruct (step1 w) as [[[] | e1] w1]; simpl in Hst1.
  2:{ eexists _, w1. split; [reflexivity |]. split; [done |].
      split; [by rewrite Hst1 | by eexists]. }
  rewrite bind_run.
  set (step2 := if negb (String.eqb _ "") then _ else _).
  assert (Hk2 : keeps_stored "projects.userProjects" step2).
  { subst step2. destruct (negb (String.eqb _ "")); [| apply keeps_stored_ret].
    by apply keeps_stored_saveUserDetails. }
  destruct (Hk2 w1) as [Hst2 _].
  destruct (step2 w1) as [[[] | e2] w2]; simpl in Hst2.
  2:{ eexists _, w2. split; [reflexivity |]. split; [done |].
      split; [by rewrite Hst2, Hst1 | by eexists]. }
  rewrite bind_run. unfold this at 1. cbv beta iota.
  rewrite bind_run. unfold storage_getItem at 1. cbv beta iota.
  fold (stored w2 "projects.userProjects"). rewrite Hst2, Hst1, Hobj.
  change (js_or (JObj fields) (JArr [])) with (JObj fields).
  rewrite bind_run. unfold Array_push at 1, throw at 1. cbv beta iota.
  eexists _, w2. split; [reflexivity |]. split; [done |].
  split; [by rewrite Hst2, Hst1 | by eexists].
Qed.

End broken_sharing.

Lemma loadProjects_on_object `{JSONCodec} has w fields :
  stored w "projects.userProjects" = JObj fields →
  ∃ e, loadProjects has w = (Throw e, w).
Proof.
  intros Hobj. unfold loadProjects.
  rewrite bind_run. unfold storage_getItem at 1. cbv beta iota.
  rewrite bind_run. unfold storage_getItem at 1. cbv beta iota.
  fold (stored w "projects.userProjects"). rewrite Hobj.
  change (js_or (JObj fields) (JArr [])) with (JObj fields).
  rewrite bind_run.
  match goal with |- context [iterate ?v w] => destruct v end;
    simpl; try rewrite bind_run; simpl; by eexists.
Qed.

(** X14: the initialisation of the storage files makes project sharing
    fail.  On an available store that holds nothing under
    [projects.userProjects] (every first visit: the key has no default),
    [initializeStorageFiles] completes and stores the object
    [{userProjects: []}] under that key, not a list.  From then on
    [loadProjects] throws (an object cannot be spread into an array), and
    no submission of the project form completes: a valid form outside the
    cooldown ends in the [catch] block (an object has no [push]), and the
    key keeps the object. *)
Theorem storage_initialisation_breaks_project_sharing `{JSONCodec}
    (isValidUrl : string → bool) (has : option json → bool) (w : World) :
  standard_storage w →
  truthy (stored w "projects.userProjects") = false →
  let broken := JObj [("userProjects", JArr [])] in
  ∃ w1,
    initializeStorageFiles w = (Completed, w1)
    ∧ stored w1 "projects.userProjects" = broken
    ∧ (∃ e, loadProjects has w1 = (Throw e, w1))
    ∧ (∀ env form, ∃ o w2,
         submitProject has isValidUrl env form w1 = (o, w2)
         ∧ o ≠ Completed
         ∧ stored w2 "projects.userProjects" = broken
         ∧ (valid_form isValidUrl form →
            APP_CONFIG.RATE_LIMITING.PROJECT_COOLDOWN
              ≤ env.(Date_now) 0%nat - w.(rateLimitTracker).(lastProjectTime) →
            ∃ e, o = Caught e)).
Proof.
  intros Hs Hf broken.
  destruct (initializeStorageFiles_userProjects w (standard_enabled w Hs) Hf)
    as (w1 & Hrun & Hst & Ht & _).
  exists w1. split; [exact Hrun |]. split; [exact Hst |]. split.
  - by apply (loadProjects_on_object has w1 [("userProjects", JArr [])]).
  - intros env form.
    destruct (submitProject_on_object has isValidUrl env form w1 _ Hst)
      as (o & w2 & Hsub & Hno & Hkeep & Hcaught).
    exists o, w2. rewrite Ht in Hcaught. done.
Qed.

Lemma storage_initialisation_breaks_project_sharing_witness :
  let w := newWorld ∅ "727CF" in
  let broken := JObj [("userProjects", JArr [])] in
  ∃ w1,
    initializeStorageFiles w = (Completed, w1)
    ∧ stored w1 "projects.userProjects" = broken
    ∧ (∃ e, loadProjects (λ _, false) w1 = (Throw e, w1))
    ∧ (∀ env form, ∃ o w2,
         submitProject (λ _, false) (λ _, true) env form w1 = (o, w2)
         ∧ o ≠ Completed
         ∧ stored w2 "projects.userProjects" = broken
         ∧ (valid_form (λ _, true) form →
            APP_CONFIG.RATE_LIMITING.PROJECT_COOLDOWN
              ≤ env.(Date_now) 0%nat - w.(rateLimitTracker).(lastProjectTime) →
            ∃ e, o = Caught e)).
Proof.
  intros w.
  apply (storage_initialisation_breaks_project_sharing (λ _, true) (λ _, false) w);
    reflexivity.
Defined.

(** The scenario of a first visit, run on the empty store: after the
    initialisation the valid sample form is caught with the type error of
    [push]. *)
Example first_visit_cannot_share_a_project :
  let w1 := (initializeStorageFiles (newWorld ∅ "727CF")).2 in
  (submitProject (λ _, false) (λ _, true) chrome_env sample_form w1).1
  = Caught "TypeError: push is not a function".
Proof. vm_compute. reflexivity. Qed.
(* ===================================================================== *)
(** * The order of the project cards                                       *)
(* ===================================================================== *)

Lemma Forall_filter_keep {A} (P Q : A → Prop) `{!∀ x, Decision (Q x)} (l : list A) :
  Forall P l → Forall P (filter Q l).
Proof.
  rewrite !Forall_forall. intros Hall x Hx.
  apply list_elem_of_filter in Hx as [_ Hx]. by apply Hall.
Qed.

Section project_order.
Variable has : option json → bool.

Lemma insert_expanded x (A B : list IndexedProject) :
  is_expanded has x = true →
  Forall (λ p, originalIndex x < originalIndex p) A →
  Forall (λ p, is_expanded has p = false) B →
  sort_insert (compareProjects has) x (A ++ B) = x :: A ++ B.
Proof.
  unfold is_expanded. intros Hx HA HB.
  destruct A as [|a A]; simpl.
  - destruct B as [|b B]; simpl; [done |].
    apply Forall_cons in HB as [Hb _].
    unfold compareProjects. by rewrite Hx, Hb.
  - apply Forall_cons in HA as [Ha _].
    unfold compareProjects. rewrite Hx.
    destruct (has (assoc "id" (project_props a))); simpl; [| done].
    destruct (Z.leb_spec (originalIndex x - originalIndex a) 0); [done | lia].
Qed.

Lemma insert_not_expanded x (A B : list IndexedProject) :
  is_expanded has x = false →
  Forall (λ p, is_expanded has p = true) A →
  Forall (λ p, originalIndex x < originalIndex p) B →
  Forall (λ p, is_expanded has p = false) B →
  sort_insert (compareProjects has) x (A ++ B) = A ++ x :: B.
Proof.
  unfold is_expanded. intros Hx HA HB HnB.
  induction A as [|a A IH]; simpl.
  - destruct B as [|b B]; simpl; [done |].
    apply Forall_cons in HB as [Hb _]. apply Forall_cons in HnB as [Hnb _].
    unfold compareProjects. rewrite Hx, Hnb. simpl.
    destruct (Z.leb_spec (originalIndex x - originalIndex b) 0); [done | lia].
  - apply Forall_cons in HA as [Ha HA].
    unfold compareProjects at 1. rewrite Hx, Ha. simpl.
    f_equal. by apply IH.
Qed.

(** On a list in the order of the indices, the sort puts the expanded
    projects first and keeps the order of the indices on both sides. *)
Lemma sort_by_expansion (l : list IndexedProject) :
  StronglySorted (λ a b, originalIndex a < originalIndex b) l →
  Array_sort (compareProjects has) l
  = filter (λ p, is_expanded has p = true) l
    ++ filter (λ p, is_expanded has p = false) l.
Proof.
  induction 1 as [|x l Hsorted IH Hx]; [done |].
  cbn [Array_sort]. rewrite IH.
  destruct (is_expanded has x) eqn:He.
  - rewrite (filter_cons_True (λ p, is_expanded has p = true)) by done.
    rewrite (filter_cons_False (λ p, is_expanded has p = false)) by congruence.
    apply insert_expanded; [done | |].
    + by apply Forall_filter_keep.
    + apply Forall_forall. intros p Hp. by apply list_elem_of_filter in Hp as [? _].
  - rewrite (filter_cons_False (λ p, is_expanded has p = true)) by congruence.
    rewrite (filter_cons_True (λ p, is_expanded has p = false)) by done.
    apply insert_not_expanded; [done | | |].
    + apply Forall_forall. intros p Hp. by apply list_elem_of_filter in Hp as [? _].
    + by apply Forall_filter_keep.
    + apply Forall_forall. intros p Hp. by apply list_elem_of_filter in Hp as [? _].
Qed.

Lemma indexed_from_sorted (l : list json) : ∀ k : nat,
  StronglySorted (λ a b, originalIndex a < originalIndex b)
    (imap (λ index project,
             {| project_props := own_props project;
                originalIndex := Z.of_nat (k + index) |}) l).
Proof.
  induction l as [|x l IH]; intros k; simpl; [constructor |].
  constructor.
  - specialize (IH (S k)).
    erewrite imap_ext; [exact IH |]. intros i y _. simpl. do 2 f_equal. lia.
  - apply Forall_forall. intros p Hp.
    apply elem_of_lookup_imap in Hp as (i & y & -> & _). simpl. lia.
Qed.

Lemma indexed_sorted (l : list json) :
  StronglySorted (λ a b, originalIndex a < originalIndex b) (indexed l).
Proof. apply (indexed_from_sorted l 0). Qed.

End project_order.

(** X15: when both project collections hold lists, [loadProjects] shows
    every project exactly once, the expanded projects first and the others
    after them, and within each of the two groups in the order system
    projects first, then user projects, each collection in its stored
    order.  It reads the store and changes nothing. *)
Theorem loadProjects_shows_expanded_projects_first `{JSONCodec}
    (has : option json → bool) (w : World) (systemProjects userProjects : list json) :
  js_or (stored w "projects.allProjects") (JArr []) = JArr systemProjects →
  js_or (stored w "projects.userProjects") (JArr []) = JArr userProjects →
  let all := indexed (systemProjects ++ userProjects) in
  loadProjects has w
  = (Ok (filter (λ p, is_expanded has p = true) all
         ++ filter (λ p, is_expanded has p = false) all), w).
Proof.
  intros Hsys Husr all. unfold loadProjects.
  rewrite bind_run. unfold storage_getItem at 1. cbv beta iota.
  rewrite bind_run. unfold storage_getItem at 1. cbv beta iota.
  fold (stored w "projects.allProjects") (stored w "projects.userProjects").
  rewrite Hsys, Husr.
  rewrite bind_run. unfold iterate at 1, ret at 1. cbv beta iota.
  rewrite bind_run. unfold iterate at 1, ret at 1. cbv beta iota.
  unfold ret. f_equal. f_equal.
  apply sort_by_expansion, indexed_sorted.
Qed.

Lemma loadProjects_shows_expanded_projects_first_witness :
  let system := [card 1 "one"; card 2 "two"; card 3 "three"] in
  let user := [card 4 "four"] in
  let w := after_setItem
             (after_setItem (newWorld ∅ "727CF") "projects.allProjects" (JArr system))
             "projects.userProjects" (JArr user) in
  ∃ shown,
    loadProjects expanded_2_4 w = (Ok shown, w)
    ∧ map (λ p, (assoc "id" (project_props p), originalIndex p)) shown
      = [ (Some (JNum 2), 1); (Some (JNum 4), 3);
          (Some (JNum 1), 0); (Some (JNum 3), 2) ].
Proof.
  intros system user w. eexists. split.
  - apply (loadProjects_shows_expanded_projects_first expanded_2_4 w system user);
      vm_compute; reflexivity.
  - vm_compute. reflexivity.
Defined.

(* ===================================================================== *)
(** * The session log panel and the click history                          *)
(* ===================================================================== *)

Lemma lastn_snoc {A} n (l : list A) x : lastn (S n) (l ++ [x]) = lastn n l ++ [x].
Proof.
  unfold lastn. rewrite length_app. simpl.
  replace (length l + 1 - S n)%nat with (length l - n)%nat by lia.
  rewrite drop_app_le by lia. done.
Qed.

Lemma lastn_lastn {A} n m (l : list A) : (n ≤ m)%nat → lastn n (lastn m l) = lastn n l.
Proof.
  intros Hnm. unfold lastn. rewrite length_drop, drop_drop. f_equal. lia.
Qed.

(** X16: the session log panel shows the newest entry first.  After a
    call of [logActivity] on an available store whose log is a list, the
    panel lists the entry just written at the top, followed by the 49
    entries written before it, the most recent first; it never shows more
    than 50 entries. *)
Theorem session_log_shows_the_newest_entry_first `{JSONCodec} (w : World)
    (action : string) (data : json) (iso : string) (l0 : list json) :
  enabled (UserSession.storage (userSession w)) = true →
  js_or (stored w "logs._activity_logs") (JArr []) = JArr l0 →
  ∃ w',
    logActivity action data iso w = (Ok (), w')
    ∧ loadSessionLog w'
      = (Ok (logEntry (userSession w) action data iso :: reverse (lastn 49 l0)), w')
    ∧ (length (reverse (lastn 49 l0)) < 50)%nat.
Proof.
  intros He Hl. rewrite (logActivity_run w action data iso l0 Hl).
  eexists. split; [reflexivity |]. split.
  - unfold loadSessionLog. rewrite bind_run. unfold storage_getItem at 1.
    cbv beta iota.
    match goal with |- context [getItem ?fs ?ls ?k] =>
      change (getItem fs ls k)
        with (stored (after_setItem w "logs._activity_logs"
                        (JArr (keep_last_1000
                                 (l0 ++ [logEntry (userSession w) action data iso]))))
                k) end.
    rewrite stored_after_setItem by done.
    change (js_or (JArr ?l) (JArr [])) with (JArr l).
    cbv beta iota. unfold ret. f_equal. f_equal.
    rewrite keep_last_1000_lastn.
    change (drop (length ?l - 50) ?l) with (lastn 50 l).
    rewrite lastn_lastn by lia. rewrite lastn_snoc.
    by rewrite reverse_app.
  - rewrite length_reverse, lastn_length. lia.
Qed.

Lemma session_log_shows_the_newest_entry_first_witness :
  let w := newWorld ∅ "727CF" in
  ∃ w',
    logActivity "card_expanded" (JNum 1) "2024-01-05T10:00:00.000Z" w = (Ok (), w')
    ∧ loadSessionLog w'
      = (Ok (logEntry (userSession w) "card_expanded" (JNum 1)
               "2024-01-05T10:00:00.000Z" :: reverse (lastn 49 [])), w')
    ∧ (length (reverse (lastn 49 (@nil json))) < 50)%nat.
Proof.
  intros w.
  apply (session_log_shows_the_newest_entry_first w "card_expanded" (JNum 1)
           "2024-01-05T10:00:00.000Z" []); reflexivity.
Defined.

(** X17: the click history keeps the 100 most recent clicks.  When the
    raw key [clickTracking] holds a list (or nothing), [trackClick]
    appends the click and keeps the last 100 entries, in order, whatever
    the length of the list was; no other key of the store changes.  When
    the key holds a text that does not parse, or a value that is not a
    list, [trackClick] throws and the store is left as it was. *)
Theorem click_history_keeps_the_last_100 `{JSONCodec} (event : ClickEvent)
    (elementType timestamp : string) (w : World) :
  (∀ l0, click_history w = Some (JArr l0) →
     ∃ w', trackClick event elementType timestamp w = (Ok (), w')
           ∧ click_history w'
             = Some (JArr (lastn 100 (l0 ++ [clickData event elementType timestamp])))
           ∧ (∀ raw, raw ≠ "clickTracking" →
                     localStorage w' !! raw = localStorage w !! raw))
  ∧ ((∀ l0, click_history w ≠ Some (JArr l0)) →
     ∃ e, trackClick event elementType timestamp w = (Throw e, w)).
Proof.
  unfold click_history, trackClick. split.
  - intros l0 Hl.
    rewrite bind_run. unfold localStorage_getItem at 1. cbv beta iota.
    rewrite bind_run. unfold JSON_parse_js. rewrite Hl. unfold ret at 1.
    cbv beta iota.
    rewrite bind_run. unfold Array_push at 1, ret at 1. cbv beta iota.
    unfold localStorage_setItem. eexists. split; [reflexivity |]. simpl.
    split.
    + rewrite lookup_insert_eq. unfold text_or.
      destruct (String.eqb_spec (JSON_stringify
                  (JArr (if (100 <? length (l0 ++ [clickData event elementType timestamp]))%nat
                         then drop (length (l0 ++ [clickData event elementType timestamp]) - 100)
                                (l0 ++ [clickData event elementType timestamp])
                         else l0 ++ [clickData event elementType timestamp]))) "")
        as [He | _]; [by apply JSON_stringify_nonempty in He |].
      rewrite JSON_parse_stringify. do 2 f_equal.
      destruct (Nat.ltb_spec 100 (length (l0 ++ [clickData event elementType timestamp]))).
      * done.
      * by rewrite lastn_all.
    + intros raw Hne. by rewrite lookup_insert_ne.
  - intros Hno.
    rewrite bind_run. unfold localStorage_getItem at 1. cbv beta iota.
    rewrite bind_run. unfold JSON_parse_js.
    destruct (JSON_parse (text_or (localStorage w !! "clickTracking") "[]"))
      as [v|]; [| by eexists].
    unfold ret at 1. cbv beta iota. rewrite bind_run.
    destruct v; try (by eexists). by destruct (Hno items).
Qed.

Lemma click_history_keeps_the_last_100_witness :
  let event := {| target_id := "visit"; target_className := "btn";
                  target_textContent := Some "Visit"; clientX := 10; clientY := 20 |} in
  let w := newWorld ∅ "727CF" in
  ∃ w', trackClick event "link" "2024-01-05T10:00:00.000Z" w = (Ok (), w')
        ∧ click_history w'
          = Some (JArr (lastn 100 ([] ++ [clickData event "link"
                                            "2024-01-05T10:00:00.000Z"])))
        ∧ (∀ raw, raw ≠ "clickTracking" →
                  localStorage w' !! raw = localStorage w !! raw).
Proof.
  intros event w.
  destruct (click_history_keeps_the_last_100 event "link" "2024-01-05T10:00:00.000Z" w)
    as [Hok _].
  apply (Hok []). reflexivity.
Defined.
(* ===================================================================== *)
(** * Trimming, and the validation of the project form                     *)
(* ===================================================================== *)








Lemma length_zero_iff_empty s : String.length s = 0%nat ↔ s = "".
Proof. destruct s; done. Qed.



(* ===================================================================== *)
(** * Seeding and user details                                             *)
(* ===================================================================== *)

(** X19: the seeding of the example projects is idempotent and never
    throws: whatever the store holds, [populateExampleProjects] completes,
    a second call right after it changes nothing, and the user's own
    projects are never touched. *)
Theorem seeding_is_idempotent `{JSONCodec} (env env' : Env) (w : World) :
  let r := populateExampleProjects env w in
  r.1 = Completed
  ∧ populateExampleProjects env' r.2 = (Completed, r.2)
  ∧ stored r.2 "projects.userProjects" = stored w "projects.userProjects".
Proof.
  intros r. subst r.
  destruct (length_is_zero (js_or (stored w "projects.allProjects") (JArr []))) eqn:Hz.
  - rewrite (populate_seeds env w) by done. cbn [fst snd].
    split; [done |].
    destruct (enabled (UserSession.storage (userSession w))) eqn:He.
    + destruct (populate_once env env' w He Hz) as (_ & Hu & Hagain).
      rewrite (populate_seeds env w) in Hu, Hagain by done. cbn [snd] in Hu, Hagain.
      split; [exact Hagain | exact Hu].
    + assert (Hset : ∀ w0 key v, enabled (UserSession.storage (userSession w0)) = false →
                                 after_setItem w0 key v = w0).
      { intros w0 key v Hd. unfold after_setItem, with_localStorage, setItem.
        rewrite Hd. simpl. by destruct w0. }
      rewrite (Hset w) by done. rewrite (Hset w) by done.
      split; [| done]. rewrite (populate_seeds env' w) by done.
      rewrite (Hset w) by done. by rewrite (Hset w).
  - rewrite populate_skips by done. cbn [fst snd].
    split; [done |]. split; [| done]. by apply populate_skips.
Qed.

Lemma assoc_app_l k (a b : list (string * json)) v :
  assoc k a = Some v → assoc k (a ++ b) = Some v.
Proof.
  induction a as [|[k' v'] a IH]; simpl; [done |].
  destruct (String.eqb k k'); [done | exact IH].
Qed.

Lemma assoc_app_r k (a b : list (string * json)) :
  assoc k a = None → assoc k (a ++ b) = assoc k b.
Proof.
  induction a as [|[k' v'] a IH]; simpl; [done |].
  destruct (String.eqb k k'); [done | exact IH].
Qed.

(** The object spread [{...a, ...b}]: a key takes its value from [b] when
    [b] has it, and from [a] otherwise. *)
Lemma assoc_spread k (a b : list (string * json)) :
  assoc k (spread a b) = match assoc k b with
                         | Some v => Some v
                         | None => assoc k a
                         end.
Proof.
  unfold spread.
  destruct (assoc k a) as [va|] eqn:Ea.
  - rewrite (assoc_app_l _ _ _ (default va (assoc k b))); [by destruct (assoc k b) |].
    induction a as [|[k' v'] a IH]; simpl in *; [done |].
    destruct (String.eqb_spec k k') as [-> | Hne].
    + by injection Ea as ->.
    + by apply IH.
  - rewrite assoc_app_r.
    + induction b as [|[k' v'] b IH]; simpl; [done |].
      destruct (String.eqb_spec k k') as [-> | Hne].
      * rewrite filter_cons_True by done. simpl. by rewrite String.eqb_refl.
      * destruct (decide (assoc k' a = None)).
        -- rewrite filter_cons_True by done. simpl.
           destruct (String.eqb_spec k k'); [done | exact IH].
        -- rewrite filter_cons_False by done. exact IH.
    + induction a as [|[k' v'] a IH]; simpl in *; [done |].
      destruct (String.eqb_spec k k'); [done | by apply IH].
Qed.

(** X20: user details accumulate.  On a store whose user list and log are
    lists, [saveUserDetails] completes; the details of the session, the
    object stored under [users.details] and the details of the session's
    record in [users.allUsers] are then one and the same object, in which
    every key given in the call has the value given and every other key
    has the value it had in the session before. *)
Theorem saveUserDetails_merges_the_details `{JSONCodec} (w : World)
    (details : list (string * json)) (lastActive logISO : string)
    (users logs : list json) :
  enabled (UserSession.storage (userSession w)) = true →
  js_or (stored w "users.allUsers") (JArr []) = JArr users →
  no_null users →
  js_or (stored w "logs._activity_logs") (JArr []) = JArr logs →
  ∃ w' merged record allUsers,
    saveUserDetails details lastActive logISO w = (Ok (), w')
    ∧ UserSession.userDetails (userSession w') = merged
    ∧ stored w' "users.details" = JObj merged
    ∧ stored w' "users.allUsers" = JArr allUsers
    ∧ record ∈ allUsers
    ∧ prop "details" record = Some (JObj merged)
    ∧ ∀ k, assoc k merged
           = match assoc k details with
             | Some v => Some v
             | None => assoc k (UserSession.userDetails (userSession w))
             end.
Proof.
  intros He Hu Hnn Hl.
  pose proof (saveUserDetails_run w details lastActive logISO users logs Hu Hnn Hl)
    as Hrun. cbv zeta in Hrun.
  set (merged := spread (UserSession.userDetails (userSession w)) details) in *.
  set (record := userData (userSession w) merged lastActive) in *.
  set (allUsers := upsert (UserSession.stamp (userSession w)) record users) in *.
  eexists _, merged, record, allUsers. split; [exact Hrun |].
  split; [done |]. split.
  { rewrite !stored_after_setItem_ne by done. by rewrite stored_after_setItem. }
  split.
  { rewrite stored_after_setItem_ne by done. by rewrite stored_after_setItem. }
  split.
  { subst allUsers. unfold upsert.
    destruct (index_where _ users 0) as [i|] eqn:Ei.
    - apply index_where_Some in Ei as (_ & x & Hx & _).
      rewrite Nat.sub_0_r in Hx. apply lookup_lt_Some in Hx.
      apply list_elem_of_lookup. exists i.
      by apply list_lookup_insert_eq.
    - apply elem_of_app. right. by left. }
  split; [done |].
  intros k. apply assoc_spread.
Qed.

Lemma saveUserDetails_merges_the_details_witness :
  let w := newWorld ∅ "727CF" in
  ∃ w' merged record allUsers,
    saveUserDetails [("email", JStr "ann@example.org")] "2024-01-05T10:00:00.000Z"
      "2024-01-05T10:00:00.001Z" w = (Ok (), w')
    ∧ UserSession.userDetails (userSession w') = merged
    ∧ stored w' "users.details" = JObj merged
    ∧ stored w' "users.allUsers" = JArr allUsers
    ∧ record ∈ allUsers
    ∧ prop "details" record = Some (JObj merged)
    ∧ ∀ k, assoc k merged
           = match assoc k [("email", JStr "ann@example.org")] with
             | Some v => Some v
             | None => assoc k (UserSession.userDetails (userSession w))
             end.
Proof.
  intros w.
  apply (saveUserDetails_merges_the_details w [("email", JStr "ann@example.org")]
           "2024-01-05T10:00:00.000Z" "2024-01-05T10:00:00.001Z" [] []);
    (reflexivity || constructor).
Defined.
(* ===================================================================== *)
(** * The comment groups of a project card                                 *)
(* ===================================================================== *)

Lemma split_at_first_underscore d1 : ∀ d2 r1 r2,
  no_underscore d1 → no_underscore d2 →
  d1 +:+ String "_"%char r1 = d2 +:+ String "_"%char r2 → d1 = d2 ∧ r1 = r2.
Proof.
  induction d1 as [|c d1 IH]; intros [|c' d2] r1 r2 H1 H2; simpl.
  - by intros [= ->].
  - intros [= <- _]. by apply Forall_cons in H2 as [? _].
  - intros [= -> _]. by apply Forall_cons in H1 as [? _].
  - intros [= -> E]. apply Forall_cons in H1 as [_ H1]. apply Forall_cons in H2 as [_ H2].
    destruct (IH _ _ _ H1 H2 E) as [-> ->]. done.
Qed.

Section card_groups.
Variable date : string → string.

Lemma card_group_ok_other pre c kg :
  ProjectCard.groupKey date c ≠ kg.1 →
  card_group_ok date pre kg → card_group_ok date (pre ++ [c]) kg.
Proof.
  intros Hne (c0 & rest & Hf & Hg). exists c0, rest. split; [| done].
  rewrite filter_app, filter_cons_False, filter_nil, app_nil_r by done. done.
Qed.

Lemma card_groupStep_inv pre gs c :
  card_groups_inv date pre gs →
  card_groups_inv date (pre ++ [c]) (ProjectCard.groupStep date gs c).
Proof.
  intros (Hnd & Hok & Hall). unfold ProjectCard.groupStep.
  set (key := ProjectCard.groupKey date c).
  rewrite Forall_forall in Hok.
  destruct (groups_has key gs) eqn:E; simpl.
  - apply groups_has_spec in E.
    rewrite groups_push_map by done.
    set (f := λ kg : string * Group.t,
                if String.eqb kg.1 key then (kg.1, push_comment c kg.2) else kg).
    assert (Hkeys : map fst (map f gs) = map fst gs).
    { rewrite map_map. apply map_ext. intros [k g]. unfold f. simpl.
      by destruct (String.eqb k key). }
    split; [| split].
    + by rewrite Hkeys.
    + apply Forall_map, Forall_forall. intros [k g] Hin.
      specialize (Hok _ Hin). unfold f. simpl.
      destruct (String.eqb k key) eqn:Ek.
      * apply string_eqb_eq in Ek. subst k.
        destruct Hok as (c0 & rest & Hf & Hg). simpl in *.
        exists c0, (rest ++ [c]). simpl. split.
        -- rewrite filter_app, filter_cons_True, filter_nil by done.
           by rewrite Hf.
        -- rewrite Hg. done.
      * apply string_eqb_neq in Ek. apply card_group_ok_other; [| done].
        simpl. by apply not_eq_sym.
    + rewrite Hkeys.
      intros c' [Hin | ->%list_elem_of_singleton]%elem_of_app; [by apply Hall | done].
  - assert (Hnot : key ∉ map fst gs).
    { intros Hin. apply groups_has_spec in Hin. congruence. }
    rewrite groups_push_app by done. simpl. rewrite String.eqb_refl.
    split; [| split].
    + rewrite map_app. simpl. apply NoDup_app. split; [done |]. split.
      * intros k Hk ->%list_elem_of_singleton. done.
      * apply NoDup_singleton.
    + apply Forall_app. split.
      * apply Forall_forall. intros [k g] Hin.
        apply card_group_ok_other; [| by apply Hok]. simpl. intros Ek.
        apply Hnot. fold key in Ek. rewrite Ek.
        by apply (list_elem_of_fmap_2 fst gs (k, g)).
      * apply Forall_singleton. exists c, []. simpl. split; [| done].
        rewrite filter_app, filter_cons_True, filter_nil by done.
        assert (filter (λ c0, ProjectCard.groupKey date c0 = key) pre = []) as ->;
          [| done].
        apply filter_none. intros c0 Hin0 E0. apply Hnot.
        rewrite <- E0. by apply Hall.
    + rewrite map_app. simpl.
      intros c' [Hin | ->%list_elem_of_singleton]%elem_of_app; rewrite elem_of_app.
      * left. by apply Hall.
      * right. by apply list_elem_of_singleton.
Qed.

Lemma fold_card_groupStep_inv cs : ∀ pre gs,
  card_groups_inv date pre gs →
  card_groups_inv date (pre ++ cs) (fold_left (ProjectCard.groupStep date) cs gs).
Proof.
  induction cs as [|c cs IH]; intros pre gs Hinv; simpl.
  - by rewrite app_nil_r.
  - rewrite (cons_middle c), app_assoc. apply IH. by apply card_groupStep_inv.
Qed.

Lemma card_key_inj c1 c2 :
  no_underscore (date c1.(Comment.timestamp)) →
  no_underscore (date c2.(Comment.timestamp)) →
  ProjectCard.groupKey date c1 = ProjectCard.groupKey date c2
  ↔ date c1.(Comment.timestamp) = date c2.(Comment.timestamp)
    ∧ c1.(Comment.author) = c2.(Comment.author).
Proof.
  intros H1 H2. unfold ProjectCard.groupKey. split.
  - intros E. by apply split_at_first_underscore in E.
  - intros [-> ->]. done.
Qed.

End card_groups.

(** X21: the comment groups of a project card are formed by date and
    author only.  For comments whose formatted dates do not contain the
    separator of the key, there is exactly one group for each pair (date,
    author) that occurs; it holds all the comments of that pair, in the
    order of the list, under the stamp of the first of them.  Comments
    written on one day under one nickname by visitors with different
    stamps are thus shown as one group, under the stamp of the earliest. *)
Theorem card_groups_ignore_the_stamp (date : string → string)
    (comments : list Comment.t) :
  (∀ c, c ∈ comments → no_underscore (date c.(Comment.timestamp))) →
  let groups := ProjectCard.groupCommentsByDateAndUser date comments in
  (∀ g, g ∈ groups →
     ∃ c0 rest,
       g.(Group.comments) = c0 :: rest
       ∧ c0 :: rest
         = filter (λ c, date c.(Comment.timestamp) = g.(Group.date)
                        ∧ c.(Comment.author) = g.(Group.author)) comments
       ∧ g.(Group.stamp) = c0.(Comment.stamp))
  ∧ NoDup (map groupPair groups)
  ∧ (∀ c, c ∈ comments →
       ∃ g, g ∈ groups
            ∧ date c.(Comment.timestamp) = g.(Group.date)
            ∧ c.(Comment.author) = g.(Group.author)).
Proof.
  intros Hdates groups. subst groups. unfold ProjectCard.groupCommentsByDateAndUser.
  assert (Hinv : card_groups_inv date comments
                   (fold_left (ProjectCard.groupStep date) comments [])).
  { apply (fold_card_groupStep_inv date comments [] []).
    split; [constructor |]. split; [constructor |]. by intros c ?%elem_of_nil. }
  set (gs := fold_left (ProjectCard.groupStep date) comments []) in *.
  destruct Hinv as (Hnd & Hok & Hall). rewrite Forall_forall in Hok.
  (* every entry stands for the pair of its first comment *)
  assert (Hentry : ∀ kg, kg ∈ gs →
            ∃ c0 rest, c0 ∈ comments
              ∧ kg.1 = ProjectCard.groupKey date c0
              ∧ filter (λ c, ProjectCard.groupKey date c = kg.1) comments = c0 :: rest
              ∧ kg.2 = {| Group.date := date c0.(Comment.timestamp);
                          Group.author := c0.(Comment.author);
                          Group.stamp := c0.(Comment.stamp);
                          Group.comments := c0 :: rest |}).
  { intros kg Hin. destruct (Hok kg Hin) as (c0 & rest & Hf & Hg).
    assert (Hc0 : c0 ∈ filter (λ c, ProjectCard.groupKey date c = kg.1) comments)
      by (rewrite Hf; left).
    apply list_elem_of_filter in Hc0 as [Hk Hc0]. by exists c0, rest. }
  split; [| split].
  - intros g Hg. apply list_elem_of_fmap in Hg as (kg & -> & Hin).
    destruct (Hentry kg Hin) as (c0 & rest & Hc0 & Hk & Hf & ->). simpl.
    exists c0, rest. split; [done |]. split; [| done].
    rewrite <- Hf. apply filter_ext_in. intros c Hc. rewrite Hk.
    apply card_key_inj; by apply Hdates.
  - assert (Hkeys : map fst gs
                    = map (λ p : string * string, p.1 +:+ "_" +:+ p.2)
                        (map groupPair (map snd gs))).
    { rewrite !map_map. apply map_ext_in. intros kg Hin.
      apply list_elem_of_In in Hin.
      destruct (Hentry kg Hin) as (c0 & rest & _ & Hk & _ & ->). done. }
    rewrite Hkeys in Hnd. by apply NoDup_fmap_1 in Hnd.
  - intros c Hc. specialize (Hall c Hc).
    apply list_elem_of_fmap in Hall as (kg & Hk & Hin).
    exists kg.2. split; [by apply list_elem_of_fmap_2 |].
    destruct (Hentry kg Hin) as (c0 & rest & Hc0 & Hk0 & _ & ->). simpl.
    rewrite Hk0 in Hk. by apply card_key_inj in Hk; [| apply Hdates ..].
Qed.

Lemma card_groups_ignore_the_stamp_witness :
  let date := SampleLocale.formatDate in
  let groups := ProjectCard.groupCommentsByDateAndUser date two_Anns in
  (∀ g, g ∈ groups →
     ∃ c0 rest,
       g.(Group.comments) = c0 :: rest
       ∧ c0 :: rest
         = filter (λ c, date c.(Comment.timestamp) = g.(Group.date)
                        ∧ c.(Comment.author) = g.(Group.author)) two_Anns
       ∧ g.(Group.stamp) = c0.(Comment.stamp))
  ∧ NoDup (map groupPair groups)
  ∧ (∀ c, c ∈ two_Anns →
       ∃ g, g ∈ groups
            ∧ date c.(Comment.timestamp) = g.(Group.date)
            ∧ c.(Comment.author) = g.(Group.author)).
Proof.
  intros date.
  apply (card_groups_ignore_the_stamp date two_Anns).
  intros c Hc. unfold two_Anns in Hc.
  repeat (apply elem_of_cons in Hc as [-> | Hc];
          [vm_compute; repeat constructor; discriminate |]).
  by apply elem_of_nil in Hc.
Defined.

(** The two Anns of one day end up in one group, under the stamp of the
    first. *)
Example two_Anns_share_a_group :
  map (λ g, (g.(Group.stamp), map Comment.stamp g.(Group.comments)))
      (ProjectCard.groupCommentsByDateAndUser SampleLocale.formatDate two_Anns)
  = [("AAAAAA", ["AAAAAA"; "BBBBBB"])].
Proof. vm_compute. reflexivity. Qed.
(* ===================================================================== *)
(** * Relative times                                                       *)
(* ===================================================================== *)

Section floor_of_quotient.
Import Number.

(** The floor of the binary64 quotient of two integers is the floor of
    their exact quotient, for a dividend below 2^53 in magnitude and a
    divisor of at least 2: the rounding of the quotient never reaches the
    next integer. *)
Lemma Math_floor_div a b :
  2 ≤ b → Z.abs a < 2 ^ 53 → Math_floor (div a b) = a / b.
Proof.
  intros Hb Ha. unfold div.
  destruct (Z.eqb_spec a 0) as [-> | Hnz]; [by rewrite Z.div_0_l by lia |].
  set (A := Z.abs a) in *. assert (HA : 0 < A) by (subst A; lia).
  unfold div_pos.
  set (e0 := Z.log2 A - Z.log2 b - 53).
  set (e := if 2 ^ 53 <=? scale_num A e0 / scale_den b e0 then e0 + 1 else e0).
  assert (HlA : Z.log2 A ≤ 52).
  { assert (Z.log2 A < 53); [| lia]. apply Z.log2_lt_pow2; lia. }
  assert (Hlb : 1 ≤ Z.log2 b).
  { change 1 with (Z.log2 2). apply Z.log2_le_mono. lia. }
  assert (He : e ≤ - Z.log2 b) by (subst e e0; destruct (_ <=? _); lia).
  assert (He0 : e < 0) by lia.
  unfold scale_num, scale_den.
  assert ((e <? 0) = true) as -> by (by apply Z.ltb_lt).
  set (k := - e). set (K := 2 ^ k).
  assert (HK : b < 2 * K).
  { subst K. pose proof (Z.log2_spec b ltac:(lia)) as [_ Hub].
    replace (2 * 2 ^ k) with (2 ^ Z.succ k) by (rewrite Z.pow_succ_r; lia).
    eapply Z.lt_le_trans; [exact Hub |]. apply Z.pow_le_mono_r; lia. }
  assert (HKpos : 0 < K) by (subst K; apply Z.pow_pos_nonneg; lia).
  pose proof (round_div_bound (A * K) b ltac:(lia) ltac:(nia)) as Hm.
  set (m := round_div (A * K) b) in *.
  pose proof (Z.div_mod A b ltac:(lia)) as Hdm.
  pose proof (Z.mod_pos_bound A b ltac:(lia)) as Hr.
  set (q := A / b) in *. set (r := A mod b) in *.
  assert (Hlow : q * K ≤ m) by nia.
  assert (Hup : m < (q + 1) * K) by nia.
  unfold Math_floor. cbn [neg mant expo].
  assert ((e <? 0) = true) as -> by (by apply Z.ltb_lt).
  fold k K.
  destruct (Z.ltb_spec a 0) as [Hneg | Hpos].
  - (* a < 0 *)
    assert (HaA : a = - A) by (subst A; lia).
    destruct (Z.eq_dec r 0) as [Hr0 | Hr0].
    + assert (Hmq : m = q * K) by nia.
      assert (Hab : a = (- q) * b) by nia.
      replace (- m) with ((- q) * K) by lia.
      rewrite Z.div_mul by lia. rewrite Hab.
      by rewrite Z.div_mul by lia.
    + assert (Hlow' : q * K < m) by nia.
      assert (H1 : (- m) / K = - (q + 1)).
      { symmetry. apply (Z.div_unique_pos (- m) K (- (q + 1)) ((q + 1) * K - m)); lia. }
      assert (H2 : a / b = - (q + 1)).
      { symmetry. apply (Z.div_unique_pos a b (- (q + 1)) (b - r)); lia. }
      by rewrite H1, H2.
  - (* 0 < a *)
    assert (HaA : a = A) by (subst A; lia).
    assert (H1 : m / K = q).
    { symmetry. apply (Z.div_unique_pos m K q (m - q * K)); lia. }
    rewrite H1. subst q. f_equal. lia.
Qed.

End floor_of_quotient.

Lemma pow_2_53 : 2 ^ 53 = 9007199254740992.
Proof. reflexivity. Qed.

(** X22: the wording of relative times.  For a difference [diffMs] of
    time values below 2^53 in magnitude, [formatRelativeTime] answers
    [Just now] for every date in the future and for the first minute, then
    counts whole minutes, hours, days and weeks; but from 28 to 30 days it
    answers [0 months ago], and from 360 to 365 days [0 years ago],
    because weeks stop at four, months have thirty days and years 365. *)
Theorem formatRelativeTime_wording (diffMs : Z) :
  Z.abs diffMs < 2 ^ 53 →
  (diffMs < 60000 → formatRelativeTime diffMs = "Just now")
  ∧ (60000 ≤ diffMs < 3600000 →
     formatRelativeTime diffMs
     = pretty (diffMs / 60000) +:+ " minute" +:+ plural (diffMs / 60000) +:+ " ago")
  ∧ (3600000 ≤ diffMs < day_ms →
     formatRelativeTime diffMs
     = pretty (diffMs / 3600000) +:+ " hour" +:+ plural (diffMs / 3600000) +:+ " ago")
  ∧ (day_ms ≤ diffMs < 7 * day_ms →
     formatRelativeTime diffMs
     = pretty (diffMs / day_ms) +:+ " day" +:+ plural (diffMs / day_ms) +:+ " ago")
  ∧ (7 * day_ms ≤ diffMs < 28 * day_ms →
     formatRelativeTime diffMs
     = pretty (diffMs / (7 * day_ms)) +:+ " week" +:+ plural (diffMs / (7 * day_ms))
       +:+ " ago")
  ∧ (28 * day_ms ≤ diffMs < 30 * day_ms →
     formatRelativeTime diffMs = "0 months ago")
  ∧ (30 * day_ms ≤ diffMs < 360 * day_ms →
     formatRelativeTime diffMs
     = pretty (diffMs / (30 * day_ms)) +:+ " month" +:+ plural (diffMs / (30 * day_ms))
       +:+ " ago")
  ∧ (360 * day_ms ≤ diffMs < 365 * day_ms →
     formatRelativeTime diffMs = "0 years ago")
  ∧ (365 * day_ms ≤ diffMs →
     formatRelativeTime diffMs
     = pretty (diffMs / (365 * day_ms)) +:+ " year" +:+ plural (diffMs / (365 * day_ms))
       +:+ " ago").
Proof.
  intros Hrange. rewrite pow_2_53 in Hrange. unfold day_ms.
  assert (Hdays : Z.abs (diffMs / 86400000) < 2 ^ 53).
  { rewrite pow_2_53.
    pose proof (Z.mul_div_le diffMs 86400000 ltac:(lia)).
    pose proof (Z.mul_succ_div_gt diffMs 86400000 ltac:(lia)). lia. }
  assert (Hfmt : formatRelativeTime diffMs
    = let diffMins := diffMs / 60000 in
      let diffHours := diffMs / 3600000 in
      let diffDays := diffMs / 86400000 in
      let diffWeeks := diffDays / 7 in
      let diffMonths := diffDays / 30 in
      let diffYears := diffDays / 365 in
      if diffMins <? 1 then "Just now"
      else if diffMins <? 60
      then pretty diffMins +:+ " minute" +:+ plural diffMins +:+ " ago"
      else if diffHours <? 24
      then pretty diffHours +:+ " hour" +:+ plural diffHours +:+ " ago"
      else if diffDays <? 7
      then pretty diffDays +:+ " day" +:+ plural diffDays +:+ " ago"
      else if diffWeeks <? 4
      then pretty diffWeeks +:+ " week" +:+ plural diffWeeks +:+ " ago"
      else if diffMonths <? 12
      then pretty diffMonths +:+ " month" +:+ plural diffMonths +:+ " ago"
      else pretty diffYears +:+ " year" +:+ plural diffYears +:+ " ago").
  { unfold formatRelativeTime.
    rewrite !(Math_floor_div diffMs) by (rewrite ?pow_2_53; lia).
    rewrite !(Math_floor_div (diffMs / 86400000)) by (done || lia). done. }
  rewrite Hfmt. clear Hfmt Hdays. cbv zeta.
  assert (Hdd : ∀ c, 0 < c → diffMs / 86400000 / c = diffMs / (c * 86400000)).
  { intros c Hc. rewrite Z.div_div by lia. f_equal. lia. }
  rewrite !Hdd by lia.
  assert (Hdiv : ∀ d n, 0 < d → (diffMs / d <? n) = (diffMs <? n * d)).
  { intros d n Hd. destruct (Z.ltb_spec (diffMs / d) n), (Z.ltb_spec diffMs (n * d));
      try done; exfalso.
    - assert (n ≤ diffMs / d) by (apply Z.div_le_lower_bound; lia). lia.
    - assert (diffMs / d < n) by (apply Z.div_lt_upper_bound; lia). lia. }
  rewrite !Hdiv by lia.
  repeat split; intros Hr;
    repeat match goal with
    | |- context [?x <? ?y] =>
        destruct (Z.ltb_spec x y); try lia
    end; try done.
  - assert (diffMs / (30 * 86400000) = 0) as ->; [| done].
    apply Z.div_small. lia.
  - assert (diffMs / (365 * 86400000) = 0) as ->; [| done].
    apply Z.div_small. lia.
Qed.

Lemma formatRelativeTime_wording_witness :
  formatRelativeTime (29 * day_ms) = "0 months ago".
Proof.
  assert (Hr : Z.abs (29 * day_ms) < 2 ^ 53) by (vm_compute; reflexivity).
  assert (Hd : 28 * day_ms ≤ 29 * day_ms < 30 * day_ms)
    by (vm_compute; split; [discriminate | reflexivity]).
  exact (proj1 (proj2 (proj2 (proj2 (proj2 (proj2
           (formatRelativeTime_wording (29 * day_ms) Hr)))))) Hd).
Defined.

(* ===================================================================== *)
(** * The hash of the stamp                                                *)
(* ===================================================================== *)

Lemma toInt32_shift z k : toInt32 (z + k * 2 ^ 32) = toInt32 z.
Proof.
  unfold toInt32. f_equal.
  replace (z + k * 2 ^ 32 + 2 ^ 31) with (z + 2 ^ 31 + k * 2 ^ 32) by lia.
  apply Z_mod_plus_full.
Qed.

Lemma toInt32_wraps z : ∃ k, toInt32 z = z + k * 2 ^ 32.
Proof.
  unfold toInt32. exists (- ((z + 2 ^ 31) / 2 ^ 32)).
  pose proof (Z.div_mod (z + 2 ^ 31) (2 ^ 32) ltac:(lia)). lia.
Qed.

Lemma simpleHash_loop_poly str : ∀ hash x,
  hash = toInt32 x → simpleHash_loop str hash = toInt32 (poly31 str x).
Proof.
  induction str as [|c r IH]; intros hash x Hh; simpl; [done |].
  apply IH.
  destruct (toInt32_wraps x) as [k Hk].
  destruct (toInt32_wraps (hash * 2 ^ 5)) as [j Hj].
  rewrite Hj, Hh, Hk.
  replace ((x + k * 2 ^ 32) * 2 ^ 5 + j * 2 ^ 32 - (x + k * 2 ^ 32) + charCodeAt c)
    with (31 * x + charCodeAt c + (31 * k + j) * 2 ^ 32) by lia.
  apply toInt32_shift.
Qed.

(** X23: [simpleHash] is the polynomial hash with multiplier 31, wrapped
    to 32 bits: the shift, the subtraction and the [hash & hash] of every
    round compute [31 * hash + char] modulo 2^32 in the signed range, and
    the result is the absolute value of the wrapped polynomial
    [c1 * 31^(n-1) + ... + cn] of the code units.  Two fingerprints whose
    polynomials differ by a multiple of 2^32 therefore hash alike. *)
Theorem simpleHash_is_the_wrapped_polynomial (str : string) :
  simpleHash str = Z.abs (toInt32 (poly31 str 0))
  ∧ ∀ str' k, poly31 str' 0 = poly31 str 0 + k * 2 ^ 32 →
              simpleHash str' = simpleHash str.
Proof.
  assert (Hpoly : ∀ s, simpleHash s = Z.abs (toInt32 (poly31 s 0))).
  { intros s. unfold simpleHash. f_equal. by apply simpleHash_loop_poly. }
  split; [apply Hpoly |].
  intros str' k Heq. rewrite !Hpoly, Heq. f_equal. apply toInt32_shift.
Qed.

(* ===================================================================== *)
(** * What the flows do to the rate-limit tracker                          *)
(* ===================================================================== *)

Section tracker.
Context `{JSONCodec}.
Variable has : option json → bool.

Lemma keeps_tracker_ret {A} (a : A) : keeps_tracker (ret a).
Proof. done. Qed.

Lemma keeps_tracker_readonly {A} (m : js A) : readonly m → keeps_tracker m.
Proof. intros Hr w. by rewrite Hr. Qed.

Lemma keeps_tracker_bind {A B} (m : js A) (k : A → js B) :
  keeps_tracker m → (∀ a, keeps_tracker (k a)) → keeps_tracker (bind m k).
Proof.
  intros Hm Hk w. rewrite bind_run. specialize (Hm w).
  destruct (m w) as [[a | e] w1]; simpl in *; [| done].
  by rewrite Hk.
Qed.

Lemma keeps_tracker_storage_setItem key v : keeps_tracker (storage_setItem key v).
Proof. intros w. by rewrite storage_setItem_run. Qed.

Lemma keeps_tracker_logActivity action data iso :
  keeps_tracker (logActivity action data iso).
Proof.
  intros w. destruct (logActivity_world w action data iso) as [[e ->] | [logs ->]]; done.
Qed.

Lemma keeps_tracker_setNickname nickname : keeps_tracker (setNickname nickname).
Proof.
  intros w. destruct (setNickname_world w nickname) as [[e ->] | [nick ->]]; done.
Qed.

Lemma keeps_tracker_saveUserDetails details lastActive logISO :
  keeps_tracker (saveUserDetails details lastActive logISO).
Proof.
  unfold saveUserDetails.
  apply keeps_tracker_bind; [apply keeps_tracker_readonly, readonly_this | intros self].
  apply keeps_tracker_bind; [done | intros _].
  apply keeps_tracker_bind; [apply keeps_tracker_storage_setItem | intros _].
  apply keeps_tracker_bind;
    [apply keeps_tracker_readonly, readonly_storage_getItem | intros stored].
  apply keeps_tracker_bind.
  { apply keeps_tracker_readonly, readonly_Array_findIndex. intros u.
    apply readonly_bind; [apply readonly_get_prop | intros s; apply readonly_ret]. }
  intros userIndex.
  apply keeps_tracker_bind.
  { apply keeps_tracker_readonly.
    destruct userIndex as [i|]; [| apply readonly_Array_push].
    destruct (js_or stored (JArr [])); try apply readonly_Array_push.
    apply readonly_ret. }
  intros allUsers.
  apply keeps_tracker_bind; [apply keeps_tracker_storage_setItem | intros _].
  apply keeps_tracker_logActivity.
Qed.

(** The refresh of the cards that ends the rating and project flows. *)
Lemma keeps_tracker_refresh : keeps_tracker (loadProjects has ;; ret ()).
Proof.
  apply keeps_tracker_bind; [| intros _; apply keeps_tracker_ret].
  apply keeps_tracker_readonly. intros w. apply loadProjects_readonly.
Qed.

Lemma updates_tracker_bind f {A B} (m : js A) (k : A → js B) :
  keeps_tracker m → (∀ a, updates_tracker f (k a)) → updates_tracker f (bind m k).
Proof.
  intros Hm Hk w. rewrite bind_run. specialize (Hm w).
  destruct (m w) as [[a | e] w1]; simpl in *; [| by left].
  specialize (Hk a w1). simpl in Hk. by rewrite Hm in Hk.
Qed.

(** The update itself, when nothing follows it in the [try] block. *)
Lemma updates_tracker_set f :
  updates_tracker f (t <- get_tracker ;; set_tracker (f t)).
Proof. intros w. done. Qed.

(** The update, followed by steps that leave the tracker alone: the update
    stays when such a step throws. *)
Lemma updates_tracker_set_then f (rest : js unit) :
  keeps_tracker rest →
  updates_tracker f (t <- get_tracker ;; set_tracker (f t) ;; rest).
Proof.
  intros Hr w. rewrite bind_run. unfold get_tracker at 1. cbv beta iota.
  rewrite bind_run. unfold set_tracker at 1. cbv beta iota.
  fold (with_tracker w (f (rateLimitTracker w))).
  specialize (Hr (with_tracker w (f (rateLimitTracker w)))). simpl in Hr.
  destruct (rest _) as [[[] | e] w']; simpl in *; [done | by right].
Qed.

Lemma try_catch_tracker f (body : js unit) w :
  updates_tracker f body →
  let r := try_catch body w in
  let t := rateLimitTracker w in
  (r.1 = Completed → rateLimitTracker r.2 = f t)
  ∧ (∀ n, r.1 = Stopped n → r.2 = w)
  ∧ (rateLimitTracker r.2 = t ∨ rateLimitTracker r.2 = f t).
Proof.
  intros Hb. specialize (Hb w). unfold try_catch. simpl in Hb.
  destruct (body w) as [[[] | e] w']; simpl; repeat split; try done.
  by right.
Qed.

Lemma addComment_tracker env projectId textarea_value nickname_text w :
  let r := addComment env projectId textarea_value nickname_text w in
  let t := rateLimitTracker w in
  let t' := comment_recorded (env.(Date_now) 1%nat) t in
  (r.1 = Completed → rateLimitTracker r.2 = t')
  ∧ (∀ n, r.1 = Stopped n → r.2 = w)
  ∧ (rateLimitTracker r.2 = t ∨ rateLimitTracker r.2 = t').
Proof.
  unfold addComment.
  destruct (String.eqb _ ""); [simpl; repeat split; try done; by left |].
  destruct (_ <? _); [simpl; repeat split; try done; by left |].
  destruct (_ <? _); [simpl; repeat split; try done; by left |].
  apply (try_catch_tracker (comment_recorded (env.(Date_now) 1%nat))).
  apply updates_tracker_bind; [apply keeps_tracker_readonly, readonly_this | intros self].
  apply updates_tracker_bind.
  { destruct (nickname_changed _ _); [| done].
    apply keeps_tracker_bind; [apply keeps_tracker_setNickname | done]. }
  intros _.
  apply updates_tracker_bind; [apply keeps_tracker_readonly, readonly_this | intros self'].
  apply updates_tracker_bind;
    [apply keeps_tracker_readonly, readonly_storage_getItem | intros stored].
  apply updates_tracker_bind;
    [apply keeps_tracker_readonly, readonly_Array_push | intros comments].
  apply updates_tracker_bind; [apply keeps_tracker_storage_setItem | intros _].
  apply updates_tracker_bind; [apply keeps_tracker_logActivity | intros _].
  apply (updates_tracker_set (comment_recorded (env.(Date_now) 1%nat))).
Qed.

Lemma rateProject_tracker env projectId rating w :
  let r := rateProject has env projectId rating w in
  let t := rateLimitTracker w in
  let t' := rating_recorded (env.(Date_now) 0%nat) t in
  (r.1 = Completed → rateLimitTracker r.2 = t')
  ∧ (∀ n, r.1 = Stopped n → r.2 = w)
  ∧ (rateLimitTracker r.2 = t ∨ rateLimitTracker r.2 = t').
Proof.
  unfold rateProject.
  destruct (_ <? _); [simpl; repeat split; try done; by left |].
  apply (try_catch_tracker (rating_recorded (env.(Date_now) 0%nat))).
  apply updates_tracker_bind;
    [apply keeps_tracker_readonly, readonly_storage_getItem | intros stored].
  apply updates_tracker_bind;
    [apply keeps_tracker_readonly, readonly_Array_push | intros ratings].
  apply updates_tracker_bind; [apply keeps_tracker_storage_setItem | intros _].
  apply updates_tracker_bind; [apply keeps_tracker_logActivity | intros _].
  apply (updates_tracker_set_then (rating_recorded (env.(Date_now) 0%nat))).
  apply keeps_tracker_refresh.
Qed.

Lemma submitProject_tracker isValidUrl env form w :
  let r := submitProject has isValidUrl env form w in
  let t := rateLimitTracker w in
  let t' := project_recorded (env.(Date_now) 0%nat) t in
  (r.1 = Completed → rateLimitTracker r.2 = t')
  ∧ (∀ n, r.1 = Stopped n → r.2 = w)
  ∧ (rateLimitTracker r.2 = t ∨ rateLimitTracker r.2 = t').
Proof.
  unfold submitProject.
  destruct (negb _); [simpl; repeat split; try done; by left |].
  destruct (_ <? _); [simpl; repeat split; try done; by left |].
  apply (try_catch_tracker (project_recorded (env.(Date_now) 0%nat))).
  apply updates_tracker_bind; [apply keeps_tracker_readonly, readonly_this | intros self].
  apply updates_tracker_bind.
  { destruct (nickname_changed _ _); [| done].
    apply keeps_tracker_bind; [apply keeps_tracker_setNickname | done]. }
  intros _.
  apply updates_tracker_bind.
  { destruct (negb _); [apply keeps_tracker_saveUserDetails | done]. }
  intros _.
  apply updates_tracker_bind; [apply keeps_tracker_readonly, readonly_this | intros self'].
  apply updates_tracker_bind;
    [apply keeps_tracker_readonly, readonly_storage_getItem | intros stored].
  apply updates_tracker_bind;
    [apply keeps_tracker_readonly, readonly_Array_push | intros userProjects].
  apply updates_tracker_bind; [apply keeps_tracker_storage_setItem | intros _].
  apply updates_tracker_bind; [apply keeps_tracker_logActivity | intros _].
  apply (updates_tracker_set_then (project_recorded (env.(Date_now) 0%nat))).
  apply keeps_tracker_refresh.
Qed.

End tracker.

(** On a first visit a rating is stored and its time recorded, and the
    attempt still ends in the [catch] block: the refresh of the cards that
    follows the update of the tracker throws on the object that the
    initialisation left under [projects.userProjects]. *)
Example rating_recorded_although_caught :
  ∃ w1, page_start chrome_env ∅ = Some w1
    ∧ (rateProject (λ _, false) chrome_env 1 5 w1).1
      = Caught "TypeError: not iterable"
    ∧ lastRatingTime (rateLimitTracker (rateProject (λ _, false) chrome_env 1 5 w1).2)
      = chrome_env.(Date_now) 0%nat
    ∧ stored (rateProject (λ _, false) chrome_env 1 5 w1).2 "ratings.1"
      = JArr [JNum 5].
Proof.
  eexists. split; [vm_compute; reflexivity |]. vm_compute. done.
Qed.

(** X24: the three rate limiters are independent.  Whatever the store
    holds and however the attempt ends, an attempt to comment, to rate or
    to share a project changes no time of the tracker but the one of its
    own class, and that one only to the clock reading that the flow
    records: a comment never delays a rating or a submission, and so on.
    An attempt that runs to completion has recorded its time, and an
    attempt that is stopped by the validation or by the limiter leaves the
    world as it was.  An attempt that ends in the [catch] block has
    recorded its time or not, according to whether the exception came
    after the update or before it. *)
Theorem cooldowns_are_independent `{JSONCodec} (has : option json → bool)
    (isValidUrl : string → bool) (env : Env) (w : World) :
  let t := rateLimitTracker w in
  (∀ projectId textarea_value nickname_text,
     let r := addComment env projectId textarea_value nickname_text w in
     let t' := rateLimitTracker r.2 in
     lastRatingTime t' = lastRatingTime t
     ∧ lastProjectTime t' = lastProjectTime t
     ∧ (lastCommentTime t' = lastCommentTime t
        ∨ lastCommentTime t' = env.(Date_now) 1%nat)
     ∧ (r.1 = Completed → lastCommentTime t' = env.(Date_now) 1%nat)
     ∧ (∀ n, r.1 = Stopped n → r.2 = w))
  ∧ (∀ projectId rating,
       let r := rateProject has env projectId rating w in
       let t' := rateLimitTracker r.2 in
       lastCommentTime t' = lastCommentTime t
       ∧ lastProjectTime t' = lastProjectTime t
       ∧ (lastRatingTime t' = lastRatingTime t
          ∨ lastRatingTime t' = env.(Date_now) 0%nat)
       ∧ (r.1 = Completed → lastRatingTime t' = env.(Date_now) 0%nat)
       ∧ (∀ n, r.1 = Stopped n → r.2 = w))
  ∧ (∀ form,
       let r := submitProject has isValidUrl env form w in
       let t' := rateLimitTracker r.2 in
       lastCommentTime t' = lastCommentTime t
       ∧ lastRatingTime t' = lastRatingTime t
       ∧ (lastProjectTime t' = lastProjectTime t
          ∨ lastProjectTime t' = env.(Date_now) 0%nat)
       ∧ (r.1 = Completed → lastProjectTime t' = env.(Date_now) 0%nat)
       ∧ (∀ n, r.1 = Stopped n → r.2 = w)).
Proof.
  intros t. split; [| split].
  - intros projectId textarea_value nickname_text r t'.
    destruct (addComment_tracker env projectId textarea_value nickname_text w)
      as (Hdone & Hstop & Hany).
    fold r t in Hdone, Hstop, Hany. subst t'.
    repeat split.
    + by destruct Hany as [-> | ->].
    + by destruct Hany as [-> | ->].
    + destruct Hany as [-> | ->]; [by left | by right].
    + intros Hc. by rewrite (Hdone Hc).
    + exact Hstop.
  - intros projectId rating r t'.
    destruct (rateProject_tracker has env projectId rating w) as (Hdone & Hstop & Hany).
    fold r t in Hdone, Hstop, Hany. subst t'.
    repeat split.
    + by destruct Hany as [-> | ->].
    + by destruct Hany as [-> | ->].
    + destruct Hany as [-> | ->]; [by left | by right].
    + intros Hc. by rewrite (Hdone Hc).
    + exact Hstop.
  - intros form r t'.
    destruct (submitProject_tracker has isValidUrl env form w) as (Hdone & Hstop & Hany).
    fold r t in Hdone, Hstop, Hany. subst t'.
    repeat split.
    + by destruct Hany as [-> | ->].
    + by destruct Hany as [-> | ->].
    + destruct Hany as [-> | ->]; [by left | by right].
    + intros Hc. by rewrite (Hdone Hc).
    + exact Hstop.
Qed.

Lemma cooldowns_are_independent_witness :
  ∃ w1, page_start chrome_env ∅ = Some w1
    ∧ lastCommentTime (rateLimitTracker (rateProject (λ _, false) chrome_env 1 5 w1).2)
      = lastCommentTime (rateLimitTracker w1)
    ∧ lastProjectTime (rateLimitTracker (rateProject (λ _, false) chrome_env 1 5 w1).2)
      = lastProjectTime (rateLimitTracker w1).
Proof.
  eexists. split; [vm_compute; reflexivity |].
  match goal with
  | |- context [rateProject _ _ _ _ ?W] =>
      pose proof (proj1 (proj2 (cooldowns_are_independent (λ _, false) (λ _, true)
                                  chrome_env W)) 1 5) as (Hc & Hp & _)
  end.
  split; [exact Hc | exact Hp].
Defined.
